(** * External merge sort (Rastocka_mergesort.py): a shallow embedding

    The development follows the source file function by function:
    [read_numbers_and_divide], [create_run_file], [generate_runs],
    [read_blocks], [merge_K_runs], [merge_runs], [external_merge_sort].

    Python [str] values are lists of characters, Python [int]s are [Z],
    the working directory is a finite map from file names to file
    contents, and an exception is an explicit [Raise] outcome.

    Files are ASCII text, as the program writes them: a character is a
    byte, and [tell] and [seek] count characters. *)

From Stdlib Require Import ZArith Ascii String List Lia.
From Stdlib Require Import Decimal DecimalString DecimalN DecimalPos.
From stdpp Require Import base list gmap strings sorting.

Open Scope Z_scope.

(** ** Outcomes of running Python code *)

Inductive exn : Set :=
| ValueError
| IndexError
| ZeroDivisionError
| StopIteration
| FileNotFoundError.

(** [OutOfFuel] is only ever produced by the [while] loop of [merge_runs],
    whose number of passes the model bounds by an explicit counter.
    A [Raise] outcome carries no directory: the files that an aborted run
    leaves behind are not part of the model. *)
Inductive outcome (A : Type) : Type :=
| Done (a : A)
| Raise (e : exn)
| OutOfFuel.

Arguments Done {A} a.
Arguments Raise {A} e.
Arguments OutOfFuel {A}.

Global Instance outcome_ret : MRet outcome := fun A a => Done a.
Global Instance outcome_bind : MBind outcome := fun A B f m =>
  match m with
  | Done a => f a
  | Raise e => Raise e
  | OutOfFuel => OutOfFuel
  end.

(** A list comprehension [[f x for x in l]] whose body may raise:
    elements are evaluated left to right and the first exception wins. *)
Fixpoint comprehension {A B} (f : A → outcome B) (l : list A) : outcome (list B) :=
  match l with
  | [] => Done []
  | x :: r => y ← f x; ys ← comprehension f r; Done (y :: ys)
  end.

(** ** Text: [str], [str.strip], [int(...)], [f"{n}"], [str.split] *)

Abbreviation str := (list ascii).

Definition lit (s : string) : str := list_ascii_of_string s.

Definition newline : ascii := "010"%char.

(** White space in the sense of [str.strip] and [int], ASCII range. *)
Definition py_isspace (c : ascii) : bool :=
  let n := nat_of_ascii c in
  ((9 <=? n) && (n <=? 13) || (28 <=? n) && (n <=? 32))%nat.

Fixpoint lstrip (s : str) : str :=
  match s with
  | [] => []
  | c :: r => if py_isspace c then lstrip r else s
  end.

Definition py_strip (s : str) : str := rev (lstrip (rev (lstrip s))).

Definition is_digit (c : ascii) : bool :=
  let n := nat_of_ascii c in ((48 <=? n) && (n <=? 57))%nat.

Definition underscore : ascii := "_"%char.

(** The shape [digit (["_"] digit)*] that [int] accepts after the sign. *)
Fixpoint digits_ok (prev_digit : bool) (s : str) : bool :=
  match s with
  | [] => prev_digit
  | c :: r =>
      if is_digit c then digits_ok true r
      else if Ascii.eqb c underscore then prev_digit && digits_ok false r
      else false
  end.

Definition not_underscore (c : ascii) : bool := negb (Ascii.eqb c underscore).

Definition digits_value (s : str) : outcome Z :=
  if digits_ok false s then
    match NilEmpty.uint_of_string (string_of_list_ascii (List.filter not_underscore s)) with
    | Some d => Done (Z.of_N (N.of_uint d))
    | None => Raise ValueError
    end
  else Raise ValueError.

(** [int(s)] for a [str] argument, base ten: white space around, an
    optional sign, digits with single underscores between them.  There is
    no bound on the number of digits. *)
Definition py_int (s : str) : outcome Z :=
  match py_strip s with
  | [] => Raise ValueError
  | c :: r =>
      if Ascii.eqb c "-" then v ← digits_value r; Done (- v)
      else if Ascii.eqb c "+" then digits_value r
      else digits_value (c :: r)
  end.

Definition digits_of_pos (p : positive) : str :=
  lit (NilEmpty.string_of_uint (Pos.to_uint p)).

(** [f"{number}"] for an [int]. *)
Definition py_str (z : Z) : str :=
  match z with
  | Z0 => lit "0"
  | Zpos p => digits_of_pos p
  | Zneg p => "-"%char :: digits_of_pos p
  end.

(** [s.split("\n")] *)
Fixpoint py_split (s : str) : list str :=
  match s with
  | [] => [[]]
  | c :: r =>
      if Ascii.eqb c newline then [] :: py_split r
      else match py_split r with
           | l :: ls => (c :: l) :: ls
           | [] => [[c]]
           end
  end.

(** [s.rfind("\n")]: the highest index of a newline, or [-1]. *)
Fixpoint py_rfind (s : str) : Z :=
  match s with
  | [] => -1
  | c :: r =>
      let k := py_rfind r in
      if 0 <=? k then k + 1
      else if Ascii.eqb c newline then 0 else -1
  end.

(** Truth value of a [str] or a list: non-empty. *)
Definition truthy {A} (l : list A) : bool :=
  match l with [] => false | _ => true end.

(** [[int(line) for line in lines if line.strip()]] applied to
    [block.split("\n")], as both places of [merge_K_runs] do. *)
Definition decode_block (block : str) : outcome (list Z) :=
  comprehension py_int (List.filter (fun line => truthy (py_strip line)) (py_split block)).

(** What [create_run_file] and [merge_K_runs] write for a list of numbers:
    [f"{number}\n"] for each of them. *)
Definition write_line (number : Z) : str := py_str number ++ [newline].

Definition write_lines (numbers : list Z) : str := flat_map write_line numbers.

(** ** The working directory *)

(** File names and file contents are [str]s.  The map is written out as
    [gmap (list ascii) (list ascii)] wherever it occurs. *)

Definition os_remove (fs : gmap (list ascii) (list ascii)) (path : str)
  : outcome (gmap (list ascii) (list ascii)) :=
  match fs !! path with
  | None => Raise FileNotFoundError
  | Some _ => Done (delete path fs)
  end.

Definition os_rename (fs : gmap (list ascii) (list ascii)) (src dst : str)
  : outcome (gmap (list ascii) (list ascii)) :=
  match fs !! src with
  | None => Raise FileNotFoundError
  | Some text => Done (<[dst := text]> (delete src fs))
  end.

(** ** [read_numbers_and_divide]

    The generator is run to completion: the result lists the runs it
    yields, in order, or the exception that [int] raises.  The [for] loop
    over the open input file is represented by the list of its lines
    (the input file is taken to be none of the files [run<i>.txt] that
    [generate_runs] writes while the generator is running). *)

Definition NUMBER_SIZE : Z := 40.

Fixpoint read_numbers_and_divide_from (lines : list str) (memory_limit : Z)
    (run : list Z) (current_bytes : Z) : outcome (list (list Z)) :=
  match lines with
  | [] => Done (if truthy run then [run] else [])
  | line :: rest =>
      let flush := (memory_limit <? current_bytes + NUMBER_SIZE) && truthy run in
      let run1 := if flush then [] else run in
      let bytes1 := if flush then 0 else current_bytes in
      number ← py_int (py_strip line);
      later ← read_numbers_and_divide_from rest memory_limit
                (run1 ++ [number]) (bytes1 + NUMBER_SIZE);
      Done (if flush then run :: later else later)
  end.

Definition read_numbers_and_divide (lines : list str) (memory_limit : Z)
  : outcome (list (list Z)) :=
  read_numbers_and_divide_from lines memory_limit [] 0.

(** ** [create_run_file] and [generate_runs] *)

Definition run_filename (run_number : Z) : str :=
  lit "run" ++ py_str run_number ++ lit ".txt".

Definition create_run_file (fs : gmap (list ascii) (list ascii))
    (sorted_run : list Z) (run_number : Z)
  : gmap (list ascii) (list ascii) * str :=
  let run_filename := run_filename run_number in
  (<[run_filename := write_lines sorted_run]> fs, run_filename).

(** [run.sort()] on a list of [int]s. *)
Definition py_sort (run : list Z) : list Z := merge_sort Z.le run.

Fixpoint generate_runs_from (fs : gmap (list ascii) (list ascii))
    (yielded : list (list Z)) (index : Z) (runs : list str)
  : gmap (list ascii) (list ascii) * list str :=
  match yielded with
  | [] => (fs, runs)
  | run :: later =>
      let '(fs1, run_file) := create_run_file fs (py_sort run) index in
      generate_runs_from fs1 later (index + 1) (runs ++ [run_file])
  end.

Definition generate_runs (fs : gmap (list ascii) (list ascii))
    (lines : list str) (memory_limit : Z)
  : outcome (gmap (list ascii) (list ascii) * list str) :=
  yielded ← read_numbers_and_divide lines memory_limit;
  Done (generate_runs_from fs yielded 1 []).

(** ** [read_blocks]

    An open run file inside the generator: its text and the position of
    the cursor.  [read_blocks_next] is one [next(...)] on the generator:
    [None] stands for [StopIteration]. *)

Record reader : Type := { content : str; cursor : nat }.

(** A run file that has just been opened. *)
Definition open_run (text : str) : reader := {| content := text; cursor := 0 |}.

Definition file_read (r : reader) (size : Z) : str :=
  let rest := drop (cursor r) (content r) in
  if size <? 0 then rest else take (Z.to_nat size) rest.

Definition ends_with_newline (block : str) : bool :=
  match last block with
  | Some c => Ascii.eqb c newline
  | None => false
  end.

Definition read_blocks_next (block_size : Z) (r : reader) : option (str * reader) :=
  let block := file_read r block_size in
  let tell := Z.of_nat (cursor r) + Z.of_nat (length block) in
  if truthy block then
    if ends_with_newline block then
      Some (block, {| content := content r; cursor := Z.to_nat tell |})
    else
      let last_newline := py_rfind block in
      let target := tell - (Z.of_nat (length block) - last_newline - 1) in
      Some (take (Z.to_nat (last_newline + 1)) block,
            {| content := content r; cursor := Z.to_nat target |})
  else None.

(** ** [merge_K_runs]

    The first [for] loop only creates the generators; a run file is opened
    by the first [next] on its generator, in the second loop. *)

(** A heap entry [(number, run index)]; tuples compare lexicographically. *)
Definition entry_le (a b : Z * nat) : bool :=
  (a.1 <? b.1) || ((a.1 =? b.1) && (a.2 <=? b.2)%nat).

(** [heapq] is modelled by what it computes: [heappop] returns the least
    entry.  The heap is kept as an ascending list, [heappush] inserts. *)
Fixpoint heappush (heap : list (Z * nat)) (item : Z * nat) : list (Z * nat) :=
  match heap with
  | [] => [item]
  | x :: rest => if entry_le item x then item :: heap else x :: heappush rest item
  end.

Record merge_state : Type := {
  readers : list reader;
  heap : list (Z * nat);
  current_blocks : list (list Z)
}.

(** The second [for] loop: the first block of every run. *)
Fixpoint seed_heap (fs : gmap (list ascii) (list ascii)) (block_size : Z)
    (run_files : list str) (index : nat) (st : merge_state) : outcome merge_state :=
  match run_files with
  | [] => Done st
  | run_file :: rest =>
      match fs !! run_file with
      | None => Raise FileNotFoundError
      | Some text =>
          match read_blocks_next block_size (open_run text) with
          | None => Raise StopIteration
          | Some (block, rd) =>
              lines ← decode_block block;
              match lines with
              | [] => Raise IndexError
              | number :: others =>
                  seed_heap fs block_size rest (S index)
                    {| readers := readers st ++ [rd];
                       heap := heappush (heap st) (number, index);
                       current_blocks := current_blocks st ++ [others] |}
              end
          end
      end
  end.

(** The [while heap] loop; the result lists the popped entries in the
    order in which their numbers are written. *)
Fixpoint merge_loop (fuel : nat) (block_size : Z) (st : merge_state)
  : outcome (list (Z * nat)) :=
  match fuel with
  | O => OutOfFuel
  | S fuel =>
      match heap st with
      | [] => Done []
      | (smallest, run_index) :: popped =>
          rest ←
            match current_blocks st !! run_index with
            | None => Raise IndexError
            | Some (number :: others) =>
                merge_loop fuel block_size
                  {| readers := readers st;
                     heap := heappush popped (number, run_index);
                     current_blocks := <[run_index := others]> (current_blocks st) |}
            | Some [] =>
                match readers st !! run_index with
                | None => Raise IndexError
                | Some rd =>
                    match read_blocks_next block_size rd with
                    | None =>
                        merge_loop fuel block_size
                          {| readers := readers st;
                             heap := popped;
                             current_blocks := current_blocks st |}
                    | Some (new_block, rd') =>
                        lines ← decode_block new_block;
                        match lines with
                        | [] => Raise IndexError
                        | number :: others =>
                            merge_loop fuel block_size
                              {| readers := <[run_index := rd']> (readers st);
                                 heap := heappush popped (number, run_index);
                                 current_blocks :=
                                   <[run_index := others]> (current_blocks st) |}
                        end
                    end
                end
            end;
          Done ((smallest, run_index) :: rest)
      end
  end.

Definition unread (r : reader) : nat := (length (content r) - cursor r)%nat.

(** A bound on the number of iterations of the [while heap] loop
    ([merge_loop_fuel] shows that it is never reached). *)
Definition merge_fuel (st : merge_state) : nat :=
  S (length (heap st) + sum_list (length <$> current_blocks st)
     + sum_list (unread <$> readers st)).

Definition merged_filename (identifier : str) : str :=
  lit "merged_run_" ++ identifier ++ lit ".txt".

Definition empty_state : merge_state :=
  {| readers := []; heap := []; current_blocks := [] |}.

(** The input files are read as they were when the merger was called; the
    output file is written when the merge is complete.  This is what the
    program does whenever [output_file] is not one of [run_files].  The
    source opens [output_file] for writing, which empties it, before the
    [while heap] loop: were it one of [run_files], what the reader of
    that file gets afterwards would depend on the buffers of the
    interpreter, and this is not modelled.  Where a statement depends on
    it, [output_file] is taken to be none of [run_files]. *)
Definition merge_K_runs (fs : gmap (list ascii) (list ascii))
    (run_files : list str) (block_size : Z) (identifier : str)
  : outcome (gmap (list ascii) (list ascii) * str) :=
  st ← seed_heap fs block_size run_files 0 empty_state;
  let output_file := merged_filename identifier in
  written ← merge_loop (merge_fuel st) block_size st;
  Done (<[output_file := write_lines written.*1]> fs, output_file).

(** ** [merge_runs] and [external_merge_sort]

    The scheduler is run together with a record of what it does: one
    [MergePass] per iteration of the [while] loop and one [MergeCall] per
    invocation of [merge_K_runs], with the files handed to it. *)

Inductive event : Type :=
| MergePass (iteration : Z)
| MergeCall (run_files : list str) (identifier : str).

Record traced (A : Type) : Type := Traced {
  trace : list event;
  result : outcome A
}.

Arguments Traced {A} trace result.
Arguments trace {A} t.
Arguments result {A} t.

Global Instance traced_ret : MRet traced := fun A a => Traced [] (Done a).
Global Instance traced_bind : MBind traced := fun A B f m =>
  match result m with
  | Done a => let 'Traced later r := f a in Traced (trace m ++ later) r
  | Raise e => Traced (trace m) (Raise e)
  | OutOfFuel => Traced (trace m) OutOfFuel
  end.

Definition quiet {A} (o : outcome A) : traced A := Traced [] o.

Definition emit (e : event) : traced unit := Traced [e] (Done tt).

(** [range(0, stop, step)] as the [for] statement evaluates it. *)
Definition py_range (stop : nat) (step : Z) : outcome (list nat) :=
  if step =? 0 then Raise ValueError
  else if step <? 0 then Done []
  else
    let k := Z.to_nat step in
    Done ((fun j => j * k)%nat <$> seq 0 ((stop + k - 1) / k)%nat).

(** The body of [for i in range(0, len(runs), K)], for the values of [i]
    in [starts]; the result carries the directory and [new_runs]. *)
Fixpoint merge_batches (fs : gmap (list ascii) (list ascii)) (runs : list str)
    (K block_size iteration : Z) (starts : list nat)
  : traced (gmap (list ascii) (list ascii) * list str) :=
  match starts with
  | [] => mret (fs, [])
  | i :: more =>
      let current_runs := take (Z.to_nat K) (drop i runs) in
      let identifier := py_str iteration ++ lit "_" ++ py_str (Z.of_nat i / K + 1) in
      _ ← emit (MergeCall current_runs identifier);
      '(fs1, merged_run) ← quiet (merge_K_runs fs current_runs block_size identifier);
      '(fs2, new_runs) ← merge_batches fs1 runs K block_size iteration more;
      mret (fs2, merged_run :: new_runs)
  end.

(** [for run in runs: os.remove(run)] *)
Fixpoint remove_runs (fs : gmap (list ascii) (list ascii)) (runs : list str)
  : outcome (gmap (list ascii) (list ascii)) :=
  match runs with
  | [] => Done fs
  | run :: rest => fs1 ← os_remove fs run; remove_runs fs1 rest
  end.

(** The [while len(runs) > 1] loop and the final [os.rename].  [fuel]
    bounds the number of passes; it is consulted only when another pass
    is due. *)
Fixpoint merge_runs_loop (fuel : nat) (fs : gmap (list ascii) (list ascii))
    (runs : list str) (output_file_path : str) (K block_size iteration : Z)
  : traced (gmap (list ascii) (list ascii)) :=
  if (1 <? length runs)%nat then
    match fuel with
    | O => quiet OutOfFuel
    | S fuel =>
        _ ← emit (MergePass iteration);
        starts ← quiet (py_range (length runs) K);
        '(fs1, new_runs) ← merge_batches fs runs K block_size iteration starts;
        fs2 ← quiet (remove_runs fs1 runs);
        merge_runs_loop fuel fs2 new_runs output_file_path K block_size (iteration + 1)
    end
  else
    match runs with
    | [] => quiet (Raise IndexError)
    | run :: _ => quiet (os_rename fs run output_file_path)
    end.

Definition merge_runs (fuel : nat) (fs : gmap (list ascii) (list ascii))
    (runs : list str) (output_file_path : str) (memory_limit block_size : Z)
  : traced (gmap (list ascii) (list ascii)) :=
  if block_size =? 0 then quiet (Raise ZeroDivisionError)
  else
    let K := memory_limit / block_size in
    merge_runs_loop fuel fs runs output_file_path K block_size 1.

Definition output_path : str := lit "output2.txt".

Definition external_merge_sort (fuel : nat) (fs : gmap (list ascii) (list ascii))
    (lines : list str) (memory_limit block_size : Z)
  : traced (gmap (list ascii) (list ascii)) :=
  let first_limit := memory_limit / 3 in
  '(fs1, runs) ← quiet (generate_runs fs lines first_limit);
  merge_runs fuel fs1 runs output_path memory_limit block_size.


(** ** [main]

    [sys.argv] is [argv]; [lines] are the lines of the file that
    [sys.argv[1]] names. *)

Definition MEMORY_LIMIT_BYTES : Z := 100 * 1024 * 1024.

Definition BLOCK_SIZE_BYTES : Z := 512.

Definition main (fuel : nat) (fs : gmap (list ascii) (list ascii))
    (argv : list str) (lines : list str)
  : traced (gmap (list ascii) (list ascii)) :=
  match argv !! 1%nat with
  | None => quiet (Raise IndexError)
  | Some input_file =>
      external_merge_sort fuel fs lines MEMORY_LIMIT_BYTES BLOCK_SIZE_BYTES
  end.
(** * Notions used in the statements *)

(** The first [pulls] calls of [next] on the generator [read_blocks]:
    the blocks they yield, and whether the generator has finished. *)
Fixpoint read_blocks (pulls : nat) (block_size : Z) (r : reader) : list str * bool :=
  match pulls with
  | O => ([], false)
  | S pulls =>
      match read_blocks_next block_size r with
      | None => ([], true)
      | Some (block, r') =>
          let '(blocks, finished) := read_blocks pulls block_size r' in
          (block :: blocks, finished)
      end
  end.

(** A record fits a block when its line, newline included, is no longer
    than the block. *)
Definition fits (block_size : Z) (number : Z) : Prop :=
  Z.of_nat (length (write_line number)) ≤ block_size.

(** How many of the records of [pending] lie entirely within the first
    [n] characters of [write_lines pending] ... *)
Fixpoint whole (n : nat) (pending : list Z) : nat :=
  match pending with
  | [] => O
  | number :: rest =>
      let w := length (write_line number) in
      if (w <=? n)%nat then S (whole (n - w) rest) else O
  end.

(** ... and the piece of the next record that follows them there. *)
Fixpoint partial (n : nat) (pending : list Z) : str :=
  match pending with
  | [] => []
  | number :: rest =>
      let w := length (write_line number) in
      if (w <=? n)%nat then partial (n - w) rest else take n (write_line number)
  end.

(** The cursor of [r] is at a record boundary, with [pending] left to read. *)
Definition at_boundary (r : reader) (pending : list Z) : Prop :=
  drop (cursor r) (content r) = write_lines pending.

(** The reader [r] with its cursor moved forward by [n] characters. *)
Definition advance (r : reader) (n : nat) : reader :=
  {| content := content r; cursor := cursor r + n |}.

(** The order of heap entries, as a relation. *)
Definition lex (a b : Z * nat) : Prop := entry_le a b = true.

(** The records of a run, each with the index of the run. *)
Definition tag (i : nat) (run : list Z) : list (Z * nat) := (λ x, (x, i)) <$> run.

(** The records of several runs, numbered from [i]. *)
Fixpoint tag_runs (i : nat) (runs : list (list Z)) : list (Z * nat) :=
  match runs with
  | [] => []
  | run :: rest => tag i run ++ tag_runs (S i) rest
  end.

(** The [while heap] loop of [merge_K_runs] at the level of records:
    [rems] lists, for every run, the records that follow the one which
    the heap holds for it, whether they are already decoded or still in
    the file. *)
Fixpoint merge_records (fuel : nat) (heap : list (Z * nat)) (rems : list (list Z))
  : outcome (list (Z * nat)) :=
  match fuel with
  | O => OutOfFuel
  | S fuel =>
      match heap with
      | [] => Done []
      | (smallest, run_index) :: popped =>
          rest ←
            match rems !! run_index with
            | None => Raise IndexError
            | Some (number :: others) =>
                merge_records fuel (heappush popped (number, run_index))
                  (<[run_index := others]> rems)
            | Some [] => merge_records fuel popped rems
            end;
          Done ((smallest, run_index) :: rest)
      end
  end.

(** What relates the heap and the remaining records while sorted runs are
    being merged. *)
Record merge_inv (heap : list (Z * nat)) (rems : list (list Z)) : Prop := {
  inv_sorted : StronglySorted lex heap;
  inv_nodup : NoDup heap.*2;
  inv_index : ∀ v i, (v, i) ∈ heap →
              ∃ rem, rems !! i = Some rem ∧ StronglySorted Z.le (v :: rem);
  inv_live : ∀ i rem, rems !! i = Some rem → rem ≠ [] → i ∈ heap.*2
}.

(** A reader and the decoded rest of its current block stand for the
    remaining records [rem] of a run. *)
Definition run_view (block_size : Z) (rd : reader) (queue rem : list Z) : Prop :=
  ∃ pending,
    at_boundary rd pending ∧ Forall (fits block_size) pending ∧ rem = queue ++ pending.

Definition state_view (block_size : Z) (st : merge_state) (rems : list (list Z)) : Prop :=
  Forall3 (run_view block_size) (readers st) (current_blocks st) rems.

(** A run as [merge_K_runs] expects it: not empty, ascending, and every
    record fits a block. *)
Definition good_run (block_size : Z) (run : list Z) : Prop :=
  run ≠ [] ∧ StronglySorted Z.le run ∧ Forall (fits block_size) run.

(** The files named [names] hold the runs [runs]. *)
Definition holds_runs (fs : gmap (list ascii) (list ascii))
    (names : list str) (runs : list (list Z)) : Prop :=
  Forall2 (λ name run, fs !! name = Some (write_lines run)) names runs.

(** The name that pass [iteration] gives to its merged run number [batch]. *)
Definition merged_name (iteration batch : Z) : str :=
  merged_filename (py_str iteration ++ lit "_" ++ py_str batch).

(** A name that no pass from [iteration] on writes to. *)
Definition fresh_from (iteration : Z) (name : str) : Prop :=
  ∀ it batch, iteration ≤ it → name ≠ merged_name it batch.

(** The lines of the input file hold the records [records]. *)
Definition input_records (lines : list str) (records : list Z) : Prop :=
  comprehension (λ line, py_int (py_strip line)) lines = Done records.

(** The size bound of [read_numbers_and_divide]: the records of a run,
    at [NUMBER_SIZE] bytes each, are within the budget, or the run is a
    single record and the budget is below one record. *)
Definition within_budget (memory_limit : Z) (run : list Z) : Prop :=
  NUMBER_SIZE * Z.of_nat (length run) ≤ memory_limit
  ∨ (length run = 1%nat ∧ memory_limit < NUMBER_SIZE).

(** The names [run<index>.txt], [run<index+1>.txt], ... of [n] runs. *)
Fixpoint run_names (index : Z) (n : nat) : list str :=
  match n with
  | O => []
  | S n => run_filename index :: run_names (index + 1) n
  end.

(** The names of the merged runs [after + 1], ..., [after + n] of a pass. *)
Fixpoint merged_names (iteration after : Z) (n : nat) : list str :=
  match n with
  | O => []
  | S n => merged_name iteration (after + 1) :: merged_names iteration (after + 1) n
  end.

(** The frontier of the scheduler before pass [iteration]: the files
    [names] hold the good runs [runs], under distinct names that no later
    pass overwrites. *)
Record frontier (block_size : Z) (fs : gmap (list ascii) (list ascii))
    (names : list str) (runs : list (list Z)) (iteration : Z) : Prop := {
  fr_files : holds_runs fs names runs;
  fr_good : Forall (good_run block_size) runs;
  fr_nodup : NoDup names;
  fr_fresh : Forall (fresh_from iteration) names
}.

(** The runs that a pass with fan-in [k] makes of [runs], in [batches]
    batches. *)
Fixpoint merge_pass_runs (k batches : nat) (runs : list (list Z)) : list (list Z) :=
  match batches with
  | O => []
  | S batches =>
      py_sort (concat (take k runs)) :: merge_pass_runs k batches (drop k runs)
  end.

(** Closes the side conditions about concrete numbers and block sizes. *)
Ltac concrete_fits :=
  repeat constructor; (done || lia || (unfold fits; vm_compute; congruence)).


(** The number of records that [read_numbers_and_divide] puts into a run
    before it starts the next one. *)
Definition run_capacity (memory_limit : Z) : Z := Z.max 1 (memory_limit / NUMBER_SIZE).

(** Every run but the last holds [capacity] records, and the last one
    holds between one and [capacity]. *)
Definition full_runs (capacity : Z) (chunks : list (list Z)) : Prop :=
  ∀ i chunk, chunks !! i = Some chunk →
    1 ≤ Z.of_nat (length chunk) ≤ capacity
    ∧ ((S i < length chunks)%nat → Z.of_nat (length chunk) = capacity).

(** A line of the input file that [int] rejects. *)
Definition malformed (line : str) : Prop := py_int (py_strip line) = Raise ValueError.

(** Every reader of the merge state is at a record boundary of a file of
    records. *)
Definition at_records (st : merge_state) : Prop :=
  Forall (λ rd, ∃ pending, at_boundary rd pending) (readers st).

(** The merge is bound to meet a record that does not fit a block: the
    heap holds an entry of a run whose reader still has such a record
    ahead. *)
Definition blocked (block_size : Z) (st : merge_state) : Prop :=
  ∃ i rd pending,
    i ∈ (heap st).*2
    ∧ readers st !! i = Some rd
    ∧ at_boundary rd pending
    ∧ Exists (λ number, ¬ fits block_size number) pending.

(** The run files that the recorded calls of [merge_K_runs] were given,
    in the order of the calls. *)
Definition merged_files (events : list event) : list str :=
  flat_map (λ e, match e with
                 | MergeCall run_files _ => run_files
                 | MergePass _ => []
                 end) events.
(** * Properties *)

(** ** Sequencing *)

Lemma bind_Done {A B} (a : A) (f : A → outcome B) : (Done a ≫= f) = f a.
Proof. done. Qed.

Lemma bind_Raise {A B} (e : exn) (f : A → outcome B) : (Raise e ≫= f) = Raise e.
Proof. done. Qed.

Lemma bind_OutOfFuel {A B} (f : A → outcome B) : (OutOfFuel ≫= f) = OutOfFuel.
Proof. done. Qed.

(** ** Printing and parsing numbers *)

Section text.

Implicit Types (s t : list ascii) (z : Z) (c : ascii).

Lemma uint_digits (d : uint) :
  Forall (λ c, is_digit c = true) (lit (NilEmpty.string_of_uint d)).
Proof. induction d; simpl; constructor; done. Qed.

Lemma digits_of_pos_digits p : Forall (λ c, is_digit c = true) (digits_of_pos p).
Proof. apply uint_digits. Qed.

Lemma digits_of_pos_nonempty p : digits_of_pos p ≠ [].
Proof.
  unfold digits_of_pos. pose proof (DecimalPos.Unsigned.to_uint_nonnil p) as H.
  destruct (Pos.to_uint p); simpl; done.
Qed.

Lemma digits_ok_digits s b :
  Forall (λ c, is_digit c = true) s → digits_ok b s = (b || truthy s).
Proof.
  intros H. revert b. induction H as [|c r Hc _ IH]; intros b; simpl.
  - by rewrite orb_false_r.
  - rewrite Hc, IH. simpl. by rewrite orb_true_r.
Qed.

Lemma digit_not_underscore c : is_digit c = true → not_underscore c = true.
Proof.
  unfold not_underscore. destruct (Ascii.eqb_spec c underscore) as [->|]; done.
Qed.

Lemma filter_digits s :
  Forall (λ c, is_digit c = true) s → List.filter not_underscore s = s.
Proof.
  induction 1 as [|c r Hc _ IH]; simpl; [done|].
  by rewrite (digit_not_underscore c Hc), IH.
Qed.

Lemma digits_value_pos p : digits_value (digits_of_pos p) = Done (Z.pos p).
Proof.
  unfold digits_value.
  rewrite digits_ok_digits by apply digits_of_pos_digits.
  pose proof (digits_of_pos_nonempty p) as Hne.
  destruct (digits_of_pos p) as [|c r] eqn:E; [done|]. simpl orb. cbv iota.
  rewrite <- E. rewrite filter_digits by apply digits_of_pos_digits.
  unfold digits_of_pos, lit. rewrite string_of_list_ascii_of_string.
  rewrite NilEmpty.usu. unfold N.of_uint.
  by rewrite DecimalPos.Unsigned.of_to.
Qed.

Lemma digit_not_space c : is_digit c = true → py_isspace c = false.
Proof.
  unfold is_digit, py_isspace. intros H.
  apply andb_true_iff in H as [H1 H2].
  apply Nat.leb_le in H1. apply Nat.leb_le in H2.
  apply orb_false_iff. split; apply andb_false_iff.
  - right. apply Nat.leb_gt. lia.
  - right. apply Nat.leb_gt. lia.
Qed.

Lemma lstrip_id c s : py_isspace c = false → lstrip (c :: s) = c :: s.
Proof. intros H. simpl. by rewrite H. Qed.

(** Stripping leaves alone a text that neither starts nor ends with
    white space. *)
Lemma py_strip_id s :
  match s with [] => True | c :: _ => py_isspace c = false end →
  match last s with None => True | Some c => py_isspace c = false end →
  py_strip s = s.
Proof.
  intros Hh Hl. unfold py_strip.
  destruct s as [|c r]; [done|]. rewrite lstrip_id by done.
  destruct (rev (c :: r)) as [|c' r'] eqn:E.
  - apply (f_equal (@rev ascii)) in E. rewrite rev_involutive in E. done.
  - assert (last (c :: r) = Some c') as Hc'.
    { apply (f_equal (@rev ascii)) in E. rewrite rev_involutive in E. rewrite E.
      simpl. by rewrite last_snoc. }
    rewrite Hc' in Hl. rewrite lstrip_id by done.
    rewrite <- E. apply rev_involutive.
Qed.

Lemma last_Forall {A} (P : A → Prop) (l : list A) x :
  Forall P l → last l = Some x → P x.
Proof.
  intros H Hx. apply last_Some in Hx as [l' ->].
  apply Forall_app in H as [_ H]. by inversion H.
Qed.

Lemma py_strip_digits s :
  Forall (λ c, is_digit c = true) s → py_strip s = s.
Proof.
  intros H. apply py_strip_id.
  - destruct s; [done|]. inversion H; subst. by apply digit_not_space.
  - destruct (last s) eqn:E; [|done].
    apply digit_not_space.
    by apply (last_Forall (λ c, is_digit c = true) s).
Qed.

Lemma digit_not_sign c :
  is_digit c = true → Ascii.eqb c "-" = false ∧ Ascii.eqb c "+" = false.
Proof.
  intros H. split.
  - destruct (Ascii.eqb_spec c "-") as [->|]; done.
  - destruct (Ascii.eqb_spec c "+") as [->|]; done.
Qed.

Lemma py_int_digits_of_pos p : py_int (digits_of_pos p) = Done (Z.pos p).
Proof.
  unfold py_int. rewrite py_strip_digits by apply digits_of_pos_digits.
  pose proof (digits_of_pos_digits p) as Hd.
  pose proof (digits_value_pos p) as Hv.
  destruct (digits_of_pos p) as [|c r]; [done|].
  inversion Hd as [|? ? Hc _]; subst.
  destruct (digit_not_sign c Hc) as [-> ->]. done.
Qed.

Lemma py_strip_str z : py_strip (py_str z) = py_str z.
Proof.
  destruct z as [|p|p]; [done|..].
  - apply py_strip_digits, digits_of_pos_digits.
  - apply py_strip_id; [done|].
    simpl. pose proof (digits_of_pos_nonempty p) as Hne.
    pose proof (digits_of_pos_digits p) as Hd.
    destruct (last ("-"%char :: digits_of_pos p)) as [c|] eqn:E; [|done].
    destruct (digits_of_pos p) as [|c' r] eqn:E'; [done|].
    rewrite last_cons_cons in E.
    apply digit_not_space.
    by apply (last_Forall (λ c, is_digit c = true) (c' :: r)).
Qed.

(** Parsing what was printed gives the number back. *)
Lemma py_int_str z : py_int (py_str z) = Done z.
Proof.
  destruct z as [|p|p]; [done|apply py_int_digits_of_pos|].
  unfold py_int. rewrite py_strip_str. simpl.
  by rewrite digits_value_pos.
Qed.

Lemma py_str_inj z1 z2 : py_str z1 = py_str z2 → z1 = z2.
Proof.
  intros H. pose proof (py_int_str z1) as H1. rewrite H, py_int_str in H1.
  by inversion H1.
Qed.

Lemma py_str_nonempty z : py_str z ≠ [].
Proof.
  destruct z as [|p|p]; [done| |done]. apply digits_of_pos_nonempty.
Qed.

(** The characters of a printed number: digits and the sign. *)
Lemma py_str_chars z :
  Forall (λ c, is_digit c = true ∨ c = "-"%char) (py_str z).
Proof.
  destruct z as [|p|p]; simpl.
  - repeat constructor.
  - eapply Forall_impl; [apply digits_of_pos_digits|]. auto.
  - constructor; [by right|].
    eapply Forall_impl; [apply digits_of_pos_digits|]. auto.
Qed.

Lemma py_str_no_newline z : newline ∉ py_str z.
Proof.
  intros H. pose proof (py_str_chars z) as Hc.
  rewrite Forall_forall in Hc. destruct (Hc _ H) as [Hd|Hd]; done.
Qed.

Lemma py_str_no_underscore z : underscore ∉ py_str z.
Proof.
  intros H. pose proof (py_str_chars z) as Hc.
  rewrite Forall_forall in Hc. destruct (Hc _ H) as [Hd|Hd]; done.
Qed.

End text.

(** ** Run files and their blocks *)

Section run_text.

Implicit Types (s t : list ascii) (z : Z) (l pending : list Z) (n k : nat).

Lemma write_lines_app l1 l2 : write_lines (l1 ++ l2) = write_lines l1 ++ write_lines l2.
Proof. unfold write_lines. apply flat_map_app. Qed.

Lemma write_lines_cons z l : write_lines (z :: l) = py_str z ++ newline :: write_lines l.
Proof. unfold write_lines, write_line. simpl. by rewrite <- app_assoc. Qed.

Lemma write_line_length z : (2 ≤ length (write_line z))%nat.
Proof.
  unfold write_line. rewrite length_app. simpl.
  pose proof (py_str_nonempty z). destruct (py_str z); [done|simpl; lia].
Qed.

Lemma write_lines_length l : (length l ≤ length (write_lines l))%nat.
Proof.
  induction l as [|z l IH]; [done|].
  change (write_lines (z :: l)) with (write_line z ++ write_lines l).
  rewrite length_app. pose proof (write_line_length z). simpl. lia.
Qed.

Lemma write_lines_nil_inv l : write_lines l = [] → l = [].
Proof.
  intros H. pose proof (write_lines_length l) as Hl. rewrite H in Hl.
  destruct l; [done|simpl in Hl; lia].
Qed.

Lemma write_lines_snoc l : l ≠ [] → ∃ s, write_lines l = s ++ [newline].
Proof.
  intros Hne. destruct (exists_last Hne) as (l' & z & ->).
  exists (write_lines l' ++ py_str z).
  rewrite write_lines_app. unfold write_lines at 2. simpl.
  unfold write_line. by rewrite app_nil_r, app_assoc.
Qed.

Lemma py_split_line s t : newline ∉ s → py_split (s ++ newline :: t) = s :: py_split t.
Proof.
  induction s as [|c s IH]; intros Hs; simpl.
  - done.
  - destruct (Ascii.eqb_spec c newline) as [->|Hc].
    + exfalso. apply Hs. by left.
    + rewrite IH; [done|]. intros H. apply Hs. by right.
Qed.

Lemma py_split_write_lines l : py_split (write_lines l) = (py_str <$> l) ++ [[]].
Proof.
  induction l as [|z l IH]; [done|].
  rewrite write_lines_cons, py_split_line by apply py_str_no_newline.
  by rewrite IH.
Qed.

Lemma comprehension_py_int l : comprehension py_int (py_str <$> l) = Done l.
Proof.
  induction l as [|z l IH]; [done|].
  rewrite fmap_cons. cbn [comprehension]. rewrite py_int_str, IH. done.
Qed.

Lemma filter_printed l :
  List.filter (λ line, truthy (py_strip line)) ((py_str <$> l) ++ [[]]) = py_str <$> l.
Proof.
  induction l as [|z l IH]; [done|].
  rewrite fmap_cons. cbn [app List.filter]. rewrite py_strip_str, IH.
  pose proof (py_str_nonempty z). by destruct (py_str z).
Qed.

(** Decoding the lines written for a list of numbers gives the list. *)
Lemma decode_write_lines l : decode_block (write_lines l) = Done l.
Proof.
  unfold decode_block.
  by rewrite py_split_write_lines, filter_printed, comprehension_py_int.
Qed.

Lemma write_lines_inj l1 l2 : write_lines l1 = write_lines l2 → l1 = l2.
Proof.
  intros H. pose proof (decode_write_lines l1) as H1.
  rewrite H, decode_write_lines in H1. by inversion H1.
Qed.

Lemma py_rfind_range s : -1 ≤ py_rfind s < Z.of_nat (length s).
Proof.
  induction s as [|c s IH]; simpl; [lia|].
  destruct (Z.leb_spec 0 (py_rfind s)); [lia|].
  destruct (Ascii.eqb c newline); lia.
Qed.

Lemma py_rfind_none s : newline ∉ s → py_rfind s = -1.
Proof.
  induction s as [|c s IH]; intros Hs; simpl; [done|].
  rewrite IH by (intros H; apply Hs; by right). simpl.
  destruct (Ascii.eqb_spec c newline) as [->|]; [|done].
  exfalso. apply Hs. by left.
Qed.

Lemma py_rfind_app s t : newline ∉ t → py_rfind (s ++ t) = py_rfind s.
Proof.
  intros Ht. induction s as [|c s IH]; simpl.
  - by apply py_rfind_none.
  - by rewrite IH.
Qed.

Lemma py_rfind_snoc s : py_rfind (s ++ [newline]) = Z.of_nat (length s).
Proof.
  induction s as [|c s IH]; simpl; [done|].
  rewrite IH. destruct (Z.leb_spec 0 (Z.of_nat (length s))); lia.
Qed.

Lemma py_rfind_write_lines l :
  py_rfind (write_lines l) = Z.of_nat (length (write_lines l)) - 1.
Proof.
  destruct l as [|z l]; [done|].
  destruct (write_lines_snoc (z :: l)) as [s ->]; [done|].
  rewrite py_rfind_snoc, length_app. simpl. lia.
Qed.

Lemma ends_with_newline_snoc s : ends_with_newline (s ++ [newline]) = true.
Proof. unfold ends_with_newline. by rewrite last_snoc. Qed.

Lemma ends_with_newline_app s t :
  t ≠ [] → newline ∉ t → ends_with_newline (s ++ t) = false.
Proof.
  intros Hne Ht. destruct (exists_last Hne) as (t' & c & ->).
  unfold ends_with_newline. rewrite app_assoc, last_snoc.
  destruct (Ascii.eqb_spec c newline) as [->|]; [|done].
  exfalso. apply Ht. apply elem_of_app. right. by left.
Qed.

Lemma ends_with_newline_write_lines l :
  l ≠ [] → ends_with_newline (write_lines l) = true.
Proof.
  intros H. destruct (write_lines_snoc l H) as [s ->].
  apply ends_with_newline_snoc.
Qed.

(** The first [n] characters of a run file are [whole n] records followed
    by a piece of the next record that holds no newline. *)
Lemma take_write_lines n pending :
  take n (write_lines pending)
  = write_lines (take (whole n pending) pending) ++ partial n pending.
Proof.
  revert n. induction pending as [|z l IH]; intros n; simpl.
  - by rewrite take_nil.
  - change (write_lines (z :: l)) with (write_line z ++ write_lines l).
    destruct (Nat.leb_spec (length (write_line z)) n) as [Hle|Hgt].
    + rewrite take_app_ge by done. rewrite IH. simpl.
      change (write_lines (z :: take (whole (n - length (write_line z)) l) l))
        with (write_line z ++ write_lines (take (whole (n - length (write_line z)) l) l)).
      by rewrite <- app_assoc.
    + simpl. rewrite take_app_le by lia. done.
Qed.

Lemma partial_no_newline n pending : newline ∉ partial n pending.
Proof.
  revert n. induction pending as [|z l IH]; intros n; simpl.
  - apply not_elem_of_nil.
  - destruct (Nat.leb_spec (length (write_line z)) n) as [Hle|Hgt]; [apply IH|].
    unfold write_line in *. rewrite length_app in Hgt. simpl in Hgt.
    rewrite take_app_le by lia.
    intros H. apply (py_str_no_newline z).
    apply elem_of_take in H as (i & Hi & _). by eapply list_elem_of_lookup_2.
Qed.

Lemma whole_le n pending : (whole n pending ≤ length pending)%nat.
Proof.
  revert n. induction pending as [|z l IH]; intros n; simpl; [done|].
  destruct (Nat.leb_spec (length (write_line z)) n); [|lia].
  specialize (IH (n - length (write_line z))%nat). lia.
Qed.

Lemma whole_fits n z l :
  (length (write_line z) ≤ n)%nat → (1 ≤ whole n (z :: l))%nat.
Proof.
  intros H. simpl. destruct (Nat.leb_spec (length (write_line z)) n); lia.
Qed.

Lemma whole_oversized n z l :
  (n < length (write_line z))%nat → whole n (z :: l) = O.
Proof.
  intros H. simpl. destruct (Nat.leb_spec (length (write_line z)) n); [lia|done].
Qed.

(** A block never reaches past a record that is longer than the block. *)
Lemma whole_before_oversized n before z after :
  (n < length (write_line z))%nat →
  (whole n (before ++ z :: after) ≤ length before)%nat.
Proof.
  revert n. induction before as [|z' l' IH]; intros n Hn.
  - simpl. destruct (Nat.leb_spec (length (write_line z)) n); lia.
  - simpl. destruct (Nat.leb_spec (length (write_line z')) n); [|lia].
    specialize (IH (n - length (write_line z'))%nat). lia.
Qed.

End run_text.

(** ** One pull on [read_blocks] *)

Section read_blocks_next.

Implicit Types (r : reader) (pending : list Z) (block_size : Z).

Lemma file_read_length r block_size :
  0 ≤ block_size → Z.of_nat (length (file_read r block_size)) ≤ block_size.
Proof.
  intros H. unfold file_read. destruct (Z.ltb_spec block_size 0); [lia|].
  rewrite length_take. lia.
Qed.

Lemma advance_0 r : advance r 0 = r.
Proof. destruct r. unfold advance. simpl. by rewrite Nat.add_0_r. Qed.

Lemma at_boundary_advance r pending k :
  at_boundary r pending →
  at_boundary (advance r (length (write_lines (take k pending)))) (drop k pending).
Proof.
  unfold at_boundary, advance. simpl. intros H.
  rewrite <- drop_drop, H.
  rewrite <- (take_drop k pending) at 2.
  by rewrite write_lines_app, drop_app_length.
Qed.

(** What a pull returns when the cursor is at a record boundary: the
    records that lie entirely within the next [block_size] characters,
    and the cursor is left right after them. *)
Lemma read_blocks_next_boundary block_size r pending :
  0 ≤ block_size →
  at_boundary r pending →
  read_blocks_next block_size r =
    let block := write_lines (take (whole (Z.to_nat block_size) pending) pending) in
    if truthy (take (Z.to_nat block_size) (write_lines pending))
    then Some (block, advance r (length block))
    else None.
Proof.
  intros Hbs Hb. unfold read_blocks_next, file_read. cbv zeta.
  destruct (Z.ltb_spec block_size 0) as [|_]; [lia|].
  unfold at_boundary in Hb. rewrite !Hb. set (n := Z.to_nat block_size).
  destruct (truthy (take n (write_lines pending))) eqn:Hraw; [|done].
  clear Hraw.
  rewrite take_write_lines.
  set (k := whole n pending). set (A := write_lines (take k pending)).
  destruct (partial n pending) as [|c p] eqn:Hp.
  - rewrite app_nil_r.
    destruct (decide (take k pending = [])) as [Hk|Hk].
    + (* nothing was read at all: excluded by [Hraw] above, but the
         equation still holds *)
      subst A. rewrite Hk. simpl. unfold advance. simpl.
      do 3 f_equal. lia.
    + subst A. rewrite ends_with_newline_write_lines by done.
      unfold advance. do 3 f_equal. lia.
  - rewrite ends_with_newline_app; [|done|rewrite <- Hp; apply partial_no_newline].
    rewrite py_rfind_app by (rewrite <- Hp; apply partial_no_newline).
    subst A. rewrite py_rfind_write_lines.
    replace (Z.to_nat (Z.of_nat (length (write_lines (take k pending))) - 1 + 1))
      with (length (write_lines (take k pending))) by lia.
    rewrite take_app_length. unfold advance. do 3 f_equal.
    rewrite length_app. lia.
Qed.

Lemma take_write_lines_truthy n pending :
  truthy (take n (write_lines pending)) = true ↔ (0 < n)%nat ∧ pending ≠ [].
Proof.
  destruct pending as [|z l].
  - change (write_lines []) with (@nil ascii). rewrite take_nil. simpl.
    split; [done|intros [_ ?]; done].
  - change (write_lines (z :: l)) with (write_line z ++ write_lines l).
    pose proof (write_line_length z) as Hw.
    destruct (write_line z) as [|c s]; [simpl in Hw; lia|].
    destruct n; simpl; [split; [done|lia]|]. split; [|done]. intros _. split; [lia|done].
Qed.

(** End of file. *)
Lemma read_blocks_next_eof block_size r :
  0 ≤ block_size → at_boundary r [] → read_blocks_next block_size r = None.
Proof.
  intros Hbs Hb. rewrite (read_blocks_next_boundary _ _ [] Hbs Hb).
  change (write_lines []) with (@nil ascii). cbv zeta. by rewrite take_nil.
Qed.

(** The next record fits: the block holds it, and possibly more. *)
Lemma read_blocks_next_fits block_size r number pending :
  at_boundary r (number :: pending) →
  fits block_size number →
  ∃ k, (k ≤ length pending)%nat ∧
    read_blocks_next block_size r
    = Some (write_lines (number :: take k pending),
            advance r (length (write_lines (number :: take k pending)))).
Proof.
  intros Hb Hfit. unfold fits in Hfit.
  pose proof (write_line_length number) as Hw.
  assert (0 ≤ block_size) as Hbs by lia.
  rewrite (read_blocks_next_boundary _ _ _ Hbs Hb). cbv zeta.
  destruct (take_write_lines_truthy (Z.to_nat block_size) (number :: pending)) as [_ ->];
    [|split; [lia|done]].
  assert (length (write_line number) ≤ Z.to_nat block_size)%nat as Hn by lia.
  pose proof (whole_fits (Z.to_nat block_size) number pending Hn) as Hk.
  pose proof (whole_le (Z.to_nat block_size) (number :: pending)) as Hk'.
  destruct (whole (Z.to_nat block_size) (number :: pending)) as [|k]; [lia|].
  exists k. simpl in Hk'. split; [lia|done].
Qed.

(** The next record does not fit: the block is empty and the cursor stays
    where it was. *)
Lemma read_blocks_next_oversized block_size r number pending :
  0 < block_size →
  at_boundary r (number :: pending) →
  ¬ fits block_size number →
  read_blocks_next block_size r = Some ([], r).
Proof.
  intros Hbs Hb Hfit. unfold fits in Hfit.
  assert (0 ≤ block_size) as Hbs' by lia.
  rewrite (read_blocks_next_boundary _ _ _ Hbs' Hb). cbv zeta.
  destruct (take_write_lines_truthy (Z.to_nat block_size) (number :: pending)) as [_ ->];
    [|split; [lia|done]].
  rewrite whole_oversized by lia. simpl. by rewrite advance_0.
Qed.

End read_blocks_next.

(** ** The generator [read_blocks] as a whole *)

Section read_blocks.

Implicit Types (r : reader) (pending records : list Z) (block_size : Z).

Lemma at_boundary_open records : at_boundary (open_run (write_lines records)) records.
Proof. done. Qed.

(** When every record fits, the generator yields the run in chunks of
    whole records and then finishes. *)
Lemma read_blocks_complete block_size r pending :
  0 ≤ block_size →
  at_boundary r pending →
  Forall (fits block_size) pending →
  ∃ pulls chunks,
    read_blocks pulls block_size r = (write_lines <$> chunks, true)
    ∧ concat chunks = pending
    ∧ Forall (λ chunk, chunk ≠ []) chunks.
Proof.
  intros Hbs. remember (length pending) as n eqn:Hn.
  revert r pending Hn. induction (lt_wf n) as [n _ IH].
  intros r pending -> Hb Hfit. destruct pending as [|z l].
  - exists 1%nat, []. simpl. by rewrite (read_blocks_next_eof _ _ Hbs Hb).
  - inversion Hfit as [|? ? Hz Hl]; subst.
    destruct (read_blocks_next_fits _ _ _ _ Hb Hz) as (k & Hk & Hnext).
    pose proof (at_boundary_advance r (z :: l) (S k) Hb) as Hb'.
    change (take (S k) (z :: l)) with (z :: take k l) in Hb'.
    change (drop (S k) (z :: l)) with (drop k l) in Hb'.
    assert (length (drop k l) < length (z :: l))%nat as Hlt.
    { rewrite length_drop. simpl. lia. }
    destruct (IH _ Hlt _ (drop k l) eq_refl Hb' (Forall_drop _ _ _ Hl))
      as (pulls & chunks & Hrec & Hcat & Hne).
    exists (S pulls), ((z :: take k l) :: chunks).
    cbn [read_blocks]. rewrite Hnext, Hrec. split_and!.
    + done.
    + simpl. rewrite Hcat. by rewrite take_drop.
    + by constructor.
Qed.

(** Whatever the records are, the blocks of any number of pulls hold
    whole records only: put together, they are the first records of the
    run, in order. *)
Lemma read_blocks_whole_records block_size r pending pulls :
  0 ≤ block_size →
  at_boundary r pending →
  ∃ chunks k,
    (read_blocks pulls block_size r).1 = write_lines <$> chunks
    ∧ concat chunks = take k pending.
Proof.
  intros Hbs. revert r pending. induction pulls as [|pulls IH]; intros r pending Hb.
  - by exists [], 0%nat.
  - cbn [read_blocks]. rewrite (read_blocks_next_boundary _ _ _ Hbs Hb). cbv zeta.
    destruct (truthy _); [|by exists [], 0%nat].
    set (k1 := whole (Z.to_nat block_size) pending).
    destruct (IH _ _ (at_boundary_advance r pending k1 Hb)) as (chunks & k & Hrec & Hcat).
    destruct (read_blocks pulls block_size _) as [blocks finished].
    simpl in Hrec. subst blocks.
    exists (take k1 pending :: chunks), (k1 + k)%nat. split; [done|].
    simpl. rewrite Hcat. by rewrite take_take_drop.
Qed.

(** Once the cursor is at a record that does not fit, every pull yields
    the empty block. *)
Lemma read_blocks_stalled block_size r number pending pulls :
  0 < block_size →
  at_boundary r (number :: pending) →
  ¬ fits block_size number →
  read_blocks pulls block_size r = (replicate pulls [], false).
Proof.
  intros Hbs Hb Hfit. induction pulls as [|pulls IH]; [done|].
  simpl. rewrite (read_blocks_next_oversized _ _ _ _ Hbs Hb Hfit).
  by rewrite IH.
Qed.

Lemma read_blocks_until_oversized block_size r before number after :
  0 < block_size →
  at_boundary r (before ++ number :: after) →
  Forall (fits block_size) before →
  ¬ fits block_size number →
  ∃ pulls chunks,
    concat chunks = before
    ∧ ∀ more, read_blocks (pulls + more) block_size r
              = ((write_lines <$> chunks) ++ replicate more [], false).
Proof.
  intros Hbs. remember (length before) as n eqn:Hn.
  revert r before Hn. induction (lt_wf n) as [n _ IH].
  intros r before -> Hb Hfit Hover. destruct before as [|z l].
  - exists 0%nat, []. split; [done|]. intros more. simpl.
    by apply (read_blocks_stalled _ _ number after).
  - inversion Hfit as [|? ? Hz Hl]; subst.
    assert (0 ≤ block_size) as Hbs' by lia.
    rewrite <- app_comm_cons in Hb.
    pose proof (read_blocks_next_boundary _ _ _ Hbs' Hb) as Hnext.
    cbv zeta in Hnext.
    destruct (take_write_lines_truthy (Z.to_nat block_size)
                (z :: l ++ number :: after)) as [_ Ht].
    rewrite Ht in Hnext by (split; [lia|done]). clear Ht.
    set (k := whole (Z.to_nat block_size) (z :: l ++ number :: after)) in *.
    assert (1 ≤ k)%nat as Hk1.
    { apply whole_fits. unfold fits in Hz. lia. }
    assert (k ≤ S (length l))%nat as Hk2.
    { (* the block stops before the record that does not fit *)
      subst k. unfold fits in Hover.
      apply (whole_before_oversized _ (z :: l)). lia. }
    destruct k as [|k]; [lia|].
    pose proof (at_boundary_advance r _ (S k) Hb) as Hb'.
    change (take (S k) (z :: l ++ number :: after))
      with (z :: take k (l ++ number :: after)) in *.
    change (drop (S k) (z :: l ++ number :: after))
      with (drop k (l ++ number :: after)) in Hb'.
    rewrite take_app_le in * by lia. rewrite drop_app_le in Hb' by lia.
    assert (length (drop k l) < length (z :: l))%nat as Hlt.
    { rewrite length_drop. simpl. lia. }
    destruct (IH _ Hlt _ (drop k l) eq_refl Hb' (Forall_drop _ _ _ Hl) Hover)
      as (pulls & chunks & Hcat & Hrec).
    exists (S pulls), ((z :: take k l) :: chunks). split.
    + simpl. rewrite Hcat. by rewrite take_drop.
    + intros more. cbn [Nat.add read_blocks]. rewrite Hnext, Hrec. done.
Qed.

End read_blocks.

(** ** The heap *)

Section heap.

Implicit Types (a b c e : Z * nat) (h : list (Z * nat)).

Lemma lex_spec a b : lex a b ↔ a.1 < b.1 ∨ (a.1 = b.1 ∧ (a.2 ≤ b.2)%nat).
Proof.
  unfold lex, entry_le.
  rewrite orb_true_iff, andb_true_iff, Z.ltb_lt, Z.eqb_eq, Nat.leb_le. done.
Qed.

Global Instance lex_refl : Reflexive lex.
Proof. intros a. apply lex_spec. right. done. Qed.

Global Instance lex_trans : Transitive lex.
Proof. intros a b c. rewrite !lex_spec. lia. Qed.

Global Instance lex_total : Total lex.
Proof. intros a b. rewrite !lex_spec. lia. Qed.

Global Instance lex_antisymm : AntiSymm (=) lex.
Proof.
  intros [a1 a2] [b1 b2]. rewrite !lex_spec. simpl. intros H1 H2.
  f_equal; lia.
Qed.

Global Instance lex_dec a b : Decision (lex a b).
Proof. unfold lex. apply _. Defined.

Lemma lex_not a b : entry_le a b = false → lex b a.
Proof.
  intros H. destruct (total lex a b) as [Hab|]; [|done].
  unfold lex in Hab. congruence.
Qed.

Lemma heappush_perm h e : heappush h e ≡ₚ e :: h.
Proof.
  induction h as [|x h IH]; simpl; [done|].
  destruct (entry_le e x); [done|]. rewrite IH. apply Permutation_swap.
Qed.

Lemma heappush_sorted h e : StronglySorted lex h → StronglySorted lex (heappush h e).
Proof.
  induction 1 as [|x h Hs IH Hx]; simpl.
  - repeat constructor.
  - destruct (entry_le e x) eqn:E.
    + constructor; [by constructor|]. constructor; [done|].
      eapply Forall_impl; [exact Hx|]. intros y Hy. by etrans.
    + constructor; [done|]. rewrite heappush_perm. constructor; [|done].
      by apply lex_not.
Qed.

Lemma heappush_length h e : length (heappush h e) = S (length h).
Proof. by rewrite heappush_perm. Qed.

End heap.

(** ** Merging sorted runs, at the level of records *)

Section merge_records.

Implicit Types (heap : list (Z * nat)) (rems runs : list (list Z)) (i j : nat).

Lemma elem_of_tag x k i run : (x, k) ∈ tag i run ↔ k = i ∧ x ∈ run.
Proof.
  unfold tag. rewrite list_elem_of_fmap. split.
  - intros (y & [= -> ->] & Hy). done.
  - intros [-> Hx]. by exists x.
Qed.

Lemma elem_of_tag_runs x k i runs :
  (x, k) ∈ tag_runs i runs ↔ ∃ j run, k = (i + j)%nat ∧ runs !! j = Some run ∧ x ∈ run.
Proof.
  revert i. induction runs as [|run rest IH]; intros i; simpl.
  - split; [by intros ?%elem_of_nil|]. by intros (j & r & _ & ? & _).
  - rewrite elem_of_app, elem_of_tag, IH. split.
    + intros [[-> Hx]|(j & r & -> & Hj & Hx)].
      * exists 0%nat, run. split_and!; [lia|done..].
      * exists (S j), r. split_and!; [lia|done..].
    + intros (j & r & -> & Hj & Hx). destruct j as [|j]; simpl in Hj.
      * left. inversion Hj; subst. split; [lia|done].
      * right. exists j, r. split_and!; [lia|done..].
Qed.

Lemma tag_runs_fst i runs : (tag_runs i runs).*1 = concat runs.
Proof.
  revert i. induction runs as [|run rest IH]; intros i; simpl; [done|].
  rewrite fmap_app, IH. f_equal. unfold tag. rewrite <- list_fmap_compose.
  apply list_fmap_id.
Qed.

Lemma tag_runs_length i runs : length (tag_runs i runs) = length (concat runs).
Proof. by rewrite <- (tag_runs_fst i), length_fmap. Qed.

Lemma tag_runs_app i runs1 runs2 :
  tag_runs i (runs1 ++ runs2) = tag_runs i runs1 ++ tag_runs (i + length runs1) runs2.
Proof.
  revert i. induction runs1 as [|run rest IH]; intros i; simpl.
  - by rewrite Nat.add_0_r.
  - rewrite IH, <- app_assoc. do 3 f_equal. lia.
Qed.

(** Taking the first record off a run. *)
Lemma tag_runs_insert i runs j x others :
  runs !! j = Some (x :: others) →
  tag_runs i runs ≡ₚ (x, (i + j)%nat) :: tag_runs i (<[j := others]> runs).
Proof.
  revert i j. induction runs as [|run rest IH]; intros i j Hj; [done|].
  destruct j as [|j]; simpl in *.
  - inversion Hj; subst. simpl. by rewrite Nat.add_0_r.
  - rewrite (IH (S i) j) by done.
    rewrite <- Permutation_middle.
    by replace (S i + j)%nat with (i + S j)%nat by lia.
Qed.

Lemma tag_runs_empty i runs :
  (∀ j rem, runs !! j = Some rem → rem = []) → tag_runs i runs = [].
Proof.
  revert i. induction runs as [|run rest IH]; intros i H; simpl; [done|].
  rewrite (H 0%nat run) by done. simpl. apply IH.
  intros j rem Hj. by apply (H (S j)).
Qed.

(** The entry at the top of the heap is below everything that is still
    to be written. *)
Lemma merge_inv_least v i heap rems :
  merge_inv ((v, i) :: heap) rems →
  Forall (lex (v, i)) (heap ++ tag_runs 0 rems).
Proof.
  intros [Hs Hn Hi Hl]. apply Forall_app. split.
  - by inversion Hs.
  - apply Forall_forall. intros [x k] Hx.
    apply elem_of_tag_runs in Hx as (j & run & -> & Hj & Hx). simpl.
    assert (run ≠ []) as Hne by (intros ->; by apply elem_of_nil in Hx).
    pose proof (Hl _ _ Hj Hne) as Hin.
    apply list_elem_of_fmap in Hin as ([u j'] & Hj' & Hin). simpl in Hj'. subst j'.
    destruct (Hi _ _ Hin) as (run' & Hrun' & Hsorted).
    rewrite Hj in Hrun'. inversion Hrun'; subst run'.
    assert (lex (v, i) (u, j)) as H1.
    { apply elem_of_cons in Hin as [Heq|Hin]; [by inversion Heq|].
      inversion Hs as [|? ? _ Hall]; subst.
      rewrite Forall_forall in Hall. by apply Hall. }
    assert (lex (u, j) (x, j)) as H2.
    { inversion Hsorted as [|? ? _ Hall]; subst.
      rewrite Forall_forall in Hall. specialize (Hall _ Hx).
      apply lex_spec. simpl. lia. }
    by etrans.
Qed.

Lemma merge_inv_pop_empty v i heap rems :
  merge_inv ((v, i) :: heap) rems → rems !! i = Some [] → merge_inv heap rems.
Proof.
  intros [Hs Hn Hi Hl] Hrem. split.
  - by inversion Hs.
  - by inversion Hn.
  - intros u j Hin. apply Hi. by right.
  - intros j rem Hj Hne. specialize (Hl _ _ Hj Hne).
    rewrite fmap_cons in Hl. apply elem_of_cons in Hl as [Heq|Hl]; [|done].
    simpl in Heq. subst j. rewrite Hrem in Hj. by inversion Hj; subst.
Qed.

Lemma merge_inv_pop_push v i heap rems x others :
  merge_inv ((v, i) :: heap) rems →
  rems !! i = Some (x :: others) →
  merge_inv (heappush heap (x, i)) (<[i := others]> rems).
Proof.
  intros [Hs Hn Hi Hl] Hrem.
  assert (i ∉ heap.*2) as Hfresh by (by inversion Hn).
  split.
  - apply heappush_sorted. by inversion Hs.
  - rewrite heappush_perm. simpl. constructor; [done|]. by inversion Hn.
  - intros u j Hin. rewrite heappush_perm in Hin.
    apply elem_of_cons in Hin as [Heq|Hin].
    + inversion Heq; subst. exists others. split.
      * apply list_lookup_insert_eq. by eapply lookup_lt_Some.
      * destruct (Hi v i) as (rem & Hrem' & Hsorted); [by left|].
        rewrite Hrem in Hrem'. inversion Hrem'; subst rem.
        by inversion Hsorted.
    + assert (j ≠ i) as Hji.
      { intros ->. apply Hfresh. apply list_elem_of_fmap. by exists (u, i). }
      rewrite list_lookup_insert_ne by done. apply Hi. by right.
  - intros j rem Hj Hne. rewrite heappush_perm. simpl.
    destruct (decide (j = i)) as [->|Hji]; [by left|]. right.
    rewrite list_lookup_insert_ne in Hj by done.
    specialize (Hl _ _ Hj Hne). rewrite fmap_cons in Hl.
    apply elem_of_cons in Hl as [Heq|Hl]; [by simpl in Heq|done].
Qed.

(** Merging sorted runs writes every record once, in the order of the
    heap entries: by value, and by run index among equal values. *)
Lemma merge_records_spec fuel heap rems :
  merge_inv heap rems →
  (length heap + length (concat rems) < fuel)%nat →
  ∃ written,
    merge_records fuel heap rems = Done written
    ∧ written ≡ₚ heap ++ tag_runs 0 rems
    ∧ StronglySorted lex written.
Proof.
  revert heap rems. induction fuel as [|fuel IH]; intros heap rems Hinv Hfuel; [lia|].
  destruct heap as [|[v i] heap]; simpl.
  - exists []. split_and!; [done| |constructor].
    rewrite tag_runs_empty; [done|]. intros j rem Hj.
    destruct rem as [|x rem]; [done|].
    pose proof (inv_live _ _ Hinv j (x :: rem) Hj ltac:(done)) as Hin.
    by apply elem_of_nil in Hin.
  - pose proof (merge_inv_least _ _ _ _ Hinv) as Hleast.
    destruct (inv_index _ _ Hinv v i) as (rem & Hrem & Hsorted); [by left|].
    rewrite Hrem. destruct rem as [|x others].
    + destruct (IH heap rems) as (written & -> & Hperm & Hs).
      { by eapply merge_inv_pop_empty. }
      { simpl in Hfuel. lia. }
      exists ((v, i) :: written). split_and!; [done|by rewrite Hperm|].
      constructor; [done|]. by rewrite Hperm.
    + pose proof (tag_runs_insert 0 rems i x others Hrem) as Htag. simpl in Htag.
      destruct (IH (heappush heap (x, i)) (<[i := others]> rems))
        as (written & -> & Hperm & Hs).
      { by eapply merge_inv_pop_push. }
      { rewrite heappush_length. simpl in Hfuel.
        rewrite <- !(tag_runs_length 0) in *. rewrite Htag in Hfuel.
        simpl in Hfuel. lia. }
      assert (written ≡ₚ heap ++ tag_runs 0 rems) as Hperm'.
      { rewrite Hperm, heappush_perm, Htag. simpl. apply Permutation_middle. }
      exists ((v, i) :: written). split_and!; [done|by rewrite Hperm'|].
      constructor; [done|]. by rewrite Hperm'.
Qed.

End merge_records.

(** ** [merge_K_runs] on sorted runs *)

Section merge_K_runs.

Implicit Types (st : merge_state) (rems runs : list (list Z)) (block_size : Z).

Lemma Forall3_insert {A B C} (P : A → B → C → Prop) l k k' i x y z :
  Forall3 P l k k' → P x y z →
  Forall3 P (<[i := x]> l) (<[i := y]> k) (<[i := z]> k').
Proof.
  intros H Hxyz. revert i. induction H; intros [|i]; simpl; constructor; auto.
Qed.

Lemma lex_sorted_fst (l : list (Z * nat)) :
  StronglySorted lex l → StronglySorted Z.le l.*1.
Proof.
  induction 1 as [|a l _ IH Ha]; simpl; constructor; [done|].
  apply Forall_fmap. eapply Forall_impl; [exact Ha|].
  intros b Hb. apply lex_spec in Hb. simpl. lia.
Qed.

(** The loop on files and blocks does what the merge of records does. *)
Lemma merge_loop_records block_size fuel st rems :
  0 < block_size →
  state_view block_size st rems →
  merge_loop fuel block_size st = merge_records fuel (heap st) rems.
Proof.
  intros Hbs. assert (0 ≤ block_size) as Hbs0 by lia.
  revert st rems. induction fuel as [|fuel IH]; intros st rems Hview; [done|].
  simpl. destruct (heap st) as [|[v i] popped]; [done|].
  unfold state_view in Hview.
  destruct (rems !! i) as [rem|] eqn:Hrem.
  - destruct (Forall3_lookup_r _ _ _ _ _ _ Hview Hrem)
      as (rd & queue & Hrd & Hq & pending & Hb & Hfit & ->).
    rewrite Hq. destruct queue as [|x queue]; simpl.
    + rewrite Hrd. destruct pending as [|z pending].
      * rewrite (read_blocks_next_eof _ _ Hbs0 Hb). by rewrite (IH _ rems).
      * inversion Hfit as [|? ? Hz Hp]; subst.
        destruct (read_blocks_next_fits _ _ _ _ Hb Hz) as (k & Hk & ->).
        rewrite decode_write_lines. simpl.
        rewrite (IH _ (<[i := pending]> rems)); [done|].
        unfold state_view. simpl. apply Forall3_insert; [done|].
        exists (drop k pending). split_and!.
        -- apply (at_boundary_advance rd (z :: pending) (S k) Hb).
        -- by apply Forall_drop.
        -- by rewrite take_drop.
    + rewrite (IH _ (<[i := queue ++ pending]> rems)); [done|].
      unfold state_view. simpl.
      rewrite <- (list_insert_id (readers st) i rd) by done.
      apply Forall3_insert; [done|]. by exists pending.
  - assert (current_blocks st !! i = None) as ->; [|done].
    apply lookup_ge_None. apply lookup_ge_None in Hrem.
    rewrite <- (Forall3_length_lr _ _ _ _ Hview) in Hrem.
    by rewrite <- (Forall3_length_lm _ _ _ _ Hview).
Qed.

(** [merge_fuel] is enough for the loop. *)
Lemma state_view_fuel block_size st rems :
  state_view block_size st rems →
  (length (concat rems)
   ≤ sum_list (length <$> current_blocks st) + sum_list (unread <$> readers st))%nat.
Proof.
  unfold state_view. induction 1 as [|rd queue rem rds queues rems Hv _ IH]; [done|].
  destruct Hv as (pending & Hb & _ & ->). simpl.
  rewrite !length_app. unfold at_boundary in Hb.
  assert (length pending ≤ unread rd)%nat.
  { unfold unread. rewrite <- length_drop, Hb. apply write_lines_length. }
  unfold fmap in *. lia.
Qed.

Lemma merge_inv_seed heap rems x others :
  merge_inv heap rems →
  StronglySorted Z.le (x :: others) →
  merge_inv (heappush heap (x, length rems)) (rems ++ [others]).
Proof.
  intros [Hs Hn Hi Hl] Hsorted.
  assert (∀ u j, (u, j) ∈ heap → (j < length rems)%nat) as Hlt.
  { intros u j Hin. destruct (Hi _ _ Hin) as (rem & Hrem & _).
    by eapply lookup_lt_Some. }
  split.
  - by apply heappush_sorted.
  - rewrite heappush_perm. simpl. constructor; [|done].
    intros Hin. apply list_elem_of_fmap in Hin as ([u j] & Hj & Hin). simpl in Hj.
    subst j. specialize (Hlt _ _ Hin). lia.
  - intros u j Hin. rewrite heappush_perm in Hin.
    apply elem_of_cons in Hin as [Heq|Hin].
    + inversion Heq; subst. exists others. split; [|done].
      by rewrite lookup_app_r, Nat.sub_diag by lia.
    + destruct (Hi _ _ Hin) as (rem & Hrem & ?). exists rem. split; [|done].
      by rewrite lookup_app_l by (by eapply lookup_lt_Some).
  - intros j rem Hj Hne. rewrite heappush_perm. simpl.
    destruct (decide (j < length rems)%nat) as [Hj'|Hj'].
    + right. rewrite lookup_app_l in Hj by done. by eapply Hl.
    + apply lookup_lt_Some in Hj. rewrite length_app in Hj. simpl in Hj.
      replace j with (length rems) by lia. by left.
Qed.

(** The first blocks: every run gets its first record into the heap. *)
Lemma seed_heap_spec fs block_size names runs st rems :
  holds_runs fs names runs →
  Forall (good_run block_size) runs →
  state_view block_size st rems →
  merge_inv (heap st) rems →
  ∃ st',
    seed_heap fs block_size names (length rems) st = Done st'
    ∧ state_view block_size st' (rems ++ (tail <$> runs))
    ∧ merge_inv (heap st') (rems ++ (tail <$> runs))
    ∧ heap st' ++ tag_runs 0 (rems ++ (tail <$> runs))
      ≡ₚ (heap st ++ tag_runs 0 rems) ++ tag_runs (length rems) runs.
Proof.
  intros Hfiles. revert st rems.
  induction Hfiles as [|name run names runs Hname _ IH]; intros st rems Hgood Hview Hinv.
  - exists st. simpl. rewrite !app_nil_r. done.
  - inversion Hgood as [|? ? (Hne & Hsorted & Hfit) Hgood']; subst.
    destruct run as [|x others]; [done|].
    inversion Hfit as [|? ? Hx Hothers]; subst.
    simpl. rewrite Hname.
    destruct (read_blocks_next_fits block_size _ x others
                (at_boundary_open (x :: others)) Hx) as (k & Hk & ->).
    rewrite decode_write_lines. simpl.
    set (st1 := {| readers := _; heap := _; current_blocks := _ |}).
    destruct (IH st1 (rems ++ [others])) as (st' & Hseed & Hview' & Hinv' & Hperm).
    + done.
    + unfold state_view, st1. simpl. apply Forall3_app; [done|].
      constructor; [|constructor]. exists (drop k others). split_and!.
      * by apply (at_boundary_advance (open_run (write_lines (x :: others)))
                    (x :: others) (S k)).
      * by apply Forall_drop.
      * by rewrite take_drop.
    + by apply merge_inv_seed.
    + rewrite length_app in Hseed. simpl in Hseed.
      rewrite Nat.add_1_r in Hseed. rewrite <- app_assoc in Hview', Hinv', Hperm.
      exists st'. split_and!; [done..|].
      rewrite Hperm. unfold st1. simpl. rewrite heappush_perm.
      rewrite tag_runs_app. simpl. rewrite length_app. simpl.
      rewrite Nat.add_1_r, app_nil_r.
      rewrite <- !app_assoc. simpl.
      rewrite <- !Permutation_middle. done.
Qed.

Lemma merge_inv_nil : merge_inv [] [].
Proof.
  split; [constructor|constructor| |].
  - intros v i Hin. by apply elem_of_nil in Hin.
  - intros i rem Hi. done.
Qed.

(** Merging sorted runs whose records fit the block: the entries leave
    the heap ordered by value and, among equal values, by run index, and
    every record of every run is among them once. *)
Lemma merge_K_runs_entries fs names runs block_size identifier :
  0 < block_size →
  holds_runs fs names runs →
  Forall (good_run block_size) runs →
  ∃ st written,
    seed_heap fs block_size names 0 empty_state = Done st
    ∧ merge_loop (merge_fuel st) block_size st = Done written
    ∧ written ≡ₚ tag_runs 0 runs
    ∧ StronglySorted lex written
    ∧ merge_K_runs fs names block_size identifier
      = Done (<[merged_filename identifier := write_lines written.*1]> fs,
              merged_filename identifier).
Proof.
  intros Hbs Hfiles Hgood.
  destruct (seed_heap_spec fs block_size names runs empty_state [] Hfiles Hgood)
    as (st & Hseed & Hview & Hinv & Hperm).
  { constructor. }
  { apply merge_inv_nil. }
  simpl in *.
  destruct (merge_records_spec (merge_fuel st) (heap st) (tail <$> runs) Hinv)
    as (written & Hrec & Hw & Hs).
  { unfold merge_fuel. pose proof (state_view_fuel _ _ _ Hview). lia. }
  rewrite <- (merge_loop_records _ _ _ _ Hbs Hview) in Hrec.
  exists st, written. split_and!; [done|done|by rewrite Hw, Hperm|done|].
  unfold merge_K_runs. by rewrite Hseed, bind_Done, Hrec, bind_Done.
Qed.

Lemma merge_K_runs_spec fs names runs block_size identifier :
  0 < block_size →
  holds_runs fs names runs →
  Forall (good_run block_size) runs →
  ∃ written,
    merge_K_runs fs names block_size identifier
    = Done (<[merged_filename identifier := write_lines written.*1]> fs,
            merged_filename identifier)
    ∧ written ≡ₚ tag_runs 0 runs
    ∧ StronglySorted lex written.
Proof.
  intros Hbs Hfiles Hgood.
  destruct (merge_K_runs_entries fs names runs block_size identifier Hbs Hfiles Hgood)
    as (st & written & _ & _ & Hperm & Hsorted & Hout).
  by exists written.
Qed.

End merge_K_runs.

(** ** File names *)

Section names.

Implicit Types (s t : list ascii) (z : Z).

Lemma split_at_separator (c : ascii) s1 s2 t1 t2 :
  c ∉ s1 → c ∉ s2 → s1 ++ c :: t1 = s2 ++ c :: t2 → s1 = s2 ∧ t1 = t2.
Proof.
  revert s2. induction s1 as [|a s1 IH]; intros [|b s2] H1 H2 Heq; simpl in *.
  - by inversion Heq.
  - inversion Heq; subst. exfalso. apply H2. by left.
  - inversion Heq; subst. exfalso. apply H1. by left.
  - inversion Heq; subst. destruct (IH s2) as [-> ->]; [| |done|done].
    + intros H. apply H1. by right.
    + intros H. apply H2. by right.
Qed.

Lemma run_filename_inj z1 z2 : run_filename z1 = run_filename z2 → z1 = z2.
Proof.
  unfold run_filename. intros H. apply app_inv_head, app_inv_tail in H.
  by apply py_str_inj.
Qed.

Lemma merged_name_inj it1 b1 it2 b2 :
  merged_name it1 b1 = merged_name it2 b2 → it1 = it2 ∧ b1 = b2.
Proof.
  unfold merged_name, merged_filename. intros H.
  apply app_inv_head, app_inv_tail in H. simpl in H.
  apply (split_at_separator underscore) in H as [H1 H2];
    [|apply py_str_no_underscore..].
  split; by apply py_str_inj.
Qed.

Lemma run_filename_fresh z iteration : fresh_from iteration (run_filename z).
Proof. intros it batch _. done. Qed.

Lemma merged_name_fresh it batch iteration :
  it < iteration → fresh_from iteration (merged_name it batch).
Proof.
  intros Hlt it' batch' Hle Heq. apply merged_name_inj in Heq as [-> _]. lia.
Qed.

End names.

(** ** Traces *)

Section traced.

Context {A B : Type}.
Implicit Types (m : traced A) (f : A → traced B).

Lemma result_bind m f : result (m ≫= f) = (result m ≫= λ a, result (f a)).
Proof.
  unfold mbind at 1, traced_bind. destruct m as [t [a| |]]; simpl; [|done..].
  by destruct (f a).
Qed.

Lemma trace_bind m f :
  trace (m ≫= f)
  = trace m ++ match result m with Done a => trace (f a) | _ => [] end.
Proof.
  unfold mbind, traced_bind. destruct m as [t [a| |]]; simpl.
  - by destruct (f a).
  - by rewrite app_nil_r.
  - by rewrite app_nil_r.
Qed.

End traced.

(** ** Run generation *)

Section generate_runs.

Implicit Types (lines : list (list ascii)) (run zs : list Z) (chunks : list (list Z)).
Implicit Types (fs : gmap (list ascii) (list ascii)).

Lemma comprehension_cons_inv {A B} (f : A → outcome B) x l ys :
  comprehension f (x :: l) = Done ys →
  ∃ y ys', f x = Done y ∧ comprehension f l = Done ys' ∧ ys = y :: ys'.
Proof.
  simpl. destruct (f x) as [y| |]; [|done..]. rewrite bind_Done.
  destruct (comprehension f l) as [ys'| |]; [|done..]. rewrite bind_Done.
  intros [= <-]. by exists y, ys'.
Qed.

(** Every run that the generator yields holds at least one record. *)
Lemma read_numbers_and_divide_from_nonempty lines memory_limit run bytes chunks :
  read_numbers_and_divide_from lines memory_limit run bytes = Done chunks →
  Forall (λ chunk, chunk ≠ []) chunks.
Proof.
  revert run bytes chunks. induction lines as [|line rest IH]; intros run bytes chunks.
  - simpl. destruct run; intros [= <-]; repeat constructor. done.
  - cbn [read_numbers_and_divide_from]. cbv zeta.
    destruct (py_int (py_strip line)) as [number| |]; [|done..]. rewrite bind_Done.
    destruct (read_numbers_and_divide_from rest _ _ _) as [later| |] eqn:E; [|done..].
    rewrite bind_Done. apply IH in E.
    destruct ((memory_limit <? bytes + NUMBER_SIZE) && truthy run) eqn:F.
    + intros [= <-]. constructor; [|done].
      apply andb_true_iff in F as [_ F]. by destruct run.
    + by intros [= <-].
Qed.

Lemma read_numbers_and_divide_from_spec lines memory_limit run bytes zs :
  input_records lines zs →
  bytes = NUMBER_SIZE * Z.of_nat (length run) →
  run = [] ∨ within_budget memory_limit run →
  ∃ chunks,
    read_numbers_and_divide_from lines memory_limit run bytes = Done chunks
    ∧ concat chunks = run ++ zs
    ∧ Forall (λ chunk, chunk ≠ [] ∧ within_budget memory_limit chunk) chunks.
Proof.
  unfold input_records, within_budget.
  revert run bytes zs. induction lines as [|line rest IH]; intros run bytes zs Hin Hb Hrun.
  - inversion Hin; subst zs. exists (if truthy run then [run] else []).
    split; [done|]. destruct run as [|z run].
    + by split.
    + destruct Hrun as [|Hrun]; [done|]. simpl. rewrite !app_nil_r.
      split; [done|]. constructor; [|constructor]. by split.
  - apply comprehension_cons_inv in Hin as (z & zs' & Hz & Hrest & ->).
    cbn [read_numbers_and_divide_from]. cbv zeta. rewrite Hz, bind_Done.
    destruct ((memory_limit <? bytes + NUMBER_SIZE) && truthy run) eqn:F.
    + apply andb_true_iff in F as [F1 F2]. apply Z.ltb_lt in F1.
      destruct (IH [z] (0 + NUMBER_SIZE) zs' Hrest) as (later & Hlater & Hcat & Hall).
      { unfold NUMBER_SIZE. simpl. lia. }
      { right. unfold NUMBER_SIZE in *. simpl length. destruct run; [done|].
        destruct Hrun as [|[Hrun|[Hrun ?]]]; [done| |]; simpl length in *; lia. }
      cbn [app]. rewrite Hlater, bind_Done. exists (run :: later).
      split_and!; [done| |].
      * simpl. by rewrite Hcat.
      * constructor; [|done]. destruct run; [done|].
        split; [done|]. by destruct Hrun.
    + destruct (IH (run ++ [z]) (bytes + NUMBER_SIZE) zs' Hrest)
        as (later & Hlater & Hcat & Hall).
      { rewrite length_app. unfold NUMBER_SIZE in *. simpl length. lia. }
      { right. rewrite length_app. simpl.
        apply andb_false_iff in F as [F|F].
        - apply Z.ltb_ge in F. unfold NUMBER_SIZE in *. left. lia.
        - destruct run; [|done]. simpl. unfold NUMBER_SIZE.
          destruct (Z.lt_ge_cases memory_limit 40); [by right|left; lia]. }
      rewrite Hlater, bind_Done. exists later. split_and!; [done| |done].
      rewrite Hcat. by rewrite <- app_assoc.
Qed.

Lemma elem_of_run_names name index n :
  name ∈ run_names index n ↔ ∃ j, 0 ≤ j < Z.of_nat n ∧ name = run_filename (index + j).
Proof.
  revert index. induction n as [|n IH]; intros index; simpl.
  - split; [by intros ?%elem_of_nil|]. intros (j & ? & _). lia.
  - rewrite elem_of_cons, IH. split.
    + intros [->|(j & Hj & ->)].
      * exists 0. split; [lia|]. by rewrite Z.add_0_r.
      * exists (1 + j). split; [lia|]. f_equal. lia.
    + intros (j & Hj & ->). destruct (decide (j = 0)) as [->|].
      * left. by rewrite Z.add_0_r.
      * right. exists (j - 1). split; [lia|]. f_equal. lia.
Qed.

Lemma run_names_length index n : length (run_names index n) = n.
Proof. revert index. induction n as [|n IH]; intros index; simpl; [done|]. by rewrite IH. Qed.

Lemma run_names_NoDup index n : NoDup (run_names index n).
Proof.
  revert index. induction n as [|n IH]; intros index; simpl; constructor; [|done].
  rewrite elem_of_run_names. intros (j & Hj & Heq).
  apply run_filename_inj in Heq. lia.
Qed.

Lemma run_names_fresh index n iteration :
  Forall (fresh_from iteration) (run_names index n).
Proof.
  apply Forall_forall. intros name (j & _ & ->)%elem_of_run_names.
  apply run_filename_fresh.
Qed.

(** The files that [generate_runs] creates hold the sorted runs. *)
Lemma generate_runs_from_spec fs chunks index runs :
  ∃ fs',
    generate_runs_from fs chunks index runs
    = (fs', runs ++ run_names index (length chunks))
    ∧ holds_runs fs' (run_names index (length chunks)) (py_sort <$> chunks)
    ∧ ∀ name, name ∉ run_names index (length chunks) → fs' !! name = fs !! name.
Proof.
  revert fs index runs. induction chunks as [|run later IH]; intros fs index runs.
  - exists fs. simpl. rewrite app_nil_r. split_and!; [done|constructor|done].
  - simpl. unfold create_run_file.
    destruct (IH (<[run_filename index := write_lines (py_sort run)]> fs)
                (index + 1) (runs ++ [run_filename index])) as (fs' & -> & Hfiles & Hframe).
    exists fs'. rewrite <- app_assoc. split_and!; [done| |].
    + constructor; [|done]. rewrite Hframe.
      * apply lookup_insert_eq.
      * rewrite elem_of_run_names. intros (j & Hj & Heq).
        apply run_filename_inj in Heq. lia.
    + intros name Hname. apply not_elem_of_cons in Hname as [Hne Hname].
      rewrite Hframe by done. by apply lookup_insert_ne.
Qed.

Lemma py_sort_perm run : py_sort run ≡ₚ run.
Proof. apply merge_sort_Permutation. Qed.

Lemma py_sort_sorted run : StronglySorted Z.le (py_sort run).
Proof. apply StronglySorted_merge_sort; apply _. Qed.

(** Sorting a list that is already ascending changes nothing. *)
Lemma py_sort_id run : StronglySorted Z.le run → py_sort run = run.
Proof.
  intros H. apply (StronglySorted_unique Z.le); [apply py_sort_sorted|done|].
  apply py_sort_perm.
Qed.

Lemma py_sort_good block_size run :
  run ≠ [] → Forall (fits block_size) run → good_run block_size (py_sort run).
Proof.
  intros Hne Hfit. split_and!.
  - intros H. pose proof (py_sort_perm run) as Hp. rewrite H in Hp.
    apply Permutation_nil_l in Hp. done.
  - apply py_sort_sorted.
  - by rewrite py_sort_perm.
Qed.

End generate_runs.

(** ** The scheduler *)

Section scheduler.

Implicit Types (fs : gmap (list ascii) (list ascii)) (names : list (list ascii)).
Implicit Types (runs : list (list Z)) (K block_size iteration : Z) (k m n a : nat).

Lemma holds_runs_insert fs names runs name text :
  holds_runs fs names runs → name ∉ names →
  holds_runs (<[name := text]> fs) names runs.
Proof.
  unfold holds_runs. induction 1 as [|x run names runs Hx _ IH]; intros Hname.
  - constructor.
  - apply not_elem_of_cons in Hname as [Hne Hname]. constructor; [|by apply IH].
    by rewrite lookup_insert_ne.
Qed.

Lemma holds_runs_frame fs fs' names runs :
  holds_runs fs names runs →
  (∀ name, name ∈ names → fs' !! name = fs !! name) →
  holds_runs fs' names runs.
Proof.
  unfold holds_runs. induction 1 as [|x run names runs Hx _ IH]; intros Hframe.
  - constructor.
  - constructor.
    + rewrite Hframe; [done|by left].
    + apply IH. intros name Hname. apply Hframe. by right.
Qed.

Lemma holds_runs_length fs names runs :
  holds_runs fs names runs → length names = length runs.
Proof. apply Forall2_length. Qed.

Lemma elem_of_merged_names name iteration after m :
  name ∈ merged_names iteration after m
  ↔ ∃ j, after < j ≤ after + Z.of_nat m ∧ name = merged_name iteration j.
Proof.
  revert after. induction m as [|m IH]; intros after; simpl.
  - split; [by intros ?%elem_of_nil|]. intros (j & ? & _). lia.
  - rewrite elem_of_cons, IH. split.
    + intros [->|(j & Hj & ->)].
      * exists (after + 1). split; [lia|done].
      * exists j. split; [lia|done].
    + intros (j & Hj & ->). destruct (decide (j = after + 1)) as [->|].
      * by left.
      * right. exists j. split; [lia|done].
Qed.

Lemma merged_names_length iteration after m :
  length (merged_names iteration after m) = m.
Proof. revert after. induction m as [|m IH]; intros after; simpl; [done|]. by rewrite IH. Qed.

Lemma merged_names_NoDup iteration after m : NoDup (merged_names iteration after m).
Proof.
  revert after. induction m as [|m IH]; intros after; simpl; constructor; [|done].
  rewrite elem_of_merged_names. intros (j & Hj & Heq).
  apply merged_name_inj in Heq as [_ Heq]. lia.
Qed.

Lemma merged_names_fresh iteration after m :
  Forall (fresh_from (iteration + 1)) (merged_names iteration after m).
Proof.
  apply Forall_forall. intros name (j & _ & ->)%elem_of_merged_names.
  apply merged_name_fresh. lia.
Qed.

Lemma fresh_not_merged iteration after m names :
  Forall (fresh_from iteration) names →
  ∀ name, name ∈ names → name ∉ merged_names iteration after m.
Proof.
  intros Hfresh name Hname (j & _ & ->)%elem_of_merged_names.
  rewrite Forall_forall in Hfresh. by apply (Hfresh _ Hname iteration j).
Qed.

(** The values written by a merge are the sorted records of the batch. *)
Lemma merged_values (written : list (Z * nat)) runs :
  written ≡ₚ tag_runs 0 runs → StronglySorted lex written →
  written.*1 = py_sort (concat runs).
Proof.
  intros Hperm Hsorted. symmetry.
  apply (StronglySorted_unique Z.le); [apply py_sort_sorted|by apply lex_sorted_fst|].
  by rewrite py_sort_perm, Hperm, tag_runs_fst.
Qed.

Lemma result_emit e : result (emit e) = Done tt.
Proof. done. Qed.

(** All batches of one pass. *)
Lemma merge_batches_spec fs names runs K block_size iteration a m :
  0 < block_size → 1 ≤ K →
  holds_runs fs names runs →
  Forall (good_run block_size) runs →
  Forall (fresh_from iteration) names →
  let k := Z.to_nat K in
  ∃ fs',
    result (merge_batches fs names K block_size iteration ((λ j, j * k)%nat <$> seq a m))
    = Done (fs', merged_names iteration (Z.of_nat a) m)
    ∧ holds_runs fs' (merged_names iteration (Z.of_nat a) m)
        (merge_pass_runs k m (drop (a * k) runs))
    ∧ ∀ name, name ∉ merged_names iteration (Z.of_nat a) m → fs' !! name = fs !! name.
Proof.
  intros Hbs HK Hfiles Hgood Hfresh k.
  revert a fs Hfiles. induction m as [|m IH]; intros a fs Hfiles.
  - exists fs. simpl. split_and!; [done|constructor|done].
  - cbn [seq fmap list_fmap merge_batches]. cbv zeta.
    rewrite !result_bind, result_emit, bind_Done. cbn [quiet result].
    assert (Z.of_nat (a * k) / K + 1 = Z.of_nat a + 1) as ->.
    { f_equal. rewrite Nat2Z.inj_mul. subst k. rewrite Z2Nat.id by lia.
      apply Z.div_mul. lia. }
    fold k.
    destruct (merge_K_runs_spec fs (take k (drop (a * k) names))
                (take k (drop (a * k) runs)) block_size
                (py_str iteration ++ lit "_" ++ py_str (Z.of_nat a + 1)) Hbs)
      as (written & -> & Hperm & Hsorted).
    { by apply Forall2_take, Forall2_drop. }
    { by apply Forall_take, Forall_drop. }
    rewrite bind_Done. fold (merged_name iteration (Z.of_nat a + 1)).
    set (fs1 := <[merged_name iteration (Z.of_nat a + 1) := _]> fs).
    destruct (IH (S a) fs1) as (fs' & Hres & Hfiles' & Hframe).
    { apply holds_runs_insert; [done|]. intros Hin.
      rewrite Forall_forall in Hfresh.
      by apply (Hfresh _ Hin iteration (Z.of_nat a + 1)). }
    rewrite result_bind.
    replace (Z.of_nat (S a)) with (Z.of_nat a + 1) in * by lia.
    rewrite Hres, bind_Done. exists fs'. split_and!.
    + done.
    + simpl. constructor.
      * rewrite Hframe.
        -- unfold fs1. rewrite lookup_insert_eq.
           by rewrite (merged_values written (take k (drop (a * k) runs))).
        -- rewrite elem_of_merged_names. intros (j & Hj & Heq).
           apply merged_name_inj in Heq as [_ Heq]. lia.
      * rewrite drop_drop. by replace (a * k + k)%nat with (S a * k)%nat by lia.
    + intros name Hname. simpl in Hname.
      apply not_elem_of_cons in Hname as [Hne Hname].
      rewrite Hframe by done. unfold fs1. by rewrite lookup_insert_ne.
Qed.

Lemma merge_pass_runs_length k m runs : length (merge_pass_runs k m runs) = m.
Proof. revert runs. induction m as [|m IH]; intros runs; simpl; [done|]. by rewrite IH. Qed.

(** A pass keeps the records. *)
Lemma merge_pass_runs_perm k m runs :
  (length runs ≤ m * k)%nat → concat (merge_pass_runs k m runs) ≡ₚ concat runs.
Proof.
  revert runs. induction m as [|m IH]; intros runs Hm; simpl.
  - destruct runs; [done|simpl in Hm; lia].
  - rewrite IH by (rewrite length_drop; simpl in Hm; lia).
    rewrite py_sort_perm, <- concat_app. by rewrite take_drop.
Qed.

Lemma concat_nonempty {A} (l : list (list A)) :
  l ≠ [] → Forall (λ x, x ≠ []) l → concat l ≠ [].
Proof.
  intros Hne Hall. destruct l as [|x l]; [done|].
  inversion Hall; subst. simpl. by destruct x.
Qed.

(** A pass makes good runs of good runs, as long as no batch is empty. *)
Lemma merge_pass_runs_good block_size k m runs :
  (1 ≤ k)%nat → (m = 0 ∨ m * k < length runs + k)%nat →
  Forall (good_run block_size) runs →
  Forall (good_run block_size) (merge_pass_runs k m runs).
Proof.
  intros Hk. revert runs. induction m as [|m IH]; intros runs Hm Hgood; simpl.
  - constructor.
  - destruct Hm as [|Hm]; [done|]. constructor.
    + apply py_sort_good.
      * apply concat_nonempty.
        -- destruct runs as [|run runs]; [simpl in Hm; lia|].
           destruct k; [lia|done].
        -- apply Forall_take. eapply Forall_impl; [exact Hgood|].
           by intros run (? & _).
      * apply Forall_concat, Forall_take. eapply Forall_impl; [exact Hgood|].
        by intros run (_ & _ & ?).
    + apply IH; [|by apply Forall_drop]. rewrite length_drop.
      destruct m; [by left|right]. simpl in *. lia.
Qed.

(** With fan-in one, a pass copies every run. *)
Lemma merge_pass_runs_1 runs :
  Forall (StronglySorted Z.le) runs → merge_pass_runs 1 (length runs) runs = runs.
Proof.
  induction 1 as [|run runs Hrun _ IH]; simpl; [done|].
  rewrite drop_0, IH, app_nil_r. by rewrite py_sort_id.
Qed.

Lemma remove_runs_spec fs names :
  NoDup names → (∀ name, name ∈ names → is_Some (fs !! name)) →
  ∃ fs', remove_runs fs names = Done fs'
       ∧ (∀ name, name ∉ names → fs' !! name = fs !! name).
Proof.
  intros Hnd. revert fs. induction Hnd as [|name names Hnotin _ IH]; intros fs Hall.
  - by exists fs.
  - simpl. unfold os_remove. destruct (Hall name) as [text ->]; [by left|].
    rewrite bind_Done. destruct (IH (delete name fs)) as (fs' & -> & Hframe).
    { intros name' Hin. rewrite lookup_delete_ne; [apply Hall; by right|].
      by intros ->. }
    exists fs'. split; [done|]. intros name' Hname'.
    apply not_elem_of_cons in Hname' as [Hne Hname'].
    rewrite Hframe by done. by rewrite lookup_delete_ne.
Qed.

Lemma py_range_positive n K :
  1 ≤ K →
  py_range n K
  = Done ((λ j, j * Z.to_nat K)%nat <$> seq 0 ((n + Z.to_nat K - 1) / Z.to_nat K)).
Proof.
  intros HK. unfold py_range.
  destruct (Z.eqb_spec K 0); [lia|]. destruct (Z.ltb_spec K 0); [lia|done].
Qed.

Lemma batches_bounds n k :
  (1 ≤ k)%nat → (1 ≤ n)%nat →
  let m := ((n + k - 1) / k)%nat in
  (1 ≤ m ∧ n ≤ m * k ∧ m * k < n + k)%nat.
Proof.
  intros Hk Hn m.
  pose proof (Nat.div_mod_eq (n + k - 1) k) as Hdm.
  pose proof (Nat.mod_upper_bound (n + k - 1) k ltac:(lia)) as Hmod.
  fold m in Hdm. split_and!; [|nia..].
  destruct m; [|lia]. lia.
Qed.

(** One pass of the [while] loop on a frontier of good runs. *)
Lemma merge_pass_spec fs names runs K block_size iteration :
  0 < block_size → 1 ≤ K → names ≠ [] →
  frontier block_size fs names runs iteration →
  let k := Z.to_nat K in
  let m := ((length names + k - 1) / k)%nat in
  ∃ fs1 fs2,
    result (merge_batches fs names K block_size iteration
              ((λ j, j * k)%nat <$> seq 0 m))
    = Done (fs1, merged_names iteration 0 m)
    ∧ remove_runs fs1 names = Done fs2
    ∧ frontier block_size fs2 (merged_names iteration 0 m)
        (merge_pass_runs k m runs) (iteration + 1).
Proof.
  intros Hbs HK Hne [Hfiles Hgood Hnd Hfresh] k m.
  assert (1 ≤ k)%nat as Hk by lia.
  assert (1 ≤ length names)%nat as Hn by (destruct names; [done|simpl; lia]).
  destruct (batches_bounds _ _ Hk Hn) as (Hm1 & Hm2 & Hm3). fold m in Hm1, Hm2, Hm3.
  destruct (merge_batches_spec fs names runs K block_size iteration 0 m
              Hbs HK Hfiles Hgood Hfresh) as (fs1 & Hres & Hnew & Hframe).
  fold k in Hres, Hnew. simpl in Hres, Hnew, Hframe. rewrite drop_0 in Hnew.
  pose proof (fresh_not_merged iteration 0 m names Hfresh) as Hdisj.
  destruct (remove_runs_spec fs1 names Hnd) as (fs2 & Hrm & Hframe2).
  { intros name Hin. rewrite Hframe by by apply Hdisj.
    unfold holds_runs in Hfiles.
    apply list_elem_of_lookup in Hin as [i Hi].
    destruct (Forall2_lookup_l _ _ _ _ _ Hfiles Hi) as (run & _ & ->). done. }
  exists fs1, fs2. split_and!; [done..|]. split.
  - eapply holds_runs_frame; [exact Hnew|]. intros name Hin.
    apply Hframe2. intros Hin'. by apply (Hdisj _ Hin').
  - apply merge_pass_runs_good; [done| |done].
    rewrite <- (holds_runs_length _ _ _ Hfiles). by right.
  - apply merged_names_NoDup.
  - apply merged_names_fresh.
Qed.

Lemma merge_runs_loop_exit fuel fs names out K block_size iteration :
  (length names ≤ 1)%nat →
  merge_runs_loop fuel fs names out K block_size iteration
  = match names with
    | [] => quiet (Raise IndexError)
    | run :: _ => quiet (os_rename fs run out)
    end.
Proof.
  intros Hn. destruct fuel; simpl;
    destruct (Nat.ltb_spec 1 (length names)); (lia || done).
Qed.

Lemma merge_runs_loop_pass fuel fs names out K block_size iteration :
  (2 ≤ length names)%nat →
  merge_runs_loop (S fuel) fs names out K block_size iteration
  = (_ ← emit (MergePass iteration);
     starts ← quiet (py_range (length names) K);
     '(fs1, new_runs) ← merge_batches fs names K block_size iteration starts;
     fs2 ← quiet (remove_runs fs1 names);
     merge_runs_loop fuel fs2 new_runs out K block_size (iteration + 1)).
Proof.
  intros Hn. simpl. destruct (Nat.ltb_spec 1 (length names)); (lia || done).
Qed.

Lemma merge_runs_loop_out_of_fuel fs names out K block_size iteration :
  (2 ≤ length names)%nat →
  merge_runs_loop 0 fs names out K block_size iteration = quiet OutOfFuel.
Proof.
  intros Hn. simpl. destruct (Nat.ltb_spec 1 (length names)); (lia || done).
Qed.

(** The result of a pass on a frontier of good runs, inside the loop. *)
Lemma merge_runs_loop_step fuel fs names runs out K block_size iteration :
  0 < block_size → 1 ≤ K → (2 ≤ length names)%nat →
  frontier block_size fs names runs iteration →
  let k := Z.to_nat K in
  let m := ((length names + k - 1) / k)%nat in
  ∃ fs2,
    frontier block_size fs2 (merged_names iteration 0 m)
      (merge_pass_runs k m runs) (iteration + 1)
    ∧ result (merge_runs_loop (S fuel) fs names out K block_size iteration)
      = result (merge_runs_loop fuel fs2 (merged_names iteration 0 m) out K
                  block_size (iteration + 1)).
Proof.
  intros Hbs HK Hn Hfr k m.
  assert (names ≠ []) as Hne by (destruct names; [simpl in Hn; lia|done]).
  destruct (merge_pass_spec fs names runs K block_size iteration Hbs HK Hne Hfr)
    as (fs1 & fs2 & Hres & Hrm & Hfr').
  exists fs2. split; [done|].
  rewrite merge_runs_loop_pass by done.
  rewrite !result_bind, result_emit, bind_Done. cbn [quiet result].
  rewrite py_range_positive, bind_Done by done.
  subst k m. rewrite result_bind, Hres, bind_Done.
  rewrite result_bind. cbn [quiet result]. by rewrite Hrm, bind_Done.
Qed.

(** With a fan-in of at least two the loop ends, and the output file holds
    the records of all runs in ascending order. *)
Lemma merge_runs_loop_sorts fuel fs names runs out K block_size iteration :
  0 < block_size → 2 ≤ K → names ≠ [] →
  frontier block_size fs names runs iteration →
  (length names ≤ S fuel)%nat →
  ∃ fs' final,
    result (merge_runs_loop fuel fs names out K block_size iteration) = Done fs'
    ∧ fs' !! out = Some (write_lines final)
    ∧ StronglySorted Z.le final
    ∧ final ≡ₚ concat runs.
Proof.
  intros Hbs HK. revert fs names runs iteration.
  induction fuel as [|fuel IH]; intros fs names runs iteration Hne Hfr Hfuel.
  - rewrite merge_runs_loop_exit by done.
    destruct names as [|name [|]]; [done| |simpl in Hfuel; lia].
    destruct Hfr as [Hfiles Hgood _ _].
    inversion Hfiles as [|? run ? runs' Hname Hnil]; subst. inversion Hnil; subst.
    inversion Hgood as [|? ? (_ & Hsorted & _) _]; subst.
    exists (<[out := write_lines run]> (delete name fs)), run.
    cbn [quiet result]. unfold os_rename. rewrite Hname.
    split_and!; [done|apply lookup_insert_eq|done|]. simpl. by rewrite app_nil_r.
  - destruct (decide (length names ≤ 1)%nat) as [Hsmall|Hbig].
    { rewrite merge_runs_loop_exit by done.
      destruct names as [|name [|]]; [done| |simpl in Hsmall; lia].
      destruct Hfr as [Hfiles Hgood _ _].
      inversion Hfiles as [|? run ? runs' Hname Hnil]; subst. inversion Hnil; subst.
      inversion Hgood as [|? ? (_ & Hsorted & _) _]; subst.
      exists (<[out := write_lines run]> (delete name fs)), run.
      cbn [quiet result]. unfold os_rename. rewrite Hname.
      split_and!; [done|apply lookup_insert_eq|done|]. simpl. by rewrite app_nil_r. }
    assert (2 ≤ length names)%nat as Hn by lia.
    destruct (merge_runs_loop_step fuel fs names runs out K block_size iteration
                Hbs ltac:(lia) Hn Hfr) as (fs2 & Hfr' & ->).
    set (k := Z.to_nat K) in *. set (m := ((length names + k - 1) / k)%nat) in *.
    assert (2 ≤ k)%nat as Hk by lia.
    destruct (batches_bounds (length names) k ltac:(lia) ltac:(lia)) as (Hm1 & Hm2 & Hm3).
    fold m in Hm1, Hm2, Hm3.
    destruct (IH fs2 (merged_names iteration 0 m) (merge_pass_runs k m runs)
                (iteration + 1)) as (fs' & final & Hres & Hout & Hsorted & Hperm).
    + destruct m; [lia|done].
    + done.
    + rewrite merged_names_length. nia.
    + exists fs', final. split_and!; [done..|].
      rewrite Hperm. apply merge_pass_runs_perm.
      destruct Hfr as [Hfiles _ _ _].
      by rewrite <- (holds_runs_length _ _ _ Hfiles).
Qed.

(** With a fan-in of one a pass copies every run, and the loop never ends. *)
Lemma merge_runs_loop_forever fuel fs names runs out block_size iteration :
  0 < block_size → (2 ≤ length names)%nat →
  frontier block_size fs names runs iteration →
  result (merge_runs_loop fuel fs names out 1 block_size iteration) = OutOfFuel.
Proof.
  intros Hbs. revert fs names iteration.
  induction fuel as [|fuel IH]; intros fs names iteration Hn Hfr.
  - by rewrite merge_runs_loop_out_of_fuel.
  - destruct (merge_runs_loop_step fuel fs names runs out 1 block_size iteration
                Hbs ltac:(lia) Hn Hfr) as (fs2 & Hfr' & ->).
    change (Z.to_nat 1) with 1%nat in *.
    replace ((length names + 1 - 1) / 1)%nat with (length names) in *
      by (rewrite Nat.div_1_r; lia).
    destruct Hfr as [Hfiles Hgood _ _].
    rewrite (holds_runs_length _ _ _ Hfiles) in Hfr' at 2.
    rewrite merge_pass_runs_1 in Hfr'.
    + apply IH; [by rewrite merged_names_length|done].
    + eapply Forall_impl; [exact Hgood|]. by intros run (_ & ? & _).
Qed.

End scheduler.

(** ** What the scheduler does for any files and any fan-in *)

Section any_fan_in.

Implicit Types (fs : gmap (list ascii) (list ascii)) (runs names : list (list ascii)).
Implicit Types (K block_size iteration : Z).

Lemma py_range_elem n K starts i :
  py_range n K = Done starts → i ∈ starts → 1 ≤ K ∧ (i < n)%nat.
Proof.
  unfold py_range. destruct (Z.eqb_spec K 0); [done|].
  destruct (Z.ltb_spec K 0).
  - intros [= <-] Hi. by apply elem_of_nil in Hi.
  - intros [= <-] Hi. apply list_elem_of_fmap in Hi as (j & -> & Hj).
    apply elem_of_seq in Hj. split; [lia|].
    destruct n as [|n].
    + assert ((0 + Z.to_nat K - 1) / Z.to_nat K = 0)%nat as Hz
        by (apply Nat.div_small; lia).
      rewrite Hz in Hj. lia.
    + destruct (batches_bounds (S n) (Z.to_nat K)) as (_ & _ & Hm); [lia..|].
      nia.
Qed.

Lemma merge_batches_result_length fs runs K block_size iteration starts fs' new_runs :
  result (merge_batches fs runs K block_size iteration starts) = Done (fs', new_runs) →
  length new_runs = length starts.
Proof.
  revert fs fs' new_runs. induction starts as [|i more IH]; intros fs fs' new_runs.
  - simpl. by intros [= _ <-].
  - cbn [merge_batches]. cbv zeta.
    rewrite !result_bind, result_emit, bind_Done. cbn [quiet result].
    destruct (merge_K_runs _ _ _ _) as [[fs1 merged_run]| |]; [|done..].
    rewrite bind_Done, result_bind.
    destruct (result (merge_batches fs1 _ _ _ _ _)) as [[fs2 later]| |] eqn:E; [|done..].
    rewrite bind_Done. simpl. intros [= _ <-]. simpl. by rewrite (IH _ _ _ E).
Qed.

(** The merger calls of one pass: a slice of at most [K] runs each. *)
Lemma merge_batches_trace fs runs K block_size iteration starts e :
  e ∈ trace (merge_batches fs runs K block_size iteration starts) →
  ∃ i identifier,
    i ∈ starts ∧ e = MergeCall (take (Z.to_nat K) (drop i runs)) identifier.
Proof.
  revert fs. induction starts as [|i more IH]; intros fs.
  - simpl. by intros ?%elem_of_nil.
  - cbn [merge_batches]. cbv zeta. rewrite trace_bind. cbn [emit trace result].
    rewrite trace_bind. cbn [quiet trace result app].
    intros [->|Hin]%elem_of_cons.
    + eexists i, _. split; [by left|done].
    + destruct (merge_K_runs _ _ _ _) as [[fs1 merged_run]| |];
        [|by apply elem_of_nil in Hin..].
      rewrite trace_bind in Hin. apply elem_of_app in Hin as [Hin|Hin].
      * destruct (IH _ Hin) as (j & identifier & Hj & ->).
        exists j, identifier. split; [by right|done].
      * destruct (result (merge_batches fs1 _ _ _ _ _)) as [[fs2 later]| |];
          by apply elem_of_nil in Hin.
Qed.

(** No merger call of the scheduler is empty or larger than the fan-in. *)
Lemma merge_runs_loop_trace fuel fs runs out K block_size iteration batch identifier :
  MergeCall batch identifier
    ∈ trace (merge_runs_loop fuel fs runs out K block_size iteration) →
  1 ≤ Z.of_nat (length batch) ≤ K.
Proof.
  revert fs runs iteration. induction fuel as [|fuel IH]; intros fs runs iteration.
  - simpl. destruct (1 <? length runs)%nat; [by intros ?%elem_of_nil|].
    destruct runs; by intros ?%elem_of_nil.
  - destruct (decide (length runs ≤ 1)%nat) as [Hsmall|Hbig].
    { rewrite merge_runs_loop_exit by done. destruct runs; by intros ?%elem_of_nil. }
    rewrite merge_runs_loop_pass by lia.
    rewrite trace_bind. cbn [emit trace result].
    intros [?|Hin]%elem_of_cons; [done|].
    rewrite trace_bind in Hin. cbn [quiet trace result app] in Hin.
    destruct (py_range (length runs) K) as [starts| |] eqn:Hstarts;
      [|by apply elem_of_nil in Hin..].
    rewrite trace_bind in Hin. apply elem_of_app in Hin as [Hin|Hin].
    + apply merge_batches_trace in Hin as (i & identifier' & Hi & [= -> _]).
      destruct (py_range_elem _ _ _ _ Hstarts Hi) as [HK Hlt].
      rewrite length_take, length_drop. lia.
    + destruct (result (merge_batches _ _ _ _ _ _)) as [[fs1 new_runs]| |];
        [|by apply elem_of_nil in Hin..].
      rewrite trace_bind in Hin. cbn [quiet trace result app] in Hin.
      destruct (remove_runs fs1 runs) as [fs2| |]; [|by apply elem_of_nil in Hin..].
      by apply IH in Hin.
Qed.

(** Without a fan-in of at least two, two or more runs are never merged
    into one. *)
Lemma merge_runs_loop_fan_in fuel fs runs out K block_size iteration fs' :
  (2 ≤ length runs)%nat → K ≤ 1 →
  result (merge_runs_loop fuel fs runs out K block_size iteration) ≠ Done fs'.
Proof.
  intros Hn HK. revert fs runs iteration Hn.
  induction fuel as [|fuel IH]; intros fs runs iteration Hn.
  - by rewrite merge_runs_loop_out_of_fuel.
  - rewrite merge_runs_loop_pass by done.
    rewrite !result_bind, result_emit, bind_Done. cbn [quiet result].
    destruct (py_range (length runs) K) as [starts| |] eqn:Hstarts; [|done..].
    rewrite bind_Done, result_bind.
    destruct (result (merge_batches _ _ _ _ _ _)) as [[fs1 new_runs]| |] eqn:Hb; [|done..].
    rewrite bind_Done, result_bind. cbn [quiet result].
    destruct (remove_runs fs1 runs) as [fs2| |]; [|done..]. rewrite bind_Done.
    apply merge_batches_result_length in Hb.
    destruct (decide (K = 1)) as [->|HK1].
    + assert (length starts = length runs) as Hlen.
      { rewrite py_range_positive in Hstarts by lia.
        apply (f_equal (λ o, match o with Done l => length l | _ => O end)) in Hstarts.
        rewrite length_fmap, length_seq in Hstarts.
        rewrite <- Hstarts. change (Z.to_nat 1) with 1%nat.
        rewrite Nat.div_1_r. lia. }
      apply IH. lia.
    + unfold py_range in Hstarts. destruct (Z.eqb_spec K 0); [done|].
      destruct (Z.ltb_spec K 0); [|lia].
      injection Hstarts as <-. destruct new_runs; [|done].
      by rewrite merge_runs_loop_exit by (simpl; lia).
Qed.

End any_fan_in.

(** ** [merge_K_runs] always returns or raises

    The bound [merge_fuel] on the [while heap] loop is never reached,
    whatever the files hold: every iteration takes an entry from the heap,
    a record from a decoded block, or characters from a file. *)

Section fuel.

Implicit Types (s block : list ascii) (st : merge_state) (rd : reader).

Lemma filter_length_le {A} (p q : A → bool) (l : list A) :
  (∀ x, p x = true → q x = true) →
  (length (List.filter p l) ≤ length (List.filter q l))%nat.
Proof.
  intros H. induction l as [|x l IH]; simpl; [done|].
  destruct (p x) eqn:Hp.
  - rewrite (H x Hp). simpl. lia.
  - destruct (q x); simpl; lia.
Qed.

Lemma py_split_nonempty s : py_split s ≠ [].
Proof.
  destruct s as [|c r]; simpl; [done|].
  destruct (Ascii.eqb c newline); [done|]. by destruct (py_split r).
Qed.

Lemma py_split_truthy_length s :
  (length (List.filter truthy (py_split s)) ≤ length s)%nat.
Proof.
  induction s as [|c r IH]; simpl; [done|].
  destruct (Ascii.eqb c newline); simpl; [lia|].
  destruct (py_split r) as [|l ls]; simpl in *; [lia|].
  destruct l; simpl in *; lia.
Qed.

Lemma comprehension_length {A B} (f : A → outcome B) l ys :
  comprehension f l = Done ys → length ys = length l.
Proof.
  revert ys. induction l as [|x l IH]; intros ys; simpl.
  - by intros [= <-].
  - destruct (f x); [|done..]. rewrite bind_Done.
    destruct (comprehension f l) as [ys'| |]; [|done..]. rewrite bind_Done.
    intros [= <-]. simpl. by rewrite (IH ys').
Qed.

(** A block holds at most as many numbers as characters. *)
Lemma decode_block_length block lines :
  decode_block block = Done lines → (length lines ≤ length block)%nat.
Proof.
  unfold decode_block. intros H. apply comprehension_length in H. rewrite H.
  etrans; [|apply py_split_truthy_length].
  apply filter_length_le. intros line. by destruct line.
Qed.

Lemma digits_value_fuel s : digits_value s ≠ OutOfFuel.
Proof. unfold digits_value. by repeat case_match. Qed.

Lemma py_int_fuel s : py_int s ≠ OutOfFuel.
Proof.
  unfold py_int. destruct (py_strip s) as [|c r]; [done|].
  destruct (Ascii.eqb c "-").
  - pose proof (digits_value_fuel r). by destruct (digits_value r).
  - destruct (Ascii.eqb c "+"); apply digits_value_fuel.
Qed.

Lemma comprehension_fuel {A B} (f : A → outcome B) l :
  (∀ x, f x ≠ OutOfFuel) → comprehension f l ≠ OutOfFuel.
Proof.
  intros H. induction l as [|x l IH]; simpl; [done|].
  specialize (H x). destruct (f x); [|done..]. rewrite bind_Done.
  by destruct (comprehension f l).
Qed.

Lemma decode_block_fuel block : decode_block block ≠ OutOfFuel.
Proof. apply comprehension_fuel, py_int_fuel. Qed.

(** A pull moves the cursor forward by the length of the block. *)
Lemma read_blocks_next_unread block_size rd block rd' :
  read_blocks_next block_size rd = Some (block, rd') →
  (unread rd' + length block ≤ unread rd)%nat.
Proof.
  unfold read_blocks_next, unread.
  assert (length (file_read rd block_size) ≤ length (content rd) - cursor rd)%nat as Hraw.
  { unfold file_read. destruct (block_size <? 0).
    - by rewrite length_drop.
    - rewrite length_take, length_drop. lia. }
  remember (file_read rd block_size) as raw eqn:Eraw. clear Eraw.
  destruct (truthy raw) eqn:Ht; [|done].
  assert (0 < length raw)%nat as Hpos by (destruct raw; [done|simpl; lia]).
  destruct (ends_with_newline raw).
  - intros H. inversion H; subst; clear H. simpl. lia.
  - intros H. inversion H; subst; clear H. simpl.
    pose proof (py_rfind_range raw) as Hr. rewrite length_take. lia.
Qed.

Lemma sum_list_insert {A} (f : A → nat) (l : list A) i x y :
  l !! i = Some y →
  (sum_list (f <$> <[i := x]> l) + f y = sum_list (f <$> l) + f x)%nat.
Proof.
  revert i. induction l as [|z l IH]; intros [|i] Hi; simpl in *; [done..| |].
  - inversion Hi; subst. lia.
  - specialize (IH i Hi). unfold fmap in *. lia.
Qed.

Lemma merge_loop_fuel block_size fuel st :
  (length (heap st) + sum_list (length <$> current_blocks st)
   + sum_list (unread <$> readers st) < fuel)%nat →
  merge_loop fuel block_size st ≠ OutOfFuel.
Proof.
  revert st. induction fuel as [|fuel IH]; intros st Hfuel; [lia|].
  simpl. destruct (heap st) as [|[v i] popped] eqn:Hheap; [done|].
  simpl in Hfuel.
  assert (∀ o : outcome (list (Z * nat)),
            o ≠ OutOfFuel → (o ≫= λ rest, Done ((v, i) :: rest)) ≠ OutOfFuel) as Hbind.
  { by intros [| |]. }
  apply Hbind.
  destruct (current_blocks st !! i) as [[|number others]|] eqn:Hq; [| |done].
  - destruct (readers st !! i) as [rd|] eqn:Hrd; [|done].
    destruct (read_blocks_next block_size rd) as [[new_block rd']|] eqn:Hnext.
    + pose proof (decode_block_fuel new_block) as Hdec.
      destruct (decode_block new_block) as [lines| |] eqn:Hlines; [|done..].
      rewrite bind_Done. destruct lines as [|number others]; [done|].
      apply IH. simpl. rewrite heappush_length.
      apply decode_block_length in Hlines. simpl in Hlines.
      apply read_blocks_next_unread in Hnext.
      pose proof (sum_list_insert length (current_blocks st) i others [] Hq).
      pose proof (sum_list_insert unread (readers st) i rd' rd Hrd).
      simpl in *. lia.
    + apply IH. simpl. lia.
  - apply IH. simpl. rewrite heappush_length.
    pose proof (sum_list_insert length (current_blocks st) i others (number :: others) Hq).
    simpl in *. lia.
Qed.

Lemma seed_heap_fuel fs block_size run_files index st :
  seed_heap fs block_size run_files index st ≠ OutOfFuel.
Proof.
  revert index st. induction run_files as [|run_file rest IH]; intros index st; simpl; [done|].
  destruct (fs !! run_file); [|done].
  destruct (read_blocks_next _ _) as [[block rd]|]; [|done].
  pose proof (decode_block_fuel block) as Hdec.
  destruct (decode_block block) as [[|number others]| |]; [done| |done..].
  rewrite bind_Done. apply IH.
Qed.

(** The merger never runs out of fuel. *)
Lemma merge_K_runs_fuel fs run_files block_size identifier :
  merge_K_runs fs run_files block_size identifier ≠ OutOfFuel.
Proof.
  unfold merge_K_runs.
  pose proof (seed_heap_fuel fs block_size run_files 0 empty_state) as Hseed.
  destruct (seed_heap _ _ _ _ _) as [st| |]; [|done..]. rewrite bind_Done.
  pose proof (merge_loop_fuel block_size (merge_fuel st) st) as Hloop.
  destruct (merge_loop _ _ _) as [written| |]; [done..|].
  exfalso. apply Hloop; [|done]. unfold merge_fuel. lia.
Qed.

End fuel.

(** * The claims *)

Section pipeline.

Implicit Types (fs : gmap (list ascii) (list ascii)) (lines : list (list ascii)).
Implicit Types (zs run : list Z) (chunks : list (list Z)).

Lemma quiet_bind {A B} (a : A) (f : A → traced B) : (quiet (Done a) ≫= f) = f a.
Proof. unfold mbind, traced_bind, quiet. simpl. by destruct (f a). Qed.

Lemma concat_py_sort chunks : concat (py_sort <$> chunks) ≡ₚ concat chunks.
Proof.
  induction chunks as [|run chunks IH]; simpl; [done|].
  by rewrite IH, py_sort_perm.
Qed.

Lemma concat_length_nonempty {A} (l : list (list A)) :
  Forall (λ x, x ≠ []) l → (length l ≤ length (concat l))%nat.
Proof.
  induction 1 as [|x l Hx _ IH]; simpl; [done|].
  rewrite length_app. destruct x; [done|simpl; lia].
Qed.

Lemma write_lines_concat chunks :
  concat (write_lines <$> chunks) = write_lines (concat chunks).
Proof.
  induction chunks as [|run chunks IH]; [done|].
  rewrite fmap_cons. cbn [concat]. by rewrite IH, write_lines_app.
Qed.

(** Run generation on an input that parses. *)
Lemma generate_runs_spec fs lines zs memory_limit :
  input_records lines zs →
  ∃ chunks fs',
    read_numbers_and_divide lines memory_limit = Done chunks
    ∧ concat chunks = zs
    ∧ Forall (λ chunk, chunk ≠ [] ∧ within_budget memory_limit chunk) chunks
    ∧ generate_runs fs lines memory_limit
      = Done (fs', run_names 1 (length chunks))
    ∧ holds_runs fs' (run_names 1 (length chunks)) (py_sort <$> chunks).
Proof.
  intros Hin.
  destruct (read_numbers_and_divide_from_spec lines memory_limit [] 0 zs Hin)
    as (chunks & Hchunks & Hcat & Hall); [done|by left|].
  destruct (generate_runs_from_spec fs chunks 1 []) as (fs' & Hgen & Hfiles & _).
  exists chunks, fs'. unfold generate_runs, read_numbers_and_divide.
  rewrite Hchunks, bind_Done, Hgen. done.
Qed.

End pipeline.

(** C5. For every input stream and memory budget B, the runs that the Run
    Generator produces partition the input records in order (every record
    is in exactly one run), no run is empty, every run takes at most B
    bytes at [NUMBER_SIZE] bytes per record unless it is a single record
    and B is below one record, and the file of every run holds its records
    in ascending order. *)
Theorem generate_runs_bounded (fs : gmap (list ascii) (list ascii))
    (lines : list (list ascii)) (zs : list Z) (memory_limit : Z) :
  input_records lines zs →
  ∃ chunks fs' names,
    read_numbers_and_divide lines memory_limit = Done chunks
    ∧ concat chunks = zs
    ∧ Forall (λ chunk, chunk ≠ [] ∧ within_budget memory_limit chunk) chunks
    ∧ generate_runs fs lines memory_limit = Done (fs', names)
    ∧ NoDup names
    ∧ Forall2 (λ name chunk,
         ∃ run, fs' !! name = Some (write_lines run)
                ∧ StronglySorted Z.le run ∧ run ≡ₚ chunk) names chunks.
Proof.
  intros Hin.
  destruct (generate_runs_spec fs lines zs memory_limit Hin)
    as (chunks & fs' & Hchunks & Hcat & Hall & Hgen & Hfiles).
  exists chunks, fs', (run_names 1 (length chunks)).
  split_and!; [done..|apply run_names_NoDup|].
  unfold holds_runs in Hfiles. apply Forall2_fmap_r in Hfiles.
  eapply Forall2_impl; [exact Hfiles|]. intros name chunk Hname.
  exists (py_sort chunk). split_and!; [done|apply py_sort_sorted|apply py_sort_perm].
Qed.

Lemma generate_runs_bounded_witness :
  ∃ chunks fs' names,
    read_numbers_and_divide (lit <$> ["5"; " 3 "; "+8"; "-1"; "1_0"; "2"]%string) 80
    = Done chunks
    ∧ concat chunks = [5; 3; 8; -1; 10; 2]
    ∧ Forall (λ chunk, chunk ≠ [] ∧ within_budget 80 chunk) chunks
    ∧ generate_runs ∅ (lit <$> ["5"; " 3 "; "+8"; "-1"; "1_0"; "2"]%string) 80
      = Done (fs', names)
    ∧ NoDup names
    ∧ Forall2 (λ name chunk,
         ∃ run, fs' !! name = Some (write_lines run)
                ∧ StronglySorted Z.le run ∧ run ≡ₚ chunk) names chunks.
Proof.
  apply (generate_runs_bounded ∅ (lit <$> ["5"; " 3 "; "+8"; "-1"; "1_0"; "2"]%string)
           [5; 3; 8; -1; 10; 2] 80).
  vm_compute. reflexivity.
Defined.

Section single_run.

Implicit Types (fs : gmap (list ascii) (list ascii)) (lines : list (list ascii)).

(** When generation yields one run, the scheduler renames its file and
    does nothing else. *)
Lemma external_merge_sort_single_run fuel fs lines run memory_limit block_size :
  read_numbers_and_divide lines (memory_limit / 3) = Done [run] →
  block_size ≠ 0 →
  external_merge_sort fuel fs lines memory_limit block_size
  = Traced [] (Done (<[output_path := write_lines (py_sort run)]>
                       (delete (run_filename 1)
                          (<[run_filename 1 := write_lines (py_sort run)]> fs)))).
Proof.
  intros Hgen Hbs. unfold external_merge_sort, generate_runs. cbv zeta.
  rewrite Hgen, bind_Done. cbn [generate_runs_from create_run_file app].
  rewrite quiet_bind. unfold merge_runs.
  destruct (Z.eqb_spec block_size 0); [done|].
  rewrite merge_runs_loop_exit by (simpl; lia).
  unfold os_rename, quiet. by rewrite lookup_insert_eq.
Qed.

End single_run.

(** C7. If the input is already sorted and run generation produces a
    single run, the scheduler performs no merge pass and calls no merger
    (the trace is empty): the file of the run is renamed to the output,
    and the output holds the input record sequence. *)
Theorem sorted_single_run_is_renamed (fuel : nat) (fs : gmap (list ascii) (list ascii))
    (lines : list (list ascii)) (zs run : list Z) (memory_limit block_size : Z) :
  input_records lines zs →
  Sorted Z.le zs →
  read_numbers_and_divide lines (memory_limit / 3) = Done [run] →
  block_size ≠ 0 →
  external_merge_sort fuel fs lines memory_limit block_size
  = Traced [] (os_rename (<[run_filename 1 := write_lines zs]> fs)
                 (run_filename 1) output_path)
  ∧ ∃ fs',
      result (external_merge_sort fuel fs lines memory_limit block_size) = Done fs'
      ∧ fs' !! output_path = Some (write_lines zs)
      ∧ decode_block (write_lines zs) = Done zs.
Proof.
  intros Hin Hsorted Hgen Hbs.
  destruct (read_numbers_and_divide_from_spec lines (memory_limit / 3) [] 0 zs Hin)
    as (chunks & Hchunks & Hcat & _); [done|by left|].
  unfold read_numbers_and_divide in Hgen. rewrite Hgen in Hchunks.
  injection Hchunks as <-. simpl in Hcat. rewrite app_nil_r in Hcat. subst run.
  rewrite (external_merge_sort_single_run fuel fs lines zs) by done.
  rewrite py_sort_id by (by apply Sorted_StronglySorted; [apply _|]).
  split.
  - unfold os_rename. by rewrite lookup_insert_eq.
  - eexists. split_and!; [done|apply lookup_insert_eq|apply decode_write_lines].
Qed.

Lemma sorted_single_run_is_renamed_witness :
  external_merge_sort 0 ∅ (lit <$> ["1"; "2"; "2"; "7"]%string) 480 512
  = Traced [] (os_rename (<[run_filename 1 := write_lines [1; 2; 2; 7]]> ∅)
                 (run_filename 1) output_path)
  ∧ ∃ fs',
      result (external_merge_sort 0 ∅ (lit <$> ["1"; "2"; "2"; "7"]%string) 480 512)
      = Done fs'
      ∧ fs' !! output_path = Some (write_lines [1; 2; 2; 7])
      ∧ decode_block (write_lines [1; 2; 2; 7]) = Done [1; 2; 2; 7].
Proof.
  apply (sorted_single_run_is_renamed 0 ∅ (lit <$> ["1"; "2"; "2"; "7"]%string)
           [1; 2; 2; 7] [1; 2; 2; 7] 480 512).
  - vm_compute. reflexivity.
  - repeat constructor; lia.
  - vm_compute. reflexivity.
  - lia.
Defined.

(** C2. On the empty input, run generation yields no run; the scheduler
    then performs no merge pass and raises [IndexError] at [runs[0]]
    ([ZeroDivisionError] when the block size is zero): there is no empty
    output file. *)
Theorem empty_input_raises (fuel : nat) (fs : gmap (list ascii) (list ascii))
    (memory_limit block_size : Z) :
  generate_runs fs [] (memory_limit / 3) = Done (fs, [])
  ∧ external_merge_sort fuel fs [] memory_limit block_size
    = Traced [] (Raise (if block_size =? 0 then ZeroDivisionError else IndexError)).
Proof.
  split; [done|]. unfold external_merge_sort, generate_runs. cbv zeta.
  cbn [read_numbers_and_divide read_numbers_and_divide_from truthy].
  rewrite bind_Done. cbn [generate_runs_from]. rewrite quiet_bind.
  unfold merge_runs. destruct (block_size =? 0); [done|].
  by rewrite merge_runs_loop_exit by (simpl; lia).
Qed.

(** C1, as stated, fails: with a memory budget of 240 bytes and blocks of
    4 bytes the input 1000, 1, 2 makes two runs, the reader cannot get
    past the line of 1000, and the sort raises [IndexError] instead of
    writing an output (with no fuel for a pass the model stops earlier). *)
Lemma external_merge_sort_sorts_counterexample :
  input_records (write_line <$> [1000; 1; 2]) [1000; 1; 2]
  ∧ ∀ fuel,
      result (external_merge_sort fuel ∅ (write_line <$> [1000; 1; 2]) 240 4)
      = match fuel with O => OutOfFuel | S _ => Raise IndexError end.
Proof.
  split; [vm_compute; reflexivity|].
  intros [|fuel]; vm_compute; reflexivity.
Qed.

(** C1, amended. For every non-empty input record sequence, with a block
    size other than zero, and provided that either run generation yields
    a single run or the block size is positive, the fan-in
    [memory_limit / block_size] is at least two and the line of every
    record fits a block: [external_merge_sort] ends, and the output file
    holds the input records, each once, in ascending order. *)
Theorem external_merge_sort_sorts (fuel : nat) (fs : gmap (list ascii) (list ascii))
    (lines : list (list ascii)) (zs : list Z) (memory_limit block_size : Z) :
  input_records lines zs →
  zs ≠ [] →
  block_size ≠ 0 →
  (∃ run, read_numbers_and_divide lines (memory_limit / 3) = Done [run])
  ∨ (0 < block_size ∧ 2 ≤ memory_limit / block_size ∧ Forall (fits block_size) zs) →
  (length zs ≤ S fuel)%nat →
  ∃ fs' out,
    result (external_merge_sort fuel fs lines memory_limit block_size) = Done fs'
    ∧ fs' !! output_path = Some (write_lines out)
    ∧ decode_block (write_lines out) = Done out
    ∧ StronglySorted Z.le out
    ∧ out ≡ₚ zs.
Proof.
  intros Hin Hne Hbs Hcase Hfuel.
  destruct (generate_runs_spec fs lines zs (memory_limit / 3) Hin)
    as (chunks & fs1 & Hchunks & Hcat & Hall & Hgen & Hfiles).
  destruct Hcase as [[run Hrun]|(Hpos & HK & Hfit)].
  - rewrite Hrun in Hchunks. injection Hchunks as <-.
    simpl in Hcat. rewrite app_nil_r in Hcat. subst run.
    rewrite (external_merge_sort_single_run fuel fs lines zs) by done.
    eexists _, (py_sort zs). cbn [result].
    split_and!; [done|apply lookup_insert_eq|apply decode_write_lines
                 |apply py_sort_sorted|apply py_sort_perm].
  - assert (frontier block_size fs1 (run_names 1 (length chunks))
              (py_sort <$> chunks) 1) as Hfr.
    { split; [done| |apply run_names_NoDup|apply run_names_fresh].
      apply Forall_fmap. rewrite <- Hcat in Hfit.
      rewrite Forall_concat in Hfit.
      apply Forall_forall. intros chunk Hchunk.
      rewrite Forall_forall in Hall, Hfit.
      apply py_sort_good; [by apply Hall|by apply Hfit]. }
    assert (Forall (λ chunk, chunk ≠ []) chunks) as Hne'.
    { eapply Forall_impl; [exact Hall|]. by intros chunk [? _]. }
    pose proof (concat_length_nonempty chunks Hne') as Hlen. rewrite Hcat in Hlen.
    destruct (merge_runs_loop_sorts fuel fs1 (run_names 1 (length chunks))
                (py_sort <$> chunks) output_path (memory_limit / block_size)
                block_size 1 Hpos HK) as (fs' & out & Hres & Hout & Hsorted & Hperm).
    + destruct chunks; [by subst zs|done].
    + done.
    + rewrite run_names_length. lia.
    + exists fs', out. unfold external_merge_sort. cbv zeta.
      rewrite Hgen, quiet_bind. unfold merge_runs.
      destruct (Z.eqb_spec block_size 0); [done|].
      split_and!; [done|done|apply decode_write_lines|done|].
      by rewrite Hperm, concat_py_sort, Hcat.
Qed.

Lemma external_merge_sort_sorts_witness :
  ∃ fs' out,
    result (external_merge_sort 6 ∅ (write_line <$> [5; 3; 8; 1; 9; 2; -7]) 240 120)
    = Done fs'
    ∧ fs' !! output_path = Some (write_lines out)
    ∧ decode_block (write_lines out) = Done out
    ∧ StronglySorted Z.le out
    ∧ out ≡ₚ [5; 3; 8; 1; 9; 2; -7].
Proof.
  apply (external_merge_sort_sorts 6 ∅ (write_line <$> [5; 3; 8; 1; 9; 2; -7])
           [5; 3; 8; 1; 9; 2; -7] 240 120).
  - vm_compute. reflexivity.
  - done.
  - lia.
  - right. split_and!; [lia|by vm_compute|concrete_fits].
  - simpl. lia.
Defined.

Section block_reader.

Implicit Types (records before after : list Z) (block_size : Z) (r : reader).

Lemma first_oversized block_size records :
  Exists (λ number, ¬ fits block_size number) records →
  ∃ before number after,
    records = before ++ number :: after
    ∧ Forall (fits block_size) before
    ∧ ¬ fits block_size number.
Proof.
  induction records as [|z records IH]; intros Hex; [by inversion Hex|].
  destruct (Z.le_gt_cases (Z.of_nat (length (write_line z))) block_size) as [Hz|Hz].
  - destruct IH as (before & number & after & -> & Hbefore & Hnumber).
    { inversion Hex as [? ? Hz'|]; subst; [|done]. by destruct Hz'. }
    exists (z :: before), number, after. split_and!; [done| |done]. by constructor.
  - exists [], z, records. split_and!; [done|constructor|]. unfold fits. lia.
Qed.

(** An empty block makes the seeding of [merge_K_runs] raise [IndexError]. *)
Lemma seed_heap_empty_block fs block_size run_file rest index st text rd :
  fs !! run_file = Some text →
  read_blocks_next block_size (open_run text) = Some ([], rd) →
  seed_heap fs block_size (run_file :: rest) index st = Raise IndexError.
Proof. intros Hfile Hnext. simpl. by rewrite Hfile, Hnext. Qed.

(** So does an empty block in the [while heap] loop. *)
Lemma merge_loop_empty_block fuel block_size st smallest i popped rd rd' :
  heap st = (smallest, i) :: popped →
  current_blocks st !! i = Some [] →
  readers st !! i = Some rd →
  read_blocks_next block_size rd = Some ([], rd') →
  merge_loop (S fuel) block_size st = Raise IndexError.
Proof. intros Hheap Hq Hrd Hnext. simpl. by rewrite Hheap, Hq, Hrd, Hnext. Qed.

End block_reader.

(** C3, as stated, fails: with blocks of 3 bytes and the run 7, 123456
    the reader raises nothing.  Its first pull yields the line of 7, and
    every later pull yields the empty block: the generator never ends. *)
Lemma read_blocks_oversized_counterexample :
  ¬ fits 3 123456
  ∧ ∀ more,
      read_blocks (1 + more) 3 (open_run (write_lines [7; 123456]))
      = (write_lines [7] :: replicate more [], false).
Proof.
  assert (¬ fits 3 123456) as Hfit by (unfold fits; vm_compute; congruence).
  split; [done|]. intros more. cbn [Nat.add read_blocks].
  assert (read_blocks_next 3 (open_run (write_lines [7; 123456]))
          = Some (write_lines [7], advance (open_run (write_lines [7; 123456])) 2)) as ->
    by (vm_compute; reflexivity).
  by rewrite (read_blocks_stalled 3 _ 123456 [] more).
Qed.

(** C3, amended. For every run containing a record whose line, newline
    included, exceeds the block size S, the Block Reader raises no error
    of its own (the program has no [OversizedRecordError]) and never cuts
    a record: the blocks it yields hold whole records only, namely the
    records before the first record that does not fit.

    The theorem also says what happens then: every further pull yields the
    empty block and leaves the cursor where it is, so the generator never
    ends, and a merger that pulls such a block raises [IndexError], in its
    seeding phase (when the first record of the run is the one that does
    not fit) as in its loop. *)
Theorem read_blocks_oversized (records : list Z) (block_size : Z) :
  0 < block_size →
  Exists (λ number, ¬ fits block_size number) records →
  ∃ before number after pulls chunks,
    records = before ++ number :: after
    ∧ Forall (fits block_size) before
    ∧ ¬ fits block_size number
    ∧ concat chunks = before
    ∧ (∀ more,
         read_blocks (pulls + more) block_size (open_run (write_lines records))
         = ((write_lines <$> chunks) ++ replicate more [], false))
    ∧ (∀ r, at_boundary r (number :: after) →
         read_blocks_next block_size r = Some ([], r)
         ∧ ∀ fuel st smallest i popped,
             heap st = (smallest, i) :: popped →
             current_blocks st !! i = Some [] →
             readers st !! i = Some r →
             merge_loop (S fuel) block_size st = Raise IndexError)
    ∧ (before = [] →
       ∀ fs run_file rest index st,
         fs !! run_file = Some (write_lines records) →
         seed_heap fs block_size (run_file :: rest) index st = Raise IndexError).
Proof.
  intros Hbs Hex.
  destruct (first_oversized block_size records Hex)
    as (before & number & after & -> & Hbefore & Hnumber).
  destruct (read_blocks_until_oversized block_size
              (open_run (write_lines (before ++ number :: after)))
              before number after Hbs) as (pulls & chunks & Hcat & Hpulls);
    [done..|].
  exists before, number, after, pulls, chunks.
  split_and!; [done..| |].
  - intros r Hr.
    pose proof (read_blocks_next_oversized _ _ _ _ Hbs Hr Hnumber) as Hnext.
    split; [done|]. intros fuel st smallest i popped Hheap Hq Hrd.
    by eapply merge_loop_empty_block.
  - intros -> fs run_file rest index st Hfile.
    eapply seed_heap_empty_block; [done|].
    by apply (read_blocks_next_oversized _ _ number after).
Qed.

Lemma read_blocks_oversized_witness :
  ∃ before number after pulls chunks,
    [12; 5; 123456; 9] = before ++ number :: after
    ∧ Forall (fits 4) before
    ∧ ¬ fits 4 number
    ∧ concat chunks = before
    ∧ (∀ more,
         read_blocks (pulls + more) 4 (open_run (write_lines [12; 5; 123456; 9]))
         = ((write_lines <$> chunks) ++ replicate more [], false))
    ∧ (∀ r, at_boundary r (number :: after) →
         read_blocks_next 4 r = Some ([], r)
         ∧ ∀ fuel st smallest i popped,
             heap st = (smallest, i) :: popped →
             current_blocks st !! i = Some [] →
             readers st !! i = Some r →
             merge_loop (S fuel) 4 st = Raise IndexError)
    ∧ (before = [] →
       ∀ fs run_file rest index st,
         fs !! run_file = Some (write_lines [12; 5; 123456; 9]) →
         seed_heap fs 4 (run_file :: rest) index st = Raise IndexError).
Proof.
  apply (read_blocks_oversized [12; 5; 123456; 9] 4).
  - lia.
  - do 2 apply Exists_cons_tl. apply Exists_cons_hd.
    unfold fits. vm_compute. congruence.
Defined.

(** C4, as stated, fails: with blocks of 4 bytes and the run 1000 every
    block that the reader yields is empty and the generator never ends,
    so the blocks never give the run back. *)
Lemma read_blocks_integrity_counterexample :
  0 < 4
  ∧ ∀ pulls,
      read_blocks pulls 4 (open_run (write_lines [1000])) = (replicate pulls [], false).
Proof.
  split; [lia|]. intros pulls. apply (read_blocks_stalled 4 _ 1000 []); [lia|done|].
  unfold fits. vm_compute. congruence.
Qed.

(** C4, amended. For any run file and any block size S > 0: the raw read
    of a pull is at most S bytes; a pull at a record boundary yields whole
    records only and leaves the cursor right after the last of them (a
    read that ends inside a record is taken back to the record boundary),
    so the blocks of any number of pulls are, put together, the first
    records of the run; and, provided the line of every record, newline
    included, is at most S bytes long, the generator ends and the blocks
    it yields, put together and decoded, are the record sequence of the
    run. *)
Theorem read_blocks_integrity (records : list Z) (block_size : Z) :
  0 < block_size →
  (∀ r, Z.of_nat (length (file_read r block_size)) ≤ block_size)
  ∧ (∀ r pending block r',
       at_boundary r pending →
       read_blocks_next block_size r = Some (block, r') →
       ∃ k, block = write_lines (take k pending)
            ∧ r' = advance r (length block)
            ∧ at_boundary r' (drop k pending))
  ∧ (∀ pulls, ∃ chunks k,
       (read_blocks pulls block_size (open_run (write_lines records))).1
       = write_lines <$> chunks
       ∧ concat chunks = take k records)
  ∧ (Forall (fits block_size) records →
     ∃ pulls chunks,
       read_blocks pulls block_size (open_run (write_lines records))
       = (write_lines <$> chunks, true)
       ∧ Forall (λ chunk, chunk ≠ []) chunks
       ∧ concat chunks = records
       ∧ concat (write_lines <$> chunks) = write_lines records
       ∧ decode_block (concat (write_lines <$> chunks)) = Done records).
Proof.
  intros Hbs. assert (0 ≤ block_size) as Hbs0 by lia. split_and!.
  - intros r. by apply file_read_length.
  - intros r pending block r' Hb Hnext.
    rewrite (read_blocks_next_boundary _ _ _ Hbs0 Hb) in Hnext. cbv zeta in Hnext.
    destruct (truthy _); [|done]. injection Hnext as <- <-.
    eexists. split_and!; [done..|]. by apply at_boundary_advance.
  - intros pulls. by apply read_blocks_whole_records.
  - intros Hfit.
    destruct (read_blocks_complete block_size (open_run (write_lines records))
                records Hbs0) as (pulls & chunks & Hpulls & Hcat & Hne); [done..|].
    exists pulls, chunks. rewrite write_lines_concat, Hcat.
    split_and!; [done..|apply decode_write_lines].
Qed.

Lemma read_blocks_integrity_witness :
  (∀ r, Z.of_nat (length (file_read r 4)) ≤ 4)
  ∧ (∀ r pending block r',
       at_boundary r pending →
       read_blocks_next 4 r = Some (block, r') →
       ∃ k, block = write_lines (take k pending)
            ∧ r' = advance r (length block)
            ∧ at_boundary r' (drop k pending))
  ∧ (∀ pulls, ∃ chunks k,
       (read_blocks pulls 4 (open_run (write_lines [12; 5; -7; 100]))).1
       = write_lines <$> chunks
       ∧ concat chunks = take k [12; 5; -7; 100])
  ∧ (∃ pulls chunks,
       read_blocks pulls 4 (open_run (write_lines [12; 5; -7; 100]))
       = (write_lines <$> chunks, true)
       ∧ Forall (λ chunk, chunk ≠ []) chunks
       ∧ concat chunks = [12; 5; -7; 100]
       ∧ concat (write_lines <$> chunks) = write_lines [12; 5; -7; 100]
       ∧ decode_block (concat (write_lines <$> chunks)) = Done [12; 5; -7; 100]).
Proof.
  destruct (read_blocks_integrity [12; 5; -7; 100] 4)
    as (Hraw & Hwhole & Hblocks & Hall); [lia|].
  split_and!; [exact Hraw|exact Hwhole|exact Hblocks|].
  apply Hall. concrete_fits.
Defined.

Section fan_in.

Implicit Types (fs : gmap (list ascii) (list ascii)) (names : list (list ascii)).

Lemma merge_runs_trace fuel fs names out memory_limit block_size batch identifier :
  MergeCall batch identifier ∈ trace (merge_runs fuel fs names out memory_limit block_size) →
  block_size ≠ 0 ∧ 1 ≤ Z.of_nat (length batch) ≤ memory_limit / block_size.
Proof.
  unfold merge_runs. destruct (Z.eqb_spec block_size 0).
  - by intros ?%elem_of_nil.
  - intros Hin. split; [done|]. by eapply merge_runs_loop_trace.
Qed.

End fan_in.

Lemma external_merge_sort_trace (fuel : nat) (fs : gmap (list ascii) (list ascii))
    (lines : list (list ascii)) (memory_limit block_size : Z) batch identifier :
  MergeCall batch identifier
    ∈ trace (external_merge_sort fuel fs lines memory_limit block_size) →
  block_size ≠ 0 ∧ 1 ≤ Z.of_nat (length batch) ≤ memory_limit / block_size.
Proof.
  unfold external_merge_sort. cbv zeta.
  rewrite trace_bind. cbn [quiet trace result app].
  destruct (generate_runs _ _ _) as [[fs1 runs]| |];
    [|by intros ?%elem_of_nil..].
  apply merge_runs_trace.
Qed.

(** C6. Run generation is given one third of the memory budget, and the
    scheduler is given the whole budget: its fan-in is
    K = memory_limit / block_size by integer division, and every call of
    the K-Way Merger gets at least one and at most K runs. *)
Theorem fan_in_bound (fuel : nat) (fs : gmap (list ascii) (list ascii))
    (lines : list (list ascii)) (memory_limit block_size : Z) :
  result (external_merge_sort fuel fs lines memory_limit block_size)
  = (generate_runs fs lines (memory_limit / 3) ≫= λ '(fs1, runs),
     result (merge_runs fuel fs1 runs output_path memory_limit block_size))
  ∧ (∀ fs1 runs,
       merge_runs fuel fs1 runs output_path memory_limit block_size
       = if block_size =? 0 then quiet (Raise ZeroDivisionError)
         else merge_runs_loop fuel fs1 runs output_path
                (memory_limit / block_size) block_size 1)
  ∧ (∀ zs, input_records lines zs →
       ∃ chunks,
         read_numbers_and_divide lines (memory_limit / 3) = Done chunks
         ∧ Forall (within_budget (memory_limit / 3)) chunks)
  ∧ ∀ batch identifier,
      MergeCall batch identifier
        ∈ trace (external_merge_sort fuel fs lines memory_limit block_size) →
      block_size ≠ 0
      ∧ 1 ≤ Z.of_nat (length batch) ≤ memory_limit / block_size.
Proof.
  split_and!.
  - unfold external_merge_sort. cbv zeta. rewrite result_bind. cbn [quiet result].
    destruct (generate_runs _ _ _) as [[fs1 runs]| |]; done.
  - done.
  - intros zs Hin.
    destruct (generate_runs_spec fs lines zs (memory_limit / 3) Hin)
      as (chunks & _ & Hchunks & _ & Hall & _).
    exists chunks. split; [done|].
    eapply Forall_impl; [exact Hall|]. by intros chunk [_ ?].
  - intros batch identifier. apply external_merge_sort_trace.
Qed.

(** C8. The K-Way Merger is deterministic.  Heap entries compare first by
    record value and then by run index, and for sorted input runs whose
    records fit the block, merged into a file that is none of the run
    files, the entries leave the heap in exactly that order: the sequence
    of (value, run index) pairs written is the sorted list of all pairs
    of the input runs, so equal values coming from different runs are
    written by increasing run index, and the output file holds the values
    in that order. *)
Theorem merge_K_runs_deterministic (fs : gmap (list ascii) (list ascii))
    (names : list (list ascii)) (runs : list (list Z)) (block_size : Z)
    (identifier : list ascii) :
  0 < block_size →
  holds_runs fs names runs →
  Forall (good_run block_size) runs →
  merged_filename identifier ∉ names →
  (∀ a b : Z * nat,
     entry_le a b = true ↔ a.1 < b.1 ∨ (a.1 = b.1 ∧ (a.2 ≤ b.2)%nat))
  ∧ ∃ st written,
      seed_heap fs block_size names 0 empty_state = Done st
      ∧ merge_loop (merge_fuel st) block_size st = Done written
      ∧ written = merge_sort lex (tag_runs 0 runs)
      ∧ StronglySorted lex written
      ∧ (∀ p q v i j,
           (p < q)%nat → written !! p = Some (v, i) → written !! q = Some (v, j) →
           (i ≤ j)%nat)
      ∧ merge_K_runs fs names block_size identifier
        = Done (<[merged_filename identifier := write_lines written.*1]> fs,
                merged_filename identifier).
Proof.
  intros Hbs Hfiles Hgood _. split; [apply lex_spec|].
  destruct (merge_K_runs_entries fs names runs block_size identifier Hbs Hfiles Hgood)
    as (st & written & Hseed & Hloop & Hperm & Hsorted & Hout).
  exists st, written. split_and!; [done..| |done| |done].
  - apply (StronglySorted_unique lex); [done| |].
    + apply StronglySorted_merge_sort; apply _.
    + by rewrite merge_sort_Permutation.
  - intros p q v i j Hpq Hp Hq.
    assert (lex (v, i) (v, j)) as Hlex.
    { clear -Hsorted Hpq Hp Hq. revert p q Hpq Hp Hq.
      induction Hsorted as [|e l _ IH Hall]; intros p q Hpq Hp Hq; [done|].
      destruct p as [|p], q as [|q]; try lia; simpl in *.
      - injection Hp as ->. rewrite Forall_forall in Hall. apply Hall.
        by eapply list_elem_of_lookup_2.
      - apply (IH p q); [lia|done..]. }
    apply lex_spec in Hlex. simpl in Hlex. lia.
Qed.

Lemma merge_K_runs_deterministic_witness :
  (∀ a b : Z * nat,
     entry_le a b = true ↔ a.1 < b.1 ∨ (a.1 = b.1 ∧ (a.2 ≤ b.2)%nat))
  ∧ ∃ st written,
      seed_heap (<[lit "b" := write_lines [7]]> (<[lit "a" := write_lines [5; 7; 7]]> ∅))
        4 [lit "a"; lit "b"] 0 empty_state = Done st
      ∧ merge_loop (merge_fuel st) 4 st = Done written
      ∧ written = merge_sort lex (tag_runs 0 [[5; 7; 7]; [7]])
      ∧ StronglySorted lex written
      ∧ (∀ p q v i j,
           (p < q)%nat → written !! p = Some (v, i) → written !! q = Some (v, j) →
           (i ≤ j)%nat)
      ∧ merge_K_runs (<[lit "b" := write_lines [7]]> (<[lit "a" := write_lines [5; 7; 7]]> ∅))
          [lit "a"; lit "b"] 4 (lit "1_1")
        = Done (<[merged_filename (lit "1_1") := write_lines written.*1]>
                  (<[lit "b" := write_lines [7]]> (<[lit "a" := write_lines [5; 7; 7]]> ∅)),
                merged_filename (lit "1_1")).
Proof.
  apply (merge_K_runs_deterministic
           (<[lit "b" := write_lines [7]]> (<[lit "a" := write_lines [5; 7; 7]]> ∅))
           [lit "a"; lit "b"] [[5; 7; 7]; [7]] 4 (lit "1_1")).
  - lia.
  - repeat constructor.
  - concrete_fits.
  - apply (bool_decide_unpack _). by vm_compute.
Defined.

(** C9. For every run list with at least two runs the scheduler ends with
    a result only when K = memory_limit / block_size is at least two.
    With K = 0 the first pass raises [ValueError] at once (the step of
    [range] is zero).  With K = 1, on files that hold good runs, a pass
    merges every run into a copy of itself, under a new name: the
    frontier keeps its records and its size, and the loop goes on for
    ever.  With K >= 2 the loop does end on such files. *)
Theorem merge_runs_fan_in (fs : gmap (list ascii) (list ascii))
    (names : list (list ascii)) (out : list ascii) (memory_limit block_size : Z) :
  (2 ≤ length names)%nat →
  (∀ fuel fs',
     result (merge_runs fuel fs names out memory_limit block_size) = Done fs' →
     block_size ≠ 0 ∧ 2 ≤ memory_limit / block_size)
  ∧ (block_size ≠ 0 → memory_limit / block_size = 0 →
     ∀ fuel,
       merge_runs (S fuel) fs names out memory_limit block_size
       = Traced [MergePass 1] (Raise ValueError))
  ∧ (0 < block_size → memory_limit / block_size = 1 →
     ∀ runs, frontier block_size fs names runs 1 →
       (∀ fuel,
          result (merge_runs fuel fs names out memory_limit block_size) = OutOfFuel)
       ∧ ∀ fuel, ∃ fs2,
           frontier block_size fs2 (merged_names 1 0 (length names)) runs 2
           ∧ result (merge_runs (S fuel) fs names out memory_limit block_size)
             = result (merge_runs_loop fuel fs2 (merged_names 1 0 (length names))
                         out 1 block_size 2))
  ∧ (0 < block_size → 2 ≤ memory_limit / block_size →
     ∀ runs, frontier block_size fs names runs 1 →
       ∃ fs' final,
         result (merge_runs (length names) fs names out memory_limit block_size)
         = Done fs'
         ∧ fs' !! out = Some (write_lines final)
         ∧ StronglySorted Z.le final
         ∧ final ≡ₚ concat runs).
Proof.
  intros Hn. unfold merge_runs. split_and!.
  - intros fuel fs' Hres. destruct (Z.eqb_spec block_size 0); [done|].
    split; [done|].
    destruct (Z.le_gt_cases 2 (memory_limit / block_size)) as [|HK]; [done|].
    exfalso. by eapply (merge_runs_loop_fan_in fuel fs names out
                          (memory_limit / block_size) block_size 1 fs' Hn); [lia|].
  - intros Hbs HK fuel. destruct (Z.eqb_spec block_size 0); [done|].
    rewrite HK, merge_runs_loop_pass by done. done.
  - intros Hbs HK runs Hfr. destruct (Z.eqb_spec block_size 0); [lia|].
    rewrite HK. split.
    + intros fuel. by eapply merge_runs_loop_forever.
    + intros fuel.
      destruct (merge_runs_loop_step fuel fs names runs out 1 block_size 1
                  Hbs ltac:(lia) Hn Hfr) as (fs2 & Hfr' & Hres).
      change (Z.to_nat 1) with 1%nat in *.
      replace ((length names + 1 - 1) / 1)%nat with (length names) in *
        by (rewrite Nat.div_1_r; lia).
      exists fs2. split; [|done].
      destruct Hfr as [Hfiles Hgood _ _].
      rewrite (holds_runs_length _ _ _ Hfiles) in Hfr' at 2.
      rewrite merge_pass_runs_1 in Hfr'; [done|].
      eapply Forall_impl; [exact Hgood|]. by intros run (_ & ? & _).
  - intros Hbs HK runs Hfr. destruct (Z.eqb_spec block_size 0); [lia|].
    apply (merge_runs_loop_sorts _ _ _ runs); [done..| |done|lia].
    destruct names; [simpl in Hn; lia|done].
Qed.

Lemma merge_runs_fan_in_witness :
  (∀ fuel fs',
     result (merge_runs fuel
               (<[run_filename 2 := write_lines [8]]> (<[run_filename 1 := write_lines [7]]> ∅))
               (run_names 1 2) output_path 40 40) = Done fs' →
     40 ≠ 0 ∧ 2 ≤ 40 / 40)
  ∧ (∀ fuel,
       result (merge_runs fuel
                 (<[run_filename 2 := write_lines [8]]> (<[run_filename 1 := write_lines [7]]> ∅))
                 (run_names 1 2) output_path 40 40) = OutOfFuel).
Proof.
  destruct (merge_runs_fan_in
              (<[run_filename 2 := write_lines [8]]> (<[run_filename 1 := write_lines [7]]> ∅))
              (run_names 1 2) output_path 40 40) as (Hdone & _ & Hone & _).
  { simpl. lia. }
  split; [exact Hdone|].
  apply (Hone ltac:(lia) eq_refl [[7]; [8]]). split.
  - repeat constructor.
  - concrete_fits.
  - apply run_names_NoDup.
  - apply run_names_fresh.
Defined.

Section nonempty_runs.

Implicit Types (fs : gmap (list ascii) (list ascii)) (names : list (list ascii)).
Implicit Types (runs : list (list Z)) (block_size : Z).

Lemma seed_heap_heap_length fs block_size names index st st' :
  seed_heap fs block_size names index st = Done st' →
  length (heap st') = (length (heap st) + length names)%nat.
Proof.
  revert index st. induction names as [|name names IH]; intros index st.
  - simpl. intros [= <-]. lia.
  - simpl. destruct (fs !! name); [|done].
    destruct (read_blocks_next _ _) as [[block rd]|]; [|done].
    destruct (decode_block block) as [[|number others]| |]; [done| |done..].
    rewrite bind_Done. intros H. apply IH in H. simpl in H.
    rewrite heappush_length in H. lia.
Qed.

Lemma merge_loop_nonempty fuel block_size st written :
  heap st ≠ [] →
  merge_loop fuel block_size st = Done written → written ≠ [].
Proof.
  intros Hheap. destruct fuel as [|fuel]; [done|]. simpl.
  destruct (heap st) as [|[v i] popped]; [done|].
  set (o := match current_blocks st !! i with Some _ => _ | None => _ end).
  destruct o as [rest| |]; [|done..]. rewrite bind_Done. by intros [= <-].
Qed.

(** A merge of at least one run writes at least one record. *)
Lemma merge_K_runs_nonempty fs names block_size identifier fs' output_file :
  names ≠ [] →
  merge_K_runs fs names block_size identifier = Done (fs', output_file) →
  ∃ written, written ≠ [] ∧ fs' !! output_file = Some (write_lines written).
Proof.
  intros Hne. unfold merge_K_runs.
  destruct (seed_heap _ _ _ _ _) as [st| |] eqn:Hseed; [|done..]. rewrite bind_Done.
  apply seed_heap_heap_length in Hseed.
  destruct (merge_loop _ _ _) as [written| |] eqn:Hloop; [|done..].
  rewrite bind_Done. intros H. inversion H; subst; clear H.
  apply merge_loop_nonempty in Hloop.
  - exists written.*1. split; [by destruct written|]. apply lookup_insert_eq.
  - destruct (heap st); [|done]. destruct names; [done|simpl in Hseed; lia].
Qed.

(** The seeding phase on files that hold runs with at least one record
    each: no reader is exhausted at its first pull; the first block of a
    run is empty exactly when the first record of the run does not fit. *)
Lemma seed_heap_first_records fs block_size names runs index st :
  0 < block_size →
  holds_runs fs names runs →
  Forall (λ run, run ≠ []) runs →
  seed_heap fs block_size names index st ≠ Raise StopIteration
  ∧ (Forall (λ run, ∃ number rest, run = number :: rest ∧ fits block_size number) runs →
     ∃ st', seed_heap fs block_size names index st = Done st')
  ∧ (Exists (λ run, ∃ number rest, run = number :: rest ∧ ¬ fits block_size number) runs →
     seed_heap fs block_size names index st = Raise IndexError).
Proof.
  intros Hbs Hfiles. revert index st.
  induction Hfiles as [|name run names runs Hname _ IH]; intros index st Hne.
  - simpl. split_and!; [done|by eexists|by intros ?%Exists_nil].
  - inversion Hne as [|? ? Hrun Hne']; subst.
    destruct run as [|number rest]; [done|].
    simpl. rewrite Hname.
    destruct (Z.le_gt_cases (Z.of_nat (length (write_line number))) block_size)
      as [Hfit|Hover].
    + destruct (read_blocks_next_fits block_size _ number rest
                  (at_boundary_open (number :: rest)) Hfit) as (k & _ & ->).
      rewrite decode_write_lines, bind_Done.
      set (st1 := {| readers := _; heap := _; current_blocks := _ |}).
      destruct (IH (S index) st1 Hne') as (Hstop & Hdone & Hindex).
      split_and!; [done| |].
      * intros Hall. inversion Hall; subst. by apply Hdone.
      * intros Hex. inversion Hex as [? ? Hhead|? ? Htail]; subst.
        -- destruct Hhead as (n' & r' & Heq & Hn'). injection Heq as <- <-.
           by destruct Hn'.
        -- by apply Hindex.
    + assert (¬ fits block_size number) as Hnfit by (unfold fits; lia).
      rewrite (read_blocks_next_oversized block_size _ number rest Hbs
                 (at_boundary_open (number :: rest)) Hnfit).
      split_and!; [done| |done].
      intros Hall. inversion Hall as [|? ? Hhead _]; subst.
      destruct Hhead as (n' & r' & Heq & Hn'). injection Heq as <- <-.
      by destruct Hnfit.
Qed.

End nonempty_runs.

(** C10, as stated, fails: in the pipeline itself, on the input
    1000, 2000, 3 with a budget of 240 bytes and blocks of 4 bytes, every
    run file holds at least one record, and still the seeding phase of the
    first merge pops from an empty list: the first block of the first run
    is empty, because the line of 1000 does not fit a block. *)
Lemma seed_heap_counterexample :
  match generate_runs ∅ (write_line <$> [1000; 2000; 3]) (240 / 3) with
  | Done (fs1, runs) =>
      runs = [run_filename 1; run_filename 2]
      ∧ fs1 !! run_filename 1 = Some (write_lines [1000; 2000])
      ∧ fs1 !! run_filename 2 = Some (write_lines [3])
      ∧ seed_heap fs1 4 runs 0 empty_state = Raise IndexError
  | _ => False
  end
  ∧ result (external_merge_sort 1 ∅ (write_line <$> [1000; 2000; 3]) 240 4)
    = Raise IndexError.
Proof. vm_compute. split_and!; reflexivity. Qed.

(** C10, amended. Every run file created by the Run Generator or by the
    K-Way Merger holds at least one record: the generator yields no empty
    run, the scheduler hands no empty batch to the merger, and a merge of
    a non-empty batch writes at least one record.  The seeding phase of
    the merger pulls a first block from every run and pops its first
    record without a check; on files that hold non-empty runs it never
    meets an exhausted reader, and it never pops from an empty list
    provided the first record of every run, newline included, fits the
    block size.

    The theorem also says that seeding raises [IndexError] when the first
    record of some run does not fit. *)
Theorem runs_are_nonempty :
  (∀ lines memory_limit chunks,
     read_numbers_and_divide lines memory_limit = Done chunks →
     Forall (λ chunk, chunk ≠ []) chunks)
  ∧ (∀ fuel fs lines memory_limit block_size batch identifier,
       MergeCall batch identifier
         ∈ trace (external_merge_sort fuel fs lines memory_limit block_size) →
       batch ≠ [])
  ∧ (∀ fs names block_size identifier fs' output_file,
       names ≠ [] →
       merge_K_runs fs names block_size identifier = Done (fs', output_file) →
       ∃ written, written ≠ [] ∧ fs' !! output_file = Some (write_lines written))
  ∧ (∀ fs block_size names runs index st,
       0 < block_size →
       holds_runs fs names runs →
       Forall (λ run, run ≠ []) runs →
       seed_heap fs block_size names index st ≠ Raise StopIteration
       ∧ (Forall (λ run, ∃ number rest,
                    run = number :: rest ∧ fits block_size number) runs →
          ∃ st', seed_heap fs block_size names index st = Done st')
       ∧ (Exists (λ run, ∃ number rest,
                    run = number :: rest ∧ ¬ fits block_size number) runs →
          seed_heap fs block_size names index st = Raise IndexError)).
Proof.
  split_and!.
  - intros lines memory_limit chunks.
    apply read_numbers_and_divide_from_nonempty.
  - intros fuel fs lines memory_limit block_size batch identifier Hin.
    apply external_merge_sort_trace in Hin as [_ [Hlen _]].
    intros ->. simpl in Hlen. lia.
  - intros fs names block_size identifier fs' output_file.
    apply merge_K_runs_nonempty.
  - intros fs block_size names runs index st.
    apply seed_heap_first_records.
Qed.

(** * Further properties of the code *)

(** ** [read_blocks] on a file with any content *)

Section any_file.

Implicit Types (r : reader) (s block : list ascii) (block_size : Z).

Lemma py_rfind_lookup s :
  0 ≤ py_rfind s → s !! Z.to_nat (py_rfind s) = Some newline.
Proof.
  induction s as [|c s IH]; simpl; [lia|].
  destruct (Z.leb_spec 0 (py_rfind s)) as [Hk|Hk].
  - intros _. replace (Z.to_nat (py_rfind s + 1)) with (S (Z.to_nat (py_rfind s))) by lia.
    by apply IH.
  - destruct (Ascii.eqb_spec c newline) as [->|]; [done|lia].
Qed.

Lemma py_rfind_last s : newline ∉ drop (Z.to_nat (py_rfind s + 1)) s.
Proof.
  induction s as [|c s IH]; simpl.
  - by intros ?%elem_of_nil.
  - destruct (Z.leb_spec 0 (py_rfind s)) as [Hk|Hk].
    + replace (Z.to_nat (py_rfind s + 1 + 1)) with (S (Z.to_nat (py_rfind s + 1))) by lia.
      done.
    + pose proof (py_rfind_range s) as Hrange.
      assert (py_rfind s = -1) as Heq by lia. rewrite Heq in IH. simpl in IH.
      destruct (Ascii.eqb_spec c newline) as [->|Hne]; simpl; [done|].
      by intros [?|?]%elem_of_cons.
Qed.

Lemma ends_with_newline_take s :
  0 ≤ py_rfind s → ends_with_newline (take (Z.to_nat (py_rfind s + 1)) s) = true.
Proof.
  intros Hk. pose proof (py_rfind_lookup s Hk) as Hlook.
  replace (Z.to_nat (py_rfind s + 1)) with (S (Z.to_nat (py_rfind s))) by lia.
  rewrite (take_S_r _ _ _ Hlook). apply ends_with_newline_snoc.
Qed.

(** X1.  Whatever the file holds and wherever the cursor is: the generator
    stops exactly when nothing is left to read (or nothing is asked
    for), and a block that it yields is made of all the complete lines
    of the text that was read, with the cursor left right behind them. *)
Theorem read_blocks_next_any_file (block_size : Z) (r : reader) :
  (read_blocks_next block_size r = None
   ↔ block_size = 0 ∨ drop (cursor r) (content r) = [])
  ∧ ∀ block r',
      read_blocks_next block_size r = Some (block, r') →
      content r' = content r
      ∧ cursor r' = (cursor r + length block)%nat
      ∧ (∃ rest, file_read r block_size = block ++ rest ∧ newline ∉ rest)
      ∧ block `prefix_of` drop (cursor r) (content r)
      ∧ (block = [] ∨ ends_with_newline block = true)
      ∧ (0 ≤ block_size → Z.of_nat (length block) ≤ block_size).
Proof.
  assert (file_read r block_size `prefix_of` drop (cursor r) (content r)) as Hprefix.
  { unfold file_read. cbv zeta. destruct (Z.ltb_spec block_size 0); [done|].
    apply prefix_take. }
  split.
  - unfold read_blocks_next. cbv zeta.
    destruct (file_read r block_size) as [|c read] eqn:Hread.
    + simpl. split; [intros _|done]. unfold file_read in Hread. cbv zeta in Hread.
      destruct (Z.ltb_spec block_size 0); [by right|].
      destruct (drop (cursor r) (content r)) as [|c rest]; [by right|left].
      destruct (Z.to_nat block_size) eqn:Hn; [lia|done].
    + cbn [truthy]. split.
      * by destruct (ends_with_newline (c :: read)).
      * intros [->|Hnil]; unfold file_read in Hread; cbv zeta in Hread.
        -- simpl in Hread. by rewrite take_0 in Hread.
        -- rewrite Hnil in Hread. by destruct (block_size <? 0), (Z.to_nat block_size).
  - intros block r'. unfold read_blocks_next. cbv zeta.
    pose proof (file_read_length r block_size) as Hlen.
    set (read := file_read r block_size) in *.
    destruct (truthy read) eqn:Htruthy; [|done].
    destruct (ends_with_newline read) eqn:Hends.
    + intros [= <- <-]. cbn [content cursor]. split_and!.
      * done.
      * lia.
      * exists []. rewrite app_nil_r. split; [done|]. by intros ?%elem_of_nil.
      * done.
      * by right.
      * done.
    + intros [= <- <-]. cbn [content cursor].
      pose proof (py_rfind_range read) as Hrange.
      assert (length (take (Z.to_nat (py_rfind read + 1)) read)
              = Z.to_nat (py_rfind read + 1)) as Htake.
      { rewrite length_take. lia. }
      split_and!.
      * done.
      * rewrite Htake. lia.
      * exists (drop (Z.to_nat (py_rfind read + 1)) read).
        split; [by rewrite take_drop|apply py_rfind_last].
      * etrans; [apply prefix_take|done].
      * destruct (Z.leb_spec 0 (py_rfind read)) as [Hk|Hk].
        -- right. by apply ends_with_newline_take.
        -- left. by replace (py_rfind read) with (-1) by lia.
      * intros Hbs. rewrite Htake. specialize (Hlen Hbs). lia.
Qed.

End any_file.

(** ** Input that is not a list of integers *)

Section malformed_input.

Implicit Types (fs : gmap (list ascii) (list ascii)) (lines : list (list ascii)).
Implicit Types (s line : list ascii) (run zs : list Z).

Lemma digits_value_outcome s :
  (∃ z, digits_value s = Done z) ∨ digits_value s = Raise ValueError.
Proof.
  unfold digits_value. destruct (digits_ok false s); [|by right].
  destruct (NilEmpty.uint_of_string _); [left; by eexists|by right].
Qed.

(** [int] either returns a number or raises [ValueError]. *)
Lemma py_int_outcome s : (∃ z, py_int s = Done z) ∨ py_int s = Raise ValueError.
Proof.
  unfold py_int. destruct (py_strip s) as [|c t]; [by right|].
  destruct (Ascii.eqb c "-").
  - destruct (digits_value_outcome t) as [[z ->]| ->]; [left; by eexists|by right].
  - destruct (Ascii.eqb c "+"); apply digits_value_outcome.
Qed.

Lemma read_numbers_and_divide_from_malformed lines memory_limit run bytes :
  read_numbers_and_divide_from lines memory_limit run bytes = Raise ValueError
  ↔ Exists malformed lines.
Proof.
  revert run bytes. induction lines as [|line lines IH]; intros run bytes.
  - simpl. split; [done|by intros ?%Exists_nil].
  - cbn [read_numbers_and_divide_from]. cbv zeta. rewrite Exists_cons. unfold malformed at 1.
    destruct (py_int_outcome (py_strip line)) as [[number ->]| ->].
    + rewrite bind_Done.
      match goal with |- context [read_numbers_and_divide_from lines ?m ?a ?b] =>
        specialize (IH a b);
        destruct (read_numbers_and_divide_from lines m a b) as [later|e|] end.
      * rewrite bind_Done. split; [done|]. intros [|Hbad]; [done|].
        by apply IH in Hbad.
      * rewrite bind_Raise. split.
        -- intros [= ->]. right. by apply IH.
        -- intros [|Hbad]; [done|]. apply IH in Hbad. by injection Hbad as ->.
      * rewrite bind_OutOfFuel. split; [done|]. intros [|Hbad]; [done|].
        by apply IH in Hbad.
    + rewrite bind_Raise. split; [by left|done].
Qed.

Lemma read_numbers_and_divide_from_outcome lines memory_limit run bytes :
  (∃ chunks, read_numbers_and_divide_from lines memory_limit run bytes = Done chunks)
  ∨ read_numbers_and_divide_from lines memory_limit run bytes = Raise ValueError.
Proof.
  revert run bytes. induction lines as [|line lines IH]; intros run bytes.
  - left. by eexists.
  - cbn [read_numbers_and_divide_from]. cbv zeta.
    destruct (py_int_outcome (py_strip line)) as [[number ->]| ->]; [|by right].
    rewrite bind_Done.
    match goal with |- context [read_numbers_and_divide_from lines ?m ?a ?b] =>
      destruct (IH a b) as [[later ->]| ->] end.
    + left. rewrite bind_Done. by eexists.
    + by right.
Qed.

Lemma input_records_malformed lines :
  (∃ zs, input_records lines zs) ↔ ¬ Exists malformed lines.
Proof.
  unfold input_records. induction lines as [|line lines IH].
  - split; [by intros _ ?%Exists_nil|]. intros _. by exists [].
  - rewrite Exists_cons. cbn [comprehension]. unfold malformed at 1. split.
    + intros [zs Hzs].
      destruct (py_int (py_strip line)) as [number|e|]; [|done..].
      rewrite bind_Done in Hzs. intros [|Hbad]; [done|].
      apply IH; [|done].
      destruct (comprehension _ lines) as [ys|e|]; [by exists ys|done..].
    + intros Hgood.
      destruct (py_int_outcome (py_strip line)) as [[number ->]|Hbad];
        [|destruct Hgood; by left].
      destruct (proj2 IH) as [ys ->]; [intros ?; apply Hgood; by right|].
      by eexists.
Qed.

(** X2.  The first phase fails exactly when some line of the input is not an
    integer literal, a blank line included, and it fails with
    [ValueError]; the sort then raises [ValueError] before it merges
    anything, whatever the memory limit and the block size are. *)
Theorem malformed_line_raises (fs : gmap (list ascii) (list ascii))
    (lines : list (list ascii)) :
  (∀ memory_limit,
     generate_runs fs lines memory_limit = Raise ValueError ↔ Exists malformed lines)
  ∧ (∀ memory_limit,
       (∃ written, generate_runs fs lines memory_limit = Done written)
       ↔ ∃ zs, input_records lines zs)
  ∧ (∀ line, line ∈ lines → py_strip line = [] → Exists malformed lines)
  ∧ (∀ fuel memory_limit block_size,
       Exists malformed lines →
       external_merge_sort fuel fs lines memory_limit block_size
       = Traced [] (Raise ValueError)).
Proof.
  assert (∀ memory_limit,
            generate_runs fs lines memory_limit = Raise ValueError
            ↔ Exists malformed lines) as Hbad.
  { intros memory_limit. unfold generate_runs, read_numbers_and_divide.
    rewrite <- (read_numbers_and_divide_from_malformed lines memory_limit [] 0).
    destruct (read_numbers_and_divide_from lines memory_limit [] 0);
      [rewrite bind_Done|rewrite bind_Raise|rewrite bind_OutOfFuel]. 
    all: split; intros Heq; by inversion Heq. }
  split_and!.
  - done.
  - intros memory_limit. rewrite input_records_malformed, <- (Hbad memory_limit).
    unfold generate_runs, read_numbers_and_divide.
    destruct (read_numbers_and_divide_from_outcome lines memory_limit [] 0)
      as [[chunks ->]| ->].
    + rewrite bind_Done. split; [done|]. intros _. by eexists.
    + rewrite bind_Raise. split; [by intros [? ?]|done].
  - intros line Hin Hblank. apply Exists_exists. exists line. split; [done|].
    unfold malformed, py_int. rewrite Hblank. done.
  - intros fuel memory_limit block_size Hex.
    apply (Hbad (memory_limit / 3)) in Hex.
    unfold external_merge_sort. cbv zeta. by rewrite Hex.
Qed.

End malformed_input.

(** ** The size of the runs *)

Section full_runs.

Implicit Types (lines : list (list ascii)) (run zs : list Z) (chunks : list (list Z)).

Lemma full_runs_nil capacity : full_runs capacity [].
Proof. by intros i chunk. Qed.

Lemma full_runs_last capacity run :
  1 ≤ Z.of_nat (length run) ≤ capacity → full_runs capacity [run].
Proof.
  intros Hlen [|i] chunk; simpl; [|done]. intros [= <-]. split; [done|lia].
Qed.

Lemma full_runs_cons capacity run chunks :
  Z.of_nat (length run) = capacity → 1 ≤ capacity →
  full_runs capacity chunks → full_runs capacity (run :: chunks).
Proof.
  intros Hlen Hcap Hfull [|i] chunk; simpl.
  - intros [= <-]. split; [lia|done].
  - intros Hi. destruct (Hfull i chunk Hi) as [? Hnext]. split; [done|].
    intros ?. apply Hnext. lia.
Qed.

Lemma run_capacity_flush memory_limit run :
  run ≠ [] → Z.of_nat (length run) ≤ run_capacity memory_limit →
  (memory_limit <? NUMBER_SIZE * Z.of_nat (length run) + NUMBER_SIZE) && truthy run
  = bool_decide (Z.of_nat (length run) = run_capacity memory_limit).
Proof.
  intros Hne Hlen. unfold run_capacity, NUMBER_SIZE in *.
  assert (1 ≤ Z.of_nat (length run)) by (destruct run; [done|simpl; lia]).
  replace (truthy run) with true by by destruct run.
  rewrite andb_true_r.
  pose proof (Z.div_mod memory_limit 40 ltac:(lia)) as Hdm.
  pose proof (Z.mod_pos_bound memory_limit 40 ltac:(lia)) as Hmod.
  destruct (Z.ltb_spec memory_limit (40 * Z.of_nat (length run) + 40));
    [rewrite bool_decide_eq_true_2|rewrite bool_decide_eq_false_2]; try done; lia.
Qed.

Lemma read_numbers_and_divide_from_full lines memory_limit run bytes zs :
  input_records lines zs →
  bytes = NUMBER_SIZE * Z.of_nat (length run) →
  Z.of_nat (length run) ≤ run_capacity memory_limit →
  ∃ chunks,
    read_numbers_and_divide_from lines memory_limit run bytes = Done chunks
    ∧ concat chunks = run ++ zs
    ∧ full_runs (run_capacity memory_limit) chunks.
Proof.
  assert (1 ≤ run_capacity memory_limit) as Hcap by (unfold run_capacity; lia).
  revert run bytes zs. induction lines as [|line lines IH]; intros run bytes zs Hin -> Hlen.
  - injection Hin as <-. rewrite app_nil_r. simpl.
    destruct run as [|z run]; simpl.
    + exists []. split_and!; [done..|apply full_runs_nil].
    + exists [z :: run]. split_and!; [done|simpl; by rewrite app_nil_r|].
      apply full_runs_last. simpl in *. lia.
  - apply comprehension_cons_inv in Hin as (number & ys & Hnumber & Hys & ->).
    cbn [read_numbers_and_divide_from]. cbv zeta. rewrite Hnumber, bind_Done.
    destruct (decide (run = [])) as [->|Hne].
    + rewrite andb_false_r. cbn iota.
      match goal with |- context [read_numbers_and_divide_from lines memory_limit ?a ?b] =>
        destruct (IH a b ys Hys) as (chunks & -> & Hcat & Hfull) end;
        [simpl; unfold NUMBER_SIZE; lia|simpl; lia|].
      rewrite bind_Done. by exists chunks.
    + rewrite run_capacity_flush by done. case_bool_decide as Hfull; cbn iota.
      * match goal with |- context [read_numbers_and_divide_from lines memory_limit ?a ?b] =>
          destruct (IH a b ys Hys) as (chunks & -> & Hcat & Hshape) end;
          [simpl; unfold NUMBER_SIZE; lia|simpl; lia|].
        rewrite bind_Done. exists (run :: chunks). split_and!.
        -- done.
        -- simpl. by rewrite Hcat.
        -- by apply full_runs_cons.
      * match goal with |- context [read_numbers_and_divide_from lines memory_limit ?a ?b] =>
          destruct (IH a b ys Hys) as (chunks & -> & Hcat & Hshape) end.
        -- rewrite length_app. simpl. unfold NUMBER_SIZE. lia.
        -- rewrite length_app. simpl. lia.
        -- rewrite bind_Done. exists chunks. split_and!; [done| |done].
           by rewrite Hcat, <- app_assoc.
Qed.

Lemma full_runs_count capacity chunks :
  1 ≤ capacity → full_runs capacity chunks →
  Z.of_nat (length chunks) = (Z.of_nat (length (concat chunks)) + capacity - 1) / capacity.
Proof.
  intros Hcap Hfull.
  assert (chunks = [] ∨ ∃ last : Z,
            1 ≤ last ≤ capacity
            ∧ Z.of_nat (length (concat chunks))
              = (Z.of_nat (length chunks) - 1) * capacity + last) as [->|(last & Hlast & Hlen)].
  { induction chunks as [|chunk chunks IH]; [by left|right].
    destruct (decide (chunks = [])) as [->|Hne].
    { destruct (Hfull 0%nat chunk eq_refl) as [? _].
      exists (Z.of_nat (length chunk)). simpl. rewrite app_nil_r. split; [done|lia]. }
    destruct IH as [->|(last & Hlast & Hlen)]; [|done|].
    - intros i c Hi. apply (Hfull (S i) c) in Hi as [? Hnext]. split; [done|].
      intros ?. apply Hnext. simpl. lia.
    - destruct (Hfull 0%nat chunk eq_refl) as [_ Hnext].
      exists last. split; [done|]. simpl. rewrite length_app.
      rewrite Nat2Z.inj_add, Hlen, Hnext; [lia|].
      destruct chunks; [done|simpl; lia]. }
  - simpl. symmetry. apply Z.div_small. lia.
  - rewrite Hlen.
    apply (Z.div_unique_pos _ _ _ (last - 1)); lia.
Qed.

(** X3.  The runs are cut greedily: with [c = max(1, memory_limit // 40)],
    every run but the last holds exactly [c] records and the last one
    between one and [c], so that [n] records make [ceil(n / c)] runs. *)
Theorem read_numbers_and_divide_full_runs (lines : list (list ascii)) (zs : list Z)
    (memory_limit : Z) :
  input_records lines zs →
  ∃ chunks,
    read_numbers_and_divide lines memory_limit = Done chunks
    ∧ concat chunks = zs
    ∧ full_runs (run_capacity memory_limit) chunks
    ∧ Z.of_nat (length chunks)
      = (Z.of_nat (length zs) + run_capacity memory_limit - 1)
        / run_capacity memory_limit.
Proof.
  intros Hin.
  destruct (read_numbers_and_divide_from_full lines memory_limit [] 0 zs Hin)
    as (chunks & Hres & Hcat & Hfull); [done|unfold run_capacity; simpl; lia|].
  exists chunks. simpl in Hcat. split_and!; [done..|].
  rewrite <- Hcat. apply full_runs_count; [unfold run_capacity; lia|done].
Qed.

Lemma read_numbers_and_divide_full_runs_witness :
  ∃ chunks,
    read_numbers_and_divide (write_line <$> [5; 3; 8; 1; 9; 2; -7]) 130 = Done chunks
    ∧ concat chunks = [5; 3; 8; 1; 9; 2; -7]
    ∧ full_runs (run_capacity 130) chunks
    ∧ Z.of_nat (length chunks)
      = (Z.of_nat (length [5; 3; 8; 1; 9; 2; -7]) + run_capacity 130 - 1)
        / run_capacity 130.
Proof.
  apply (read_numbers_and_divide_full_runs (write_line <$> [5; 3; 8; 1; 9; 2; -7])
           [5; 3; 8; 1; 9; 2; -7] 130).
  vm_compute. reflexivity.
Defined.

End full_runs.

(** ** [merge_K_runs] on runs with a record that does not fit a block *)

Section oversized.

Implicit Types (fs : gmap (list ascii) (list ascii)) (names : list (list ascii)).
Implicit Types (st : merge_state) (runs : list (list Z)) (pending : list Z).
Implicit Types (block_size : Z) (rd : reader).

Lemma at_boundary_inj rd pending1 pending2 :
  at_boundary rd pending1 → at_boundary rd pending2 → pending1 = pending2.
Proof.
  unfold at_boundary. intros H1 H2. apply write_lines_inj. by rewrite <- H1, <- H2.
Qed.

(** A block never reaches beyond a record that does not fit. *)
Lemma drop_whole_oversized block_size pending :
  0 ≤ block_size →
  Exists (λ number, ¬ fits block_size number) pending →
  Exists (λ number, ¬ fits block_size number)
    (drop (whole (Z.to_nat block_size) pending) pending).
Proof.
  intros Hbs (before & z & after & -> & _ & Hz)%first_oversized.
  assert (whole (Z.to_nat block_size) (before ++ z :: after) ≤ length before)%nat as Hw.
  { apply whole_before_oversized. unfold fits in Hz. lia. }
  rewrite drop_app_le by done. apply Exists_app. right. by left.
Qed.

(** One [next] on a reader that is at a record boundary. *)
Lemma read_blocks_next_records block_size rd pending :
  0 < block_size →
  at_boundary rd pending →
  (pending = [] ∧ read_blocks_next block_size rd = None)
  ∨ ∃ rd',
      pending ≠ []
      ∧ read_blocks_next block_size rd
        = Some (write_lines (take (whole (Z.to_nat block_size) pending) pending), rd')
      ∧ at_boundary rd' (drop (whole (Z.to_nat block_size) pending) pending).
Proof.
  intros Hbs Hb. rewrite (read_blocks_next_boundary block_size rd pending) by (lia || done).
  cbv zeta. destruct (truthy (take _ (write_lines pending))) eqn:Htruthy.
  - right. apply take_write_lines_truthy in Htruthy as [_ Hne].
    eexists. split_and!; [done|done|]. by apply at_boundary_advance.
  - left. split; [|done]. destruct pending as [|z pending]; [done|].
    assert (truthy (take (Z.to_nat block_size) (write_lines (z :: pending))) = true)
      as Heq; [|by rewrite Heq in Htruthy].
    apply take_write_lines_truthy. split; [lia|done].
Qed.

Lemma blocked_heappush block_size st popped v j number readers' blocks' :
  heap st = (v, j) :: popped →
  blocked block_size st →
  (∀ i, i ≠ j → readers' !! i = readers st !! i) →
  (∀ rd pending,
     readers st !! j = Some rd → at_boundary rd pending →
     Exists (λ number, ¬ fits block_size number) pending →
     ∃ rd' pending',
       readers' !! j = Some rd' ∧ at_boundary rd' pending'
       ∧ Exists (λ number, ¬ fits block_size number) pending') →
  blocked block_size
    {| readers := readers'; heap := heappush popped (number, j);
       current_blocks := blocks' |}.
Proof.
  intros Hheap (i & rd & pending & Hi & Hrd & Hb & Hex) Hother Hsame.
  destruct (decide (i = j)) as [->|Hne].
  - destruct (Hsame rd pending Hrd Hb Hex) as (rd' & pending' & ? & ? & ?).
    exists j, rd', pending'. cbn [heap readers]. split_and!; [|done..].
    rewrite heappush_perm. by left.
  - exists i, rd, pending. cbn [heap readers]. rewrite Hother by done.
    split_and!; [|done..]. rewrite heappush_perm. right.
    rewrite Hheap in Hi. simpl in Hi. by apply elem_of_cons in Hi as [?|?].
Qed.

(** The loop does not get past such a record: it raises [IndexError]
    when the run's reader yields an empty block. *)
Lemma merge_loop_blocked fuel block_size st :
  0 < block_size → at_records st → blocked block_size st →
  merge_loop fuel block_size st = Raise IndexError
  ∨ merge_loop fuel block_size st = OutOfFuel.
Proof.
  intros Hbs. revert st. induction fuel as [|fuel IH]; intros st Hrecords Hblocked;
    [by right|].
  cbn [merge_loop].
  destruct (heap st) as [|[v j] popped] eqn:Hheap.
  { destruct Hblocked as (i & _ & _ & Hi & _). rewrite Hheap in Hi.
    by apply elem_of_nil in Hi. }
  assert (∀ inner : outcome (list (Z * nat)),
            inner = Raise IndexError ∨ inner = OutOfFuel →
            (inner ≫= λ rest, Done ((v, j) :: rest)) = Raise IndexError
            ∨ (inner ≫= λ rest, Done ((v, j) :: rest)) = OutOfFuel) as Hbind.
  { intros inner [-> | ->]; [by left|by right]. }
  apply Hbind. clear Hbind.
  destruct (current_blocks st !! j) as [[|number others]|] eqn:Hblock; [| |by left].
  - destruct (readers st !! j) as [rdj|] eqn:Hrdj; [|by left].
    destruct (proj1 (Forall_forall _ _) Hrecords rdj) as [pendingj Hbj].
    { by eapply list_elem_of_lookup_2. }
    destruct (read_blocks_next_records block_size rdj pendingj Hbs Hbj)
      as [[-> ->]|(rd' & Hne & -> & Hb')].
    + apply IH; [done|].
      destruct Hblocked as (i & rd & pending & Hi & Hrd & Hb & Hex).
      exists i, rd, pending. cbn [heap readers]. split_and!; [|done..].
      rewrite Hheap in Hi. simpl in Hi. apply elem_of_cons in Hi as [->|Hi]; [|done].
      rewrite Hrdj in Hrd. injection Hrd as <-.
      rewrite (at_boundary_inj _ _ _ Hb Hbj) in Hex. by apply Exists_nil in Hex.
    + rewrite decode_write_lines, bind_Done.
      destruct (take _ pendingj) as [|number others] eqn:Htake; [by left|].
      apply IH.
      * unfold at_records. cbn [readers]. apply Forall_insert; [done|by eexists].
      * apply (blocked_heappush block_size st popped v); [done|done| |].
        -- intros i Hi. by rewrite list_lookup_insert_ne.
        -- intros rd pending Hrd Hb Hex. rewrite Hrdj in Hrd. injection Hrd as <-.
           rewrite (at_boundary_inj _ _ _ Hb Hbj) in Hex.
           exists rd', (drop (whole (Z.to_nat block_size) pendingj) pendingj).
           split_and!; [|done|apply drop_whole_oversized; (lia || done)].
           apply list_lookup_insert_eq. by eapply lookup_lt_Some.
  - apply IH; [done|].
    apply (blocked_heappush block_size st popped v); [done|done|done|].
    intros rd pending Hrd Hb Hex. by exists rd, pending.
Qed.

(** The first blocks: either a run starts with such a record, and the
    empty first block raises [IndexError], or the merge is set up with
    the record still ahead. *)
Lemma seed_heap_blocked fs block_size names runs index st :
  0 < block_size →
  holds_runs fs names runs →
  Forall (λ run, run ≠ []) runs →
  at_records st →
  length (readers st) = index →
  blocked block_size st
  ∨ Exists (Exists (λ number, ¬ fits block_size number)) runs →
  seed_heap fs block_size names index st = Raise IndexError
  ∨ ∃ st',
      seed_heap fs block_size names index st = Done st'
      ∧ at_records st' ∧ blocked block_size st'.
Proof.
  intros Hbs Hfiles. revert index st.
  induction Hfiles as [|name run names runs Hname _ IH];
    intros index st Hne Hrecords Hlen Hcase.
  - right. exists st. destruct Hcase as [?|?%Exists_nil]; done.
  - inversion Hne as [|? ? Hrun Hne']; subst.
    cbn [seed_heap]. rewrite Hname.
    destruct (read_blocks_next_records block_size _ run Hbs (at_boundary_open run))
      as [[-> _]|(rd & _ & -> & Hb)]; [done|].
    rewrite decode_write_lines, bind_Done.
    destruct (take _ run) as [|number others] eqn:Htake; [by left|].
    apply IH; [done| | |].
    + unfold at_records. cbn [readers]. apply Forall_app. split; [done|].
      constructor; [by eexists|constructor].
    + cbn [readers]. rewrite length_app. simpl. lia.
    + destruct Hcase as [(i & rdi & pending & Hi & Hrdi & Hbi & Hex)|Hex].
      * left. exists i, rdi, pending. cbn [heap readers]. split_and!; [| |done..].
        -- rewrite heappush_perm. by right.
        -- rewrite lookup_app_l; [done|]. by eapply lookup_lt_Some.
      * apply Exists_cons in Hex as [Hex|Hex]; [left|by right].
        exists (length (readers st)), rd,
          (drop (whole (Z.to_nat block_size) run) run).
        cbn [heap readers]. split_and!.
        -- rewrite heappush_perm. by left.
        -- by rewrite lookup_app_r, Nat.sub_diag by lia.
        -- done.
        -- apply drop_whole_oversized; (lia || done).
Qed.

Lemma merge_K_runs_blocked fs names runs block_size identifier :
  0 < block_size →
  holds_runs fs names runs →
  Forall (λ run, run ≠ []) runs →
  Exists (Exists (λ number, ¬ fits block_size number)) runs →
  merge_K_runs fs names block_size identifier = Raise IndexError.
Proof.
  intros Hbs Hfiles Hne Hex. unfold merge_K_runs.
  destruct (seed_heap_blocked fs block_size names runs 0 empty_state Hbs Hfiles Hne)
    as [-> |(st & -> & Hrecords & Hblocked)]; [constructor|done|by right|done|].
  rewrite bind_Done. cbv zeta.
  destruct (merge_loop_blocked (merge_fuel st) block_size st Hbs Hrecords Hblocked)
    as [-> | Hfuel]; [done|].
  exfalso. revert Hfuel. apply merge_loop_fuel. unfold merge_fuel. lia.
Qed.

End oversized.

(** ** When a merge fails *)

Section merge_errors.

Implicit Types (fs : gmap (list ascii) (list ascii)) (names : list (list ascii)).
Implicit Types (lines : list (list ascii)) (zs : list Z).
Implicit Types (st : merge_state) (runs chunks : list (list Z)).
Implicit Types (K block_size iteration : Z).

Lemma fits_or_oversized block_size runs :
  Forall (Forall (fits block_size)) runs
  ∨ Exists (Exists (λ number, ¬ fits block_size number)) runs.
Proof.
  induction runs as [|run runs [IH|IH]]; [by left| |right; by right].
  assert (Forall (fits block_size) run
          ∨ Exists (λ number, ¬ fits block_size number) run) as [Hrun|Hrun].
  { induction run as [|z run [IHrun|IHrun]]; [by left| |right; by right].
    destruct (Z_le_dec (Z.of_nat (length (write_line z))) block_size) as [Hz|Hz].
    - left. by constructor.
    - right. by left. }
  - left. by constructor.
  - right. by left.
Qed.

Lemma seed_heap_app fs block_size names1 names2 index st :
  seed_heap fs block_size (names1 ++ names2) index st
  = (st' ← seed_heap fs block_size names1 index st;
     seed_heap fs block_size names2 (index + length names1) st').
Proof.
  revert index st. induction names1 as [|name names1 IH]; intros index st.
  - simpl. by rewrite Nat.add_0_r.
  - cbn [app seed_heap length]. destruct (fs !! name) as [text|]; [|done].
    destruct (read_blocks_next block_size (open_run text)) as [[block rd]|]; [|done].
    destruct (decode_block block) as [[|number others]|e|]; [done| |done..].
    rewrite !bind_Done, IH. by replace (S index + length names1)%nat
      with (index + S (length names1))%nat by lia.
Qed.

(** X4.  A merge of non-empty ascending runs into a file that is none of
    the run files writes the sorted records of all of them when every
    record fits a block, and changes no other file; as soon as one
    record of one run does not fit, it raises [IndexError] instead. *)
Theorem merge_K_runs_fits_or_raises (fs : gmap (list ascii) (list ascii))
    (names : list (list ascii)) (runs : list (list Z)) (block_size : Z)
    (identifier : list ascii) :
  0 < block_size →
  holds_runs fs names runs →
  Forall (λ run, run ≠ [] ∧ StronglySorted Z.le run) runs →
  merged_filename identifier ∉ names →
  (Forall (Forall (fits block_size)) runs →
   merge_K_runs fs names block_size identifier
   = Done (<[merged_filename identifier := write_lines (py_sort (concat runs))]> fs,
           merged_filename identifier))
  ∧ (Exists (Exists (λ number, ¬ fits block_size number)) runs →
     merge_K_runs fs names block_size identifier = Raise IndexError).
Proof.
  intros Hbs Hfiles Hruns _. split.
  - intros Hfit.
    destruct (merge_K_runs_spec fs names runs block_size identifier Hbs Hfiles)
      as (written & -> & Hperm & Hsorted).
    + apply Forall_forall. intros run Hrun. rewrite Forall_forall in Hruns, Hfit.
      destruct (Hruns run Hrun). split_and!; [done..|by apply Hfit].
    + by rewrite (merged_values written runs).
  - apply merge_K_runs_blocked; [done..|].
    eapply Forall_impl; [exact Hruns|]. by intros run [? _].
Qed.

Lemma merge_K_runs_fits_or_raises_witness :
  merge_K_runs (<[lit "b" := write_lines [7]]> (<[lit "a" := write_lines [5; 7; 7]]> ∅))
    [lit "a"; lit "b"] 4 (lit "1_1")
  = Done (<[merged_filename (lit "1_1")
            := write_lines (py_sort (concat [[5; 7; 7]; [7]]))]>
            (<[lit "b" := write_lines [7]]> (<[lit "a" := write_lines [5; 7; 7]]> ∅)),
          merged_filename (lit "1_1"))
  ∧ merge_K_runs (<[lit "b" := write_lines [7]]> (<[lit "a" := write_lines [5; 1000]]> ∅))
      [lit "a"; lit "b"] 4 (lit "1_1")
    = Raise IndexError.
Proof.
  split.
  - apply (merge_K_runs_fits_or_raises
             (<[lit "b" := write_lines [7]]> (<[lit "a" := write_lines [5; 7; 7]]> ∅))
             [lit "a"; lit "b"] [[5; 7; 7]; [7]] 4 (lit "1_1")).
    + lia.
    + repeat constructor.
    + repeat constructor; (done || lia).
    + apply (bool_decide_unpack _). by vm_compute.
    + concrete_fits.
  - apply (merge_K_runs_fits_or_raises
             (<[lit "b" := write_lines [7]]> (<[lit "a" := write_lines [5; 1000]]> ∅))
             [lit "a"; lit "b"] [[5; 1000]; [7]] 4 (lit "1_1")).
    + lia.
    + repeat constructor.
    + repeat constructor; (done || lia).
    + apply (bool_decide_unpack _). by vm_compute.
    + left. right. left. unfold fits. vm_compute. congruence.
Defined.

(** X5.  A run file that is missing makes the merge raise
    [FileNotFoundError], and a run file that is empty makes it raise
    [StopIteration], when the files before it in the batch hold good
    runs. *)
Theorem merge_K_runs_unreadable (fs : gmap (list ascii) (list ascii))
    (before after : list (list ascii)) (runs : list (list Z)) (block_size : Z)
    (identifier : list ascii) :
  0 < block_size →
  holds_runs fs before runs →
  Forall (good_run block_size) runs →
  (∀ missing, fs !! missing = None →
     merge_K_runs fs (before ++ missing :: after) block_size identifier
     = Raise FileNotFoundError)
  ∧ (∀ empty, fs !! empty = Some [] →
       merge_K_runs fs (before ++ empty :: after) block_size identifier
       = Raise StopIteration).
Proof.
  intros Hbs Hfiles Hgood.
  destruct (seed_heap_spec fs block_size before runs empty_state [] Hfiles Hgood)
    as (st & Hseed & _); [constructor|apply merge_inv_nil|].
  simpl in Hseed. unfold merge_K_runs.
  split; intros name Hname;
    rewrite seed_heap_app, Hseed, bind_Done; cbn [seed_heap]; rewrite Hname; [done|].
  assert (read_blocks_next block_size (open_run []) = None) as ->; [|done].
  unfold read_blocks_next, file_read. simpl.
  destruct (block_size <? 0); [done|]. by rewrite take_nil.
Qed.

Lemma merge_K_runs_unreadable_witness :
  merge_K_runs (<[lit "a" := write_lines [5; 7]]> (<[lit "b" := []]> ∅))
    [lit "a"; lit "c"; lit "b"] 4 (lit "1_1")
  = Raise FileNotFoundError
  ∧ merge_K_runs (<[lit "a" := write_lines [5; 7]]> (<[lit "b" := []]> ∅))
      [lit "a"; lit "b"; lit "b"] 4 (lit "1_1")
    = Raise StopIteration.
Proof.
  destruct (merge_K_runs_unreadable
              (<[lit "a" := write_lines [5; 7]]> (<[lit "b" := []]> ∅))
              [lit "a"] [lit "b"] [[5; 7]] 4 (lit "1_1")) as [Hmissing Hempty].
  - lia.
  - repeat constructor.
  - concrete_fits.
  - split; [by apply (Hmissing (lit "c"))|by apply (Hempty (lit "b"))].
Defined.

(** All batches of a pass, when some run has a record that does not fit
    a block: the first batch with such a run stops the pass. *)
Lemma merge_batches_blocked fs names runs K block_size iteration a m :
  0 < block_size → 1 ≤ K →
  holds_runs fs names runs →
  Forall (λ run, run ≠ [] ∧ StronglySorted Z.le run) runs →
  Forall (fresh_from iteration) names →
  Exists (Exists (λ number, ¬ fits block_size number))
    (take (m * Z.to_nat K) (drop (a * Z.to_nat K) runs)) →
  result (merge_batches fs names K block_size iteration
            ((λ j, j * Z.to_nat K)%nat <$> seq a m))
  = Raise IndexError.
Proof.
  intros Hbs HK Hfiles Hruns Hfresh. set (k := Z.to_nat K).
  revert a fs Hfiles. induction m as [|m IH]; intros a fs Hfiles Hex.
  - simpl in Hex. by apply Exists_nil in Hex.
  - cbn [seq fmap list_fmap merge_batches]. cbv zeta.
    rewrite !result_bind, result_emit, bind_Done. cbn [quiet result].
    fold k.
    assert (holds_runs fs (take k (drop (a * k) names)) (take k (drop (a * k) runs)))
      as Hbatch by by apply Forall2_take, Forall2_drop.
    assert (Forall (λ run, run ≠ [] ∧ StronglySorted Z.le run)
              (take k (drop (a * k) runs))) as Hbatch'
      by by apply Forall_take, Forall_drop.
    destruct (fits_or_oversized block_size (take k (drop (a * k) runs))) as [Hfit|Hbad].
    + destruct (merge_K_runs_spec fs (take k (drop (a * k) names))
                  (take k (drop (a * k) runs)) block_size
                  (py_str iteration ++ lit "_" ++ py_str (Z.of_nat (a * k) / K + 1)) Hbs Hbatch)
        as (written & -> & _).
      { apply Forall_forall. intros run Hrun. rewrite Forall_forall in Hbatch', Hfit.
        destruct (Hbatch' run Hrun). split_and!; [done..|by apply Hfit]. }
      rewrite bind_Done, result_bind.
      rewrite (IH (S a)); [done| |].
      * apply holds_runs_insert; [done|]. intros Hin.
        rewrite Forall_forall in Hfresh.
        by apply (Hfresh _ Hin iteration (Z.of_nat (a * k) / K + 1)).
      * replace (S m * k)%nat with (k + m * k)%nat in Hex by lia.
        rewrite <- take_take_drop, drop_drop in Hex.
        apply Exists_app in Hex as [Hex|Hex].
        -- exfalso. clear -Hfit Hex. rewrite Exists_exists in Hex.
           destruct Hex as (run & Hrun & Hex). rewrite Forall_forall in Hfit.
           specialize (Hfit run Hrun). rewrite Exists_exists in Hex.
           destruct Hex as (z & Hz & Hover). rewrite Forall_forall in Hfit. by apply Hover, Hfit.
        -- by replace (S a * k)%nat with (a * k + k)%nat by lia.
    + rewrite (merge_K_runs_blocked fs _ (take k (drop (a * k) runs))); [done..| |done].
      eapply Forall_impl; [exact Hbatch'|]. by intros run [? _].
Qed.

Lemma more_than_one_run lines zs memory_limit chunks :
  input_records lines zs →
  read_numbers_and_divide lines memory_limit = Done chunks →
  run_capacity memory_limit < Z.of_nat (length zs) →
  (2 ≤ length chunks)%nat.
Proof.
  intros Hin Hchunks Hmany.
  destruct (read_numbers_and_divide_from_full lines memory_limit [] 0 zs Hin)
    as (chunks' & Hres & Hcat & Hfull); [done|unfold run_capacity; simpl; lia|].
  unfold read_numbers_and_divide in Hchunks. rewrite Hchunks in Hres.
  injection Hres as <-. simpl in Hcat.
  assert (1 ≤ run_capacity memory_limit) as Hcap by (unfold run_capacity; lia).
  pose proof (full_runs_count _ _ Hcap Hfull) as Hcount. rewrite Hcat in Hcount.
  assert (2 ≤ Z.of_nat (length chunks)); [|lia].
  rewrite Hcount. apply Z.div_le_lower_bound; lia.
Qed.

Lemma single_run_small lines zs memory_limit :
  input_records lines zs → zs ≠ [] →
  Z.of_nat (length zs) ≤ run_capacity memory_limit →
  read_numbers_and_divide lines memory_limit = Done [zs].
Proof.
  intros Hin Hne Hsmall.
  destruct (read_numbers_and_divide_from_full lines memory_limit [] 0 zs Hin)
    as (chunks & Hres & Hcat & Hfull); [done|unfold run_capacity; simpl; lia|].
  assert (1 ≤ run_capacity memory_limit) as Hcap by (unfold run_capacity; lia).
  pose proof (full_runs_count _ _ Hcap Hfull) as Hcount. simpl in Hcat.
  rewrite Hcat in Hcount.
  assert (1 ≤ Z.of_nat (length zs)) by (destruct zs; [done|simpl; lia]).
  assert (Z.of_nat (length chunks) = 1) as Hone.
  { rewrite Hcount. symmetry.
    apply (Z.div_unique_pos _ _ _ (Z.of_nat (length zs) - 1)); lia. }
  unfold read_numbers_and_divide. rewrite Hres.
  destruct chunks as [|chunk [|]]; simpl in Hone; [lia| |lia].
  simpl in Hcat. rewrite app_nil_r in Hcat. by subst.
Qed.

Lemma external_merge_sort_blocked fuel fs lines zs memory_limit block_size :
  input_records lines zs →
  0 < block_size →
  1 ≤ memory_limit / block_size →
  run_capacity (memory_limit / 3) < Z.of_nat (length zs) →
  Exists (λ number, ¬ fits block_size number) zs →
  result (external_merge_sort (S fuel) fs lines memory_limit block_size)
  = Raise IndexError.
Proof.
  intros Hin Hbs HK Hmany Hex.
  destruct (generate_runs_spec fs lines zs (memory_limit / 3) Hin)
    as (chunks & fs1 & Hchunks & Hcat & Hall & Hgen & Hfiles).
  pose proof (more_than_one_run _ _ _ _ Hin Hchunks Hmany) as Hn.
  unfold external_merge_sort. cbv zeta. rewrite Hgen, quiet_bind. unfold merge_runs.
  destruct (Z.eqb_spec block_size 0); [lia|].
  rewrite merge_runs_loop_pass by (by rewrite run_names_length).
  rewrite !result_bind, result_emit, bind_Done. cbn [quiet result].
  rewrite py_range_positive, bind_Done by done.
  rewrite result_bind, run_names_length.
  rewrite (merge_batches_blocked fs1 (run_names 1 (length chunks)) (py_sort <$> chunks));
    [done..| | |].
  - apply Forall_fmap, Forall_forall. intros chunk Hchunk. simpl.
    rewrite Forall_forall in Hall. destruct (Hall chunk Hchunk) as [Hne _].
    split; [|apply py_sort_sorted]. intros Hnil. apply Hne.
    apply Permutation_nil_r. by rewrite <- Hnil, py_sort_perm.
  - apply run_names_fresh.
  - destruct (batches_bounds (length chunks) (Z.to_nat (memory_limit / block_size)))
      as (_ & Hcover & _); [lia..|]. cbv zeta in Hcover.
    rewrite drop_0, take_ge by (rewrite length_fmap; lia).
    rewrite <- Hcat, Exists_concat in Hex.
    apply Exists_fmap. eapply Exists_impl; [exact Hex|]. intros chunk Hchunk. simpl.
    apply Exists_exists in Hchunk as (z & Hz & Hover).
    apply Exists_exists. exists z. split; [|done]. by rewrite py_sort_perm.
Qed.

Lemma external_merge_sort_in_memory fuel fs lines zs memory_limit block_size :
  input_records lines zs → zs ≠ [] →
  block_size ≠ 0 →
  Z.of_nat (length zs) ≤ run_capacity (memory_limit / 3) →
  ∃ fs',
    external_merge_sort fuel fs lines memory_limit block_size = Traced [] (Done fs')
    ∧ fs' !! output_path = Some (write_lines (py_sort zs)).
Proof.
  intros Hin Hne Hbs Hsmall.
  rewrite (external_merge_sort_single_run fuel fs lines zs memory_limit block_size);
    [|by apply single_run_small|done].
  eexists. split; [done|]. apply lookup_insert_eq.
Qed.

(** X6.  A record that is longer than a block is harmless as long as the
    whole input makes a single run, which is sorted in memory and never
    read back; an input of more than one run with such a record is never
    sorted: the first pass of the merge raises [IndexError]. *)
Theorem oversized_record_raises (fuel : nat) (fs : gmap (list ascii) (list ascii))
    (lines : list (list ascii)) (zs : list Z) (memory_limit block_size : Z) :
  input_records lines zs →
  0 < block_size →
  1 ≤ memory_limit / block_size →
  Exists (λ number, ¬ fits block_size number) zs →
  (Z.of_nat (length zs) ≤ run_capacity (memory_limit / 3) →
   ∃ fs',
     external_merge_sort fuel fs lines memory_limit block_size = Traced [] (Done fs')
     ∧ fs' !! output_path = Some (write_lines (py_sort zs)))
  ∧ (run_capacity (memory_limit / 3) < Z.of_nat (length zs) →
     result (external_merge_sort (S fuel) fs lines memory_limit block_size)
     = Raise IndexError).
Proof.
  intros Hin Hbs HK Hex. split.
  - intros Hsmall. apply (external_merge_sort_in_memory fuel fs lines zs); [done| |lia|done].
    intros ->. by apply Exists_nil in Hex.
  - intros Hmany. by apply (external_merge_sort_blocked fuel fs lines zs).
Qed.

Lemma oversized_record_raises_witness :
  (∃ fs',
     external_merge_sort 0 ∅ (write_line <$> [1000; 1; 2]) 360 4 = Traced [] (Done fs')
     ∧ fs' !! output_path = Some (write_lines (py_sort [1000; 1; 2])))
  ∧ result (external_merge_sort 1 ∅ (write_line <$> [1000; 1; 2]) 240 4)
    = Raise IndexError.
Proof.
  split.
  - apply (oversized_record_raises 0 ∅ (write_line <$> [1000; 1; 2]) [1000; 1; 2] 360 4).
    + vm_compute. reflexivity.
    + lia.
    + by vm_compute.
    + left. unfold fits. vm_compute. congruence.
    + by vm_compute.
  - apply (oversized_record_raises 0 ∅ (write_line <$> [1000; 1; 2]) [1000; 1; 2] 240 4).
    + vm_compute. reflexivity.
    + lia.
    + by vm_compute.
    + left. unfold fits. vm_compute. congruence.
    + vm_compute. reflexivity.
Defined.

End merge_errors.

(** ** The number of passes *)

Section passes.

Implicit Types (fs : gmap (list ascii) (list ascii)) (names : list (list ascii)).
Implicit Types (lines : list (list ascii)) (zs : list Z).
Implicit Types (runs chunks : list (list Z)) (K block_size iteration : Z).

Lemma py_sort_proper (l1 l2 : list Z) : l1 ≡ₚ l2 → py_sort l1 = py_sort l2.
Proof.
  intros Hperm. apply (StronglySorted_unique Z.le); [apply py_sort_sorted..|].
  by rewrite !py_sort_perm.
Qed.

(** A pass divides the number of runs by the fan-in, rounding up. *)
Lemma batches_pow n K fuel :
  2 ≤ K → (1 ≤ n)%nat →
  let m := ((n + Z.to_nat K - 1) / Z.to_nat K)%nat in
  (Z.of_nat n ≤ K ^ Z.of_nat (S fuel) → Z.of_nat m ≤ K ^ Z.of_nat fuel)
  ∧ (K ^ Z.of_nat (S fuel) < Z.of_nat n → K ^ Z.of_nat fuel < Z.of_nat m).
Proof.
  intros HK Hn m.
  destruct (batches_bounds n (Z.to_nat K)) as (_ & Hlow & Hhigh); [lia..|].
  fold m in Hlow, Hhigh.
  rewrite Nat2Z.inj_succ, Z.pow_succ_r by lia.
  assert (0 < K ^ Z.of_nat fuel) by (apply Z.pow_pos_nonneg; lia).
  assert (Z.of_nat (Z.to_nat K) = K) as HkK by lia.
  apply Nat2Z.inj_le in Hlow. apply Nat2Z.inj_lt in Hhigh.
  rewrite Nat2Z.inj_mul, HkK in Hlow. rewrite Nat2Z.inj_mul, Nat2Z.inj_add, HkK in Hhigh.
  split; intros; nia.
Qed.

Lemma frontier_single block_size fs name run iteration out :
  frontier block_size fs [name] [run] iteration →
  os_rename fs name out = Done (<[out := write_lines run]> (delete name fs))
  ∧ py_sort (concat [run]) = run.
Proof.
  intros [Hfiles Hgood _ _].
  inversion Hfiles as [|? ? ? ? Hname _]; subst.
  inversion Hgood as [|? ? (_ & Hsorted & _) _]; subst.
  unfold os_rename. rewrite Hname. split; [done|].
  simpl. rewrite app_nil_r. by apply py_sort_id.
Qed.

Lemma frontier_length block_size fs names runs iteration :
  frontier block_size fs names runs iteration → length names = length runs.
Proof. intros [Hfiles _ _ _]. by eapply holds_runs_length. Qed.

(** [fuel] passes are enough for up to [K ^ fuel] runs. *)
Lemma merge_runs_loop_within fuel fs names runs out K block_size iteration :
  0 < block_size → 2 ≤ K → names ≠ [] →
  frontier block_size fs names runs iteration →
  Z.of_nat (length names) ≤ K ^ Z.of_nat fuel →
  ∃ fs',
    result (merge_runs_loop fuel fs names out K block_size iteration) = Done fs'
    ∧ fs' !! out = Some (write_lines (py_sort (concat runs))).
Proof.
  intros Hbs HK. revert fs names runs iteration.
  induction fuel as [|fuel IH]; intros fs names runs iteration Hne Hfr Hfuel.
  - change (K ^ Z.of_nat 0) with 1 in Hfuel.
    rewrite merge_runs_loop_exit by lia.
    pose proof (frontier_length _ _ _ _ _ Hfr) as Hlen.
    destruct names as [|name [|]]; [done| |simpl in Hfuel; lia].
    destruct runs as [|run [|]]; [done| |done].
    destruct (frontier_single _ _ _ _ _ out Hfr) as [-> ->].
    eexists. split; [done|]. apply lookup_insert_eq.
  - destruct (decide (length names ≤ 1)%nat) as [Hsmall|Hbig].
    { rewrite merge_runs_loop_exit by done.
      pose proof (frontier_length _ _ _ _ _ Hfr) as Hlen.
      destruct names as [|name [|]]; [done| |simpl in Hsmall; lia].
      destruct runs as [|run [|]]; [done| |done].
      destruct (frontier_single _ _ _ _ _ out Hfr) as [-> ->].
      eexists. split; [done|]. apply lookup_insert_eq. }
    assert (2 ≤ length names)%nat as Hn by lia.
    destruct (merge_runs_loop_step fuel fs names runs out K block_size iteration
                Hbs ltac:(lia) Hn Hfr) as (fs2 & Hfr' & ->).
    destruct (batches_pow (length names) K fuel HK ltac:(lia)) as [Hpow _].
    destruct (batches_bounds (length names) (Z.to_nat K) ltac:(lia) ltac:(lia))
      as (Hm1 & Hm2 & _).
    set (m := ((length names + Z.to_nat K - 1) / Z.to_nat K)%nat) in *.
    destruct (IH fs2 (merged_names iteration 0 m)
                (merge_pass_runs (Z.to_nat K) m runs) (iteration + 1))
      as (fs' & Hres & Hout).
    + destruct m; [lia|done].
    + done.
    + rewrite merged_names_length. by apply Hpow.
    + exists fs'. split; [done|]. rewrite Hout. do 2 f_equal.
      apply py_sort_proper, merge_pass_runs_perm.
      by rewrite <- (frontier_length _ _ _ _ _ Hfr).
Qed.

(** [fuel] passes are not enough for more than [K ^ fuel] runs. *)
Lemma merge_runs_loop_beyond fuel fs names runs out K block_size iteration :
  0 < block_size → 2 ≤ K →
  frontier block_size fs names runs iteration →
  K ^ Z.of_nat fuel < Z.of_nat (length names) →
  result (merge_runs_loop fuel fs names out K block_size iteration) = OutOfFuel.
Proof.
  intros Hbs HK. revert fs names runs iteration.
  induction fuel as [|fuel IH]; intros fs names runs iteration Hfr Hfuel.
  - change (K ^ Z.of_nat 0) with 1 in Hfuel.
    by rewrite merge_runs_loop_out_of_fuel by lia.
  - assert (0 < K ^ Z.of_nat (S fuel)) by (apply Z.pow_pos_nonneg; lia).
    assert (2 ≤ length names)%nat as Hn by lia.
    destruct (merge_runs_loop_step fuel fs names runs out K block_size iteration
                Hbs ltac:(lia) Hn Hfr) as (fs2 & Hfr' & ->).
    destruct (batches_pow (length names) K fuel HK ltac:(lia)) as [_ Hpow].
    eapply IH; [exact Hfr'|]. rewrite merged_names_length. by apply Hpow.
Qed.

(** The runs of the first phase, when every record fits a block. *)
Lemma generate_runs_frontier fs lines zs memory_limit block_size :
  input_records lines zs →
  Forall (fits block_size) zs →
  ∃ chunks fs1,
    generate_runs fs lines memory_limit = Done (fs1, run_names 1 (length chunks))
    ∧ concat chunks = zs
    ∧ Z.of_nat (length chunks)
      = (Z.of_nat (length zs) + run_capacity memory_limit - 1)
        / run_capacity memory_limit
    ∧ frontier block_size fs1 (run_names 1 (length chunks)) (py_sort <$> chunks) 1.
Proof.
  intros Hin Hfit.
  destruct (generate_runs_spec fs lines zs memory_limit Hin)
    as (chunks & fs1 & Hchunks & Hcat & Hall & Hgen & Hfiles).
  destruct (read_numbers_and_divide_from_full lines memory_limit [] 0 zs Hin)
    as (chunks' & Hres & _ & Hfull); [done|unfold run_capacity; simpl; lia|].
  unfold read_numbers_and_divide in Hchunks. rewrite Hchunks in Hres.
  injection Hres as <-.
  exists chunks, fs1. split_and!; [done..| |].
  - rewrite <- Hcat. apply full_runs_count; [unfold run_capacity; lia|done].
  - split; [done| |apply run_names_NoDup|apply run_names_fresh].
    apply Forall_fmap. rewrite <- Hcat in Hfit. rewrite Forall_concat in Hfit.
    apply Forall_forall. intros chunk Hchunk. rewrite Forall_forall in Hall, Hfit.
    apply py_sort_good; [by apply Hall|by apply Hfit].
Qed.

Lemma external_merge_sort_within fuel fs lines zs memory_limit block_size :
  input_records lines zs → zs ≠ [] →
  0 < block_size → 2 ≤ memory_limit / block_size →
  Forall (fits block_size) zs →
  (Z.of_nat (length zs) + run_capacity (memory_limit / 3) - 1)
    / run_capacity (memory_limit / 3)
  ≤ (memory_limit / block_size) ^ Z.of_nat fuel →
  ∃ fs',
    result (external_merge_sort fuel fs lines memory_limit block_size) = Done fs'
    ∧ fs' !! output_path = Some (write_lines (py_sort zs)).
Proof.
  intros Hin Hne Hbs HK Hfit Hfuel.
  destruct (generate_runs_frontier fs lines zs (memory_limit / 3) block_size Hin Hfit)
    as (chunks & fs1 & Hgen & Hcat & Hcount & Hfr).
  destruct (merge_runs_loop_within fuel fs1 (run_names 1 (length chunks))
              (py_sort <$> chunks) output_path (memory_limit / block_size)
              block_size 1 Hbs HK) as (fs' & Hres & Hout).
  - destruct chunks; [by subst zs|done].
  - done.
  - rewrite run_names_length. lia.
  - exists fs'. unfold external_merge_sort. cbv zeta.
    rewrite Hgen, quiet_bind. unfold merge_runs.
    destruct (Z.eqb_spec block_size 0); [lia|]. split; [done|].
    rewrite Hout. do 2 f_equal. apply py_sort_proper.
    by rewrite concat_py_sort, Hcat.
Qed.

(** X7.  The merge takes as many passes as the logarithm of the number of
    runs to the base of the fan-in, rounded up: with [r] runs of records
    that fit a block and a fan-in [K >= 2], the sort is complete within
    [fuel] passes of the [while] loop exactly when [r <= K ^ fuel]
    (with more runs the passes that [fuel] allows are used up), and the
    output file then holds the sorted records. *)
Theorem external_merge_sort_passes (fuel : nat) (fs : gmap (list ascii) (list ascii))
    (lines : list (list ascii)) (zs : list Z) (memory_limit block_size : Z) :
  input_records lines zs →
  zs ≠ [] →
  0 < block_size →
  2 ≤ memory_limit / block_size →
  Forall (fits block_size) zs →
  ∃ chunks,
    read_numbers_and_divide lines (memory_limit / 3) = Done chunks
    ∧ Z.of_nat (length chunks)
      = (Z.of_nat (length zs) + run_capacity (memory_limit / 3) - 1)
        / run_capacity (memory_limit / 3)
    ∧ (Z.of_nat (length chunks) ≤ (memory_limit / block_size) ^ Z.of_nat fuel →
       ∃ fs',
         result (external_merge_sort fuel fs lines memory_limit block_size) = Done fs'
         ∧ fs' !! output_path = Some (write_lines (py_sort zs)))
    ∧ ((memory_limit / block_size) ^ Z.of_nat fuel < Z.of_nat (length chunks) →
       result (external_merge_sort fuel fs lines memory_limit block_size) = OutOfFuel).
Proof.
  intros Hin Hne Hbs HK Hfit.
  destruct (generate_runs_spec fs lines zs (memory_limit / 3) Hin)
    as (chunks & fs0 & Hchunks & _).
  destruct (generate_runs_frontier fs lines zs (memory_limit / 3) block_size Hin Hfit)
    as (chunks' & fs1 & Hgen & Hcat & Hcount & Hfr).
  assert (length chunks' = length chunks) as Hsame.
  { unfold generate_runs in Hgen. rewrite Hchunks, bind_Done in Hgen.
    destruct (generate_runs_from_spec fs chunks 1 []) as (fs2 & Heq & _).
    rewrite Heq in Hgen. injection Hgen as _ Hnames.
    apply (f_equal length) in Hnames. by rewrite !run_names_length in Hnames. }
  rewrite Hsame in Hcount.
  exists chunks. split_and!; [done..| |].
  - intros Hfuel. apply (external_merge_sort_within fuel fs lines zs); try done.
    by rewrite <- Hcount.
  - intros Hfuel. unfold external_merge_sort. cbv zeta.
    rewrite Hgen, quiet_bind. unfold merge_runs.
    destruct (Z.eqb_spec block_size 0); [lia|].
    apply (merge_runs_loop_beyond fuel fs1 _ (py_sort <$> chunks')); [done..|].
    rewrite run_names_length. lia.
Qed.

Lemma external_merge_sort_passes_witness :
  (∃ fs',
     result (external_merge_sort 3 ∅ (write_line <$> [5; 3; 8; 1; 9; 2; -7]) 160 80)
     = Done fs'
     ∧ fs' !! output_path = Some (write_lines (py_sort [5; 3; 8; 1; 9; 2; -7])))
  ∧ result (external_merge_sort 2 ∅ (write_line <$> [5; 3; 8; 1; 9; 2; -7]) 160 80)
    = OutOfFuel.
Proof.
  split.
  - destruct (external_merge_sort_passes 3 ∅ (write_line <$> [5; 3; 8; 1; 9; 2; -7])
                [5; 3; 8; 1; 9; 2; -7] 160 80)
      as (chunks & _ & Hcount & Hdone & _);
      [vm_compute; reflexivity|done|lia|by vm_compute|concrete_fits|].
    apply Hdone. rewrite Hcount. by vm_compute.
  - destruct (external_merge_sort_passes 2 ∅ (write_line <$> [5; 3; 8; 1; 9; 2; -7])
                [5; 3; 8; 1; 9; 2; -7] 160 80)
      as (chunks & _ & Hcount & _ & Hmore);
      [vm_compute; reflexivity|done|lia|by vm_compute|concrete_fits|].
    apply Hmore. rewrite Hcount. by vm_compute.
Defined.

End passes.

(** ** What a sort that ends leaves in the directory *)

Section cleanup.

Implicit Types (fs : gmap (list ascii) (list ascii)) (names runs : list (list ascii)).
Implicit Types (lines : list (list ascii)) (K block_size iteration : Z).

Lemma merge_K_runs_frame fs names block_size identifier fs' output_file :
  merge_K_runs fs names block_size identifier = Done (fs', output_file) →
  output_file = merged_filename identifier
  ∧ ∀ name, name ≠ output_file → fs' !! name = fs !! name.
Proof.
  unfold merge_K_runs.
  destruct (seed_heap _ _ _ _ _) as [st| |]; [|done..]. rewrite bind_Done. cbv zeta.
  destruct (merge_loop _ _ _) as [written| |]; [|done..]. rewrite bind_Done.
  intros [= <- <-]. split; [done|]. intros name Hne. by rewrite lookup_insert_ne.
Qed.

(** A pass writes merged runs of its own iteration, and nothing else. *)
Lemma merge_batches_frame fs runs K block_size iteration starts fs' new_runs :
  result (merge_batches fs runs K block_size iteration starts) = Done (fs', new_runs) →
  Forall (λ name, ∃ batch, name = merged_name iteration batch) new_runs
  ∧ ∀ name, name ∉ new_runs → fs' !! name = fs !! name.
Proof.
  revert fs fs' new_runs. induction starts as [|i more IH]; intros fs fs' new_runs.
  - simpl. intros [= <- <-]. by split.
  - cbn [merge_batches]. cbv zeta.
    rewrite !result_bind, result_emit, bind_Done. cbn [quiet result].
    destruct (merge_K_runs _ _ _ _) as [[fs1 merged_run]| |] eqn:Hmerge; [|done..].
    rewrite bind_Done, result_bind.
    destruct (result (merge_batches fs1 _ _ _ _ _)) as [[fs2 later]| |] eqn:Hrest;
      [|done..].
    rewrite bind_Done. simpl. intros [= <- <-].
    apply merge_K_runs_frame in Hmerge as [-> Hframe1].
    destruct (IH _ _ _ Hrest) as [Hnames Hframe2]. split.
    + constructor; [by eexists|done].
    + intros name [Hne Hname]%not_elem_of_cons.
      rewrite Hframe2 by done. by apply Hframe1.
Qed.

Lemma remove_runs_lookup fs runs fs' :
  remove_runs fs runs = Done fs' →
  ∀ name, (name ∈ runs → fs' !! name = None) ∧ (name ∉ runs → fs' !! name = fs !! name).
Proof.
  revert fs. induction runs as [|run runs IH]; intros fs.
  - simpl. intros [= <-] name. split; [by intros ?%elem_of_nil|done].
  - cbn [remove_runs]. unfold os_remove.
    destruct (fs !! run) as [text|]; [|done]. rewrite bind_Done.
    intros Hrest name. destruct (IH _ Hrest name) as [Hin Hout]. split.
    + intros [->|Hname]%elem_of_cons; [|by apply Hin].
      destruct (decide (run ∈ runs)); [by apply Hin|].
      rewrite Hout by done. apply lookup_delete_eq.
    + intros [Hne Hname]%not_elem_of_cons.
      rewrite Hout by done. by apply lookup_delete_ne.
Qed.

(** The loop, whenever it ends normally: the files it was given are
    gone, the output file is there, and any other file is as it was,
    unless it bears the name of a merged run and is gone. *)
Lemma merge_runs_loop_cleans fuel fs names out K block_size iteration fs' :
  Forall (fresh_from iteration) names →
  result (merge_runs_loop fuel fs names out K block_size iteration) = Done fs' →
  is_Some (fs' !! out)
  ∧ ∀ name, name ≠ out →
      (name ∈ names → fs' !! name = None)
      ∧ (name ∉ names →
         (fs' !! name = None ∧ ∃ i batch, name = merged_name i batch)
         ∨ fs' !! name = fs !! name).
Proof.
  assert (∀ fuel fs names iteration,
            (length names ≤ 1)%nat →
            result (merge_runs_loop fuel fs names out K block_size iteration) = Done fs' →
            is_Some (fs' !! out)
            ∧ ∀ name, name ≠ out →
                (name ∈ names → fs' !! name = None)
                ∧ (name ∉ names →
                   (fs' !! name = None ∧ ∃ i batch, name = merged_name i batch)
                   ∨ fs' !! name = fs !! name)) as Hexit.
  { clear. intros fuel fs names iteration Hsmall.
    rewrite merge_runs_loop_exit by done.
    destruct names as [|run [|]]; [done| |simpl in Hsmall; lia].
    cbn [quiet result]. unfold os_rename.
    destruct (fs !! run) as [text|]; [|done]. intros [= <-]. split.
    - rewrite lookup_insert_eq. by eexists.
    - intros name Hne. rewrite lookup_insert_ne by done. split.
      + intros ->%list_elem_of_singleton. apply lookup_delete_eq.
      + intros [Hname _]%not_elem_of_cons. right. apply lookup_delete_ne. congruence. }
  revert fs names iteration.
  induction fuel as [|fuel IH]; intros fs names iteration Hfresh.
  - destruct (decide (length names ≤ 1)%nat) as [Hsmall|Hbig]; [by apply Hexit|].
    by rewrite merge_runs_loop_out_of_fuel by lia.
  - destruct (decide (length names ≤ 1)%nat) as [Hsmall|Hbig]; [by apply Hexit|].
    rewrite merge_runs_loop_pass by lia.
    rewrite !result_bind, result_emit, bind_Done. cbn [quiet result].
    destruct (py_range (length names) K) as [starts| |]; [|done..].
    rewrite bind_Done, result_bind.
    destruct (result (merge_batches _ _ _ _ _ _)) as [[fs1 new_runs]| |] eqn:Hb; [|done..].
    rewrite bind_Done, result_bind. cbn [quiet result].
    destruct (remove_runs fs1 names) as [fs2| |] eqn:Hrm; [|done..]. rewrite bind_Done.
    intros Hres.
    apply merge_batches_frame in Hb as [Hnew Hframe1].
    pose proof (remove_runs_lookup _ _ _ Hrm) as Hframe2.
    destruct (IH fs2 new_runs (iteration + 1)) as [Hout Hframe3]; [|done|].
    { eapply Forall_impl; [exact Hnew|]. intros name [batch ->].
      apply merged_name_fresh. lia. }
    split; [done|]. intros name Hne.
    destruct (Hframe3 name Hne) as [Hin3 Hout3], (Hframe2 name) as [Hin2 Hout2].
    rewrite Forall_forall in Hnew, Hfresh. split.
    + intros Hname.
      destruct (decide (name ∈ new_runs)) as [Hnew'|Hnew']; [by apply Hin3|].
      destruct (Hout3 Hnew') as [[? _]| ->]; [done|by apply Hin2].
    + intros Hname.
      destruct (decide (name ∈ new_runs)) as [Hnew'|Hnew'].
      * left. split; [by apply Hin3|].
        destruct (Hnew name Hnew') as [batch ->]. by eexists _, _.
      * destruct (Hout3 Hnew') as [?| ->]; [by left|right].
        rewrite Hout2 by done. by apply Hframe1.
Qed.

(** X8.  Whenever the sort ends normally, whatever its input and its
    parameters: [output2.txt] exists, none of the run files
    [run1.txt], ..., [run<n>.txt] that it wrote is left, and every other
    file of the directory is either untouched or gone; the files that
    can be gone are those named like a run or a merged run. *)
Theorem external_merge_sort_cleans_up (fuel : nat) (fs fs' : gmap (list ascii) (list ascii))
    (lines : list (list ascii)) (memory_limit block_size : Z) :
  result (external_merge_sort fuel fs lines memory_limit block_size) = Done fs' →
  ∃ chunks,
    read_numbers_and_divide lines (memory_limit / 3) = Done chunks
    ∧ is_Some (fs' !! output_path)
    ∧ ∀ name, name ≠ output_path →
        (name ∈ run_names 1 (length chunks) → fs' !! name = None)
        ∧ (fs' !! name = None ∨ fs' !! name = fs !! name)
        ∧ ((∀ i, name ≠ run_filename i) →
           (∀ i batch, name ≠ merged_name i batch) →
           fs' !! name = fs !! name).
Proof.
  unfold external_merge_sort. cbv zeta. rewrite result_bind. cbn [quiet result].
  unfold generate_runs.
  destruct (read_numbers_and_divide lines (memory_limit / 3)) as [chunks| |]; [|done..].
  rewrite !bind_Done.
  destruct (generate_runs_from_spec fs chunks 1 []) as (fs1 & -> & _ & Hframe1).
  simpl app. unfold merge_runs. destruct (Z.eqb_spec block_size 0); [done|].
  intros [Hout Hframe2]%merge_runs_loop_cleans; [|apply run_names_fresh].
  exists chunks. split_and!; [done..|]. intros name Hne.
  destruct (Hframe2 name Hne) as [Hin2 Hout2]. split_and!.
  - done.
  - destruct (decide (name ∈ run_names 1 (length chunks))) as [Hname|Hname];
      [left; by apply Hin2|].
    destruct (Hout2 Hname) as [[? _]| ->]; [by left|right]. by apply Hframe1.
  - intros Hrun Hmerged.
    assert (name ∉ run_names 1 (length chunks)) as Hname.
    { intros (j & _ & ->)%elem_of_run_names. by apply (Hrun (1 + j)). }
    destruct (Hout2 Hname) as [[_ (i & batch & ->)]| ->]; [|by apply Hframe1].
    by destruct (Hmerged i batch).
Qed.

Lemma external_merge_sort_cleans_up_witness :
  ∃ fs',
    result (external_merge_sort 2
              (<[run_filename 2 := lit "old"]> (<[lit "notes.txt" := lit "kept"]> ∅))
              (write_line <$> [5; 3; 8]) 160 80) = Done fs'
    ∧ ∃ chunks,
        read_numbers_and_divide (write_line <$> [5; 3; 8]) (160 / 3) = Done chunks
        ∧ is_Some (fs' !! output_path)
        ∧ ∀ name, name ≠ output_path →
            (name ∈ run_names 1 (length chunks) → fs' !! name = None)
            ∧ (fs' !! name = None
               ∨ fs' !! name
                 = (<[run_filename 2 := lit "old"]>
                      (<[lit "notes.txt" := lit "kept"]> ∅) : gmap (list ascii) (list ascii))
                   !! name)
            ∧ ((∀ i, name ≠ run_filename i) →
               (∀ i batch, name ≠ merged_name i batch) →
               fs' !! name
               = (<[run_filename 2 := lit "old"]>
                    (<[lit "notes.txt" := lit "kept"]> ∅) : gmap (list ascii) (list ascii))
                 !! name).
Proof.
  destruct (external_merge_sort_within 2
              (<[run_filename 2 := lit "old"]> (<[lit "notes.txt" := lit "kept"]> ∅))
              (write_line <$> [5; 3; 8]) [5; 3; 8] 160 80) as (fs' & Hres & _);
    [vm_compute; reflexivity|done|lia|by vm_compute|concrete_fits|by vm_compute|].
  exists fs'. split; [done|].
  by apply (external_merge_sort_cleans_up 2
              (<[run_filename 2 := lit "old"]> (<[lit "notes.txt" := lit "kept"]> ∅)) fs'
              (write_line <$> [5; 3; 8]) 160 80).
Defined.

End cleanup.

(** ** Which files are merged *)

Section schedule.

Implicit Types (fs : gmap (list ascii) (list ascii)) (names runs : list (list ascii)).
Implicit Types (lines : list (list ascii)) (K block_size iteration : Z).

Lemma merged_files_app events1 events2 :
  merged_files (events1 ++ events2) = merged_files events1 ++ merged_files events2.
Proof. apply flat_map_app. Qed.

(** The batches of a pass that succeeds, and the names of its merged runs. *)
Lemma merge_batches_calls fs runs K block_size iteration starts fs' new_runs :
  result (merge_batches fs runs K block_size iteration starts) = Done (fs', new_runs) →
  merged_files (trace (merge_batches fs runs K block_size iteration starts))
  = flat_map (λ i, take (Z.to_nat K) (drop i runs)) starts
  ∧ new_runs = (λ i, merged_name iteration (Z.of_nat i / K + 1)) <$> starts.
Proof.
  revert fs fs' new_runs. induction starts as [|i more IH]; intros fs fs' new_runs.
  - simpl. by intros [= _ <-].
  - cbn [merge_batches]. cbv zeta.
    rewrite !result_bind, result_emit, bind_Done. cbn [quiet result].
    rewrite trace_bind. cbn [emit trace result]. rewrite trace_bind.
    cbn [quiet trace result app].
    destruct (merge_K_runs _ _ _ _) as [[fs1 merged_run]| |] eqn:Hmerge; [|done..].
    rewrite bind_Done, result_bind, trace_bind.
    destruct (result (merge_batches fs1 _ _ _ _ _)) as [[fs2 later]| |] eqn:Hrest;
      [|done..].
    rewrite bind_Done. cbn [result mret traced_ret]. intros [= <- <-].
    apply merge_K_runs_frame in Hmerge as [-> _].
    destruct (IH _ _ _ Hrest) as [Hcalls ->].
    change (MergeCall ?b ?i :: ?t) with ([MergeCall b i] ++ t).
    rewrite !merged_files_app, Hcalls. cbn [trace mret traced_ret]. simpl.
    by rewrite !app_nil_r.
Qed.

(** The batches cover the runs in order. *)
Lemma batches_cover {A} (l : list A) k a m :
  flat_map (λ i, take k (drop i l)) ((λ j, j * k)%nat <$> seq a m)
  = take (m * k) (drop (a * k) l).
Proof.
  revert a. induction m as [|m IH]; intros a; [done|].
  cbn [seq fmap list_fmap flat_map]. change (list_fmap _ _ ?f ?x) with (f <$> x).
  rewrite IH. replace (S m * k)%nat with (k + m * k)%nat by lia.
  rewrite <- take_take_drop, drop_drop.
  by replace (S a * k)%nat with (a * k + k)%nat by lia.
Qed.

Lemma merged_names_batches K iteration a m :
  1 ≤ K →
  (λ i, merged_name iteration (Z.of_nat i / K + 1))
    <$> ((λ j, j * Z.to_nat K)%nat <$> seq a m)
  = merged_names iteration (Z.of_nat a) m.
Proof.
  intros HK. revert a. induction m as [|m IH]; intros a; [done|].
  cbn [seq fmap list_fmap merged_names].
  change (list_fmap _ _ ?f ?x) with (f <$> x).
  replace (Z.of_nat a + 1) with (Z.of_nat (S a)) by lia. rewrite <- IH. f_equal.
  f_equal. rewrite Nat2Z.inj_mul, Z2Nat.id by lia. rewrite Z.div_mul by lia. lia.
Qed.

(** The merges of a loop that ends normally: the runs it was given, in
    order, when there are at least two of them, and after them only
    merged runs of this and later passes; no file is merged twice. *)
Lemma merge_runs_loop_merges_once fuel fs names out K block_size iteration fs' :
  NoDup names → Forall (fresh_from iteration) names →
  result (merge_runs_loop fuel fs names out K block_size iteration) = Done fs' →
  ∃ later,
    merged_files (trace (merge_runs_loop fuel fs names out K block_size iteration))
    = (if decide (2 ≤ length names)%nat then names else []) ++ later
    ∧ NoDup (names ++ later)
    ∧ Forall (λ name, ∃ i batch, iteration ≤ i ∧ name = merged_name i batch) later.
Proof.
  revert fs names iteration.
  induction fuel as [|fuel IH]; intros fs names iteration Hnd Hfresh.
  - destruct (decide (2 ≤ length names)%nat) as [Hbig|Hsmall].
    { by rewrite merge_runs_loop_out_of_fuel. }
    rewrite merge_runs_loop_exit by lia. intros _. exists []. rewrite !app_nil_r.
    split_and!; [by destruct names|done|constructor].
  - destruct (decide (2 ≤ length names)%nat) as [Hbig|Hsmall]; cycle 1.
    { rewrite merge_runs_loop_exit by lia. intros _. exists []. rewrite !app_nil_r.
      split_and!; [by destruct names|done|constructor]. }
    rewrite merge_runs_loop_pass by done.
    rewrite !result_bind, result_emit, bind_Done. cbn [quiet result].
    rewrite trace_bind. cbn [emit trace result]. rewrite trace_bind.
    cbn [quiet trace result app].
    destruct (py_range (length names) K) as [starts| |] eqn:Hstarts; [|done..].
    rewrite bind_Done, result_bind, trace_bind.
    destruct (result (merge_batches _ _ _ _ _ _)) as [[fs1 new_runs]| |] eqn:Hb; [|done..].
    rewrite bind_Done, result_bind, trace_bind. cbn [quiet trace result app].
    destruct (remove_runs fs1 names) as [fs2| |] eqn:Hrm; [|done..]. rewrite bind_Done.
    intros Hres.
    apply merge_batches_calls in Hb as [Hcalls ->].
    assert (1 ≤ K) as HK.
    { unfold py_range in Hstarts. destruct (Z.eqb_spec K 0); [done|].
      destruct (Z.ltb_spec K 0); [|lia]. injection Hstarts as <-.
      simpl in Hres. by rewrite merge_runs_loop_exit in Hres by (simpl; lia). }
    rewrite py_range_positive in Hstarts by done. injection Hstarts as <-.
    set (m := ((length names + Z.to_nat K - 1) / Z.to_nat K)%nat) in *.
    rewrite merged_names_batches in Hres |- * by done.
    change (Z.of_nat 0) with 0 in *.
    rewrite batches_cover in Hcalls.
    destruct (batches_bounds (length names) (Z.to_nat K)) as (_ & Hcover & _); [lia..|].
    fold m in Hcover. rewrite drop_0, take_ge in Hcalls by done.
    destruct (IH fs2 (merged_names iteration 0 m) (iteration + 1))
      as (later & Hlater & Hnd' & Hall);
      [apply merged_names_NoDup|apply merged_names_fresh|done|].
    exists ((if decide (2 ≤ length (merged_names iteration 0 m))%nat
             then merged_names iteration 0 m else []) ++ later).
    simpl. rewrite !merged_files_app, Hcalls, Hlater.
    assert (Forall (λ name, ∃ i batch, iteration ≤ i ∧ name = merged_name i batch)
              (merged_names iteration 0 m ++ later)) as Hall'.
    { apply Forall_app. split.
      - apply Forall_forall. intros name (j & _ & ->)%elem_of_merged_names.
        exists iteration, j. split; [lia|done].
      - eapply Forall_impl; [exact Hall|]. intros name (i & batch & Hi & ->).
        exists i, batch. split; [lia|done]. }
    apply NoDup_app in Hnd' as (Hnd1 & Hdisj & Hnd2).
    split_and!; [done| |].
    + apply NoDup_app. split_and!; [done| |].
      * intros name Hname Hin.
        assert (name ∈ merged_names iteration 0 m ++ later) as Hin'.
        { apply elem_of_app in Hin as [Hin|Hin]; apply elem_of_app; [|by right].
          left. by destruct (decide _); [|apply elem_of_nil in Hin]. }
        rewrite Forall_forall in Hall', Hfresh.
        destruct (Hall' name Hin') as (i & batch & Hi & ->).
        by apply (Hfresh _ Hname i batch).
      * destruct (decide _); [|done]. apply NoDup_app. by split_and!.
    + destruct (decide _); [done|]. by apply Forall_app in Hall' as [_ ?].
Qed.

(** X9.  Whenever the sort ends normally, the merger was handed every run
    file of the first phase once, in order, when there are at least two
    of them, then merged runs only, and no file twice. *)
Theorem external_merge_sort_merges_once (fuel : nat)
    (fs fs' : gmap (list ascii) (list ascii)) (lines : list (list ascii))
    (memory_limit block_size : Z) :
  result (external_merge_sort fuel fs lines memory_limit block_size) = Done fs' →
  ∃ chunks later,
    read_numbers_and_divide lines (memory_limit / 3) = Done chunks
    ∧ merged_files (trace (external_merge_sort fuel fs lines memory_limit block_size))
      = (if decide (2 ≤ length chunks)%nat then run_names 1 (length chunks) else [])
        ++ later
    ∧ NoDup (run_names 1 (length chunks) ++ later)
    ∧ Forall (λ name, ∃ i batch, name = merged_name i batch) later.
Proof.
  unfold external_merge_sort. cbv zeta. rewrite result_bind, trace_bind.
  cbn [quiet trace result app]. unfold generate_runs.
  destruct (read_numbers_and_divide lines (memory_limit / 3)) as [chunks| |]; [|done..].
  rewrite !bind_Done.
  destruct (generate_runs_from_spec fs chunks 1 []) as (fs1 & -> & _ & _).
  simpl app. unfold merge_runs. destruct (Z.eqb_spec block_size 0); [done|].
  intros (later & Hcalls & Hnd & Hall)%merge_runs_loop_merges_once;
    [|apply run_names_NoDup|apply run_names_fresh].
  rewrite run_names_length in Hcalls.
  exists chunks, later. split_and!; [done..|].
  eapply Forall_impl; [exact Hall|]. intros name (i & batch & _ & ->). by eexists _, _.
Qed.

Lemma external_merge_sort_merges_once_witness :
  ∃ fs',
    result (external_merge_sort 2 ∅ (write_line <$> [5; 3; 8]) 160 80) = Done fs'
    ∧ ∃ chunks later,
        read_numbers_and_divide (write_line <$> [5; 3; 8]) (160 / 3) = Done chunks
        ∧ merged_files
            (trace (external_merge_sort 2 ∅ (write_line <$> [5; 3; 8]) 160 80))
          = (if decide (2 ≤ length chunks)%nat
             then run_names 1 (length chunks) else []) ++ later
        ∧ NoDup (run_names 1 (length chunks) ++ later)
        ∧ Forall (λ name, ∃ i batch, name = merged_name i batch) later.
Proof.
  destruct (external_merge_sort_within 2 ∅ (write_line <$> [5; 3; 8]) [5; 3; 8] 160 80)
    as (fs' & Hres & _);
    [vm_compute; reflexivity|done|lia|by vm_compute|concrete_fits|by vm_compute|].
  exists fs'. split; [done|].
  by apply (external_merge_sort_merges_once 2 ∅ fs' (write_line <$> [5; 3; 8]) 160 80).
Defined.

End schedule.

(** ** The output file of a merge is none of its run files *)

Section fresh_output.

Implicit Types (fs : gmap (list ascii) (list ascii)) (names runs : list (list ascii)).
Implicit Types (lines : list (list ascii)) (K block_size iteration : Z).

(** A pass on runs whose names no merge of this or a later pass writes
    to: the file that a call writes is none of the runs of its batch. *)
Lemma merge_batches_trace_fresh fs runs K block_size iteration starts batch identifier :
  Forall (fresh_from iteration) runs →
  MergeCall batch identifier
    ∈ trace (merge_batches fs runs K block_size iteration starts) →
  merged_filename identifier ∉ batch.
Proof.
  intros Hfresh. revert fs. induction starts as [|i more IH]; intros fs.
  - simpl. by intros ?%elem_of_nil.
  - cbn [merge_batches]. cbv zeta. rewrite trace_bind. cbn [emit trace result].
    rewrite trace_bind. cbn [quiet trace result app].
    intros [Heq|Hin]%elem_of_cons.
    + injection Heq as -> ->. intros Hin.
      assert (take (Z.to_nat K) (drop i runs) ⊆ runs) as Hsub.
      { apply sublist_subseteq. etrans; [apply sublist_take|apply sublist_drop]. }
      apply Hsub in Hin. rewrite Forall_forall in Hfresh.
      by apply (Hfresh _ Hin iteration (Z.of_nat i / K + 1)).
    + destruct (merge_K_runs _ _ _ _) as [[fs1 merged_run]| |];
        [|by apply elem_of_nil in Hin..].
      rewrite trace_bind in Hin. apply elem_of_app in Hin as [Hin|Hin].
      * by apply (IH fs1).
      * destruct (result (merge_batches fs1 _ _ _ _ _)) as [[fs2 later]| |];
          by apply elem_of_nil in Hin.
Qed.

Lemma merge_runs_loop_trace_fresh fuel fs names out K block_size iteration
    batch identifier :
  Forall (fresh_from iteration) names →
  MergeCall batch identifier
    ∈ trace (merge_runs_loop fuel fs names out K block_size iteration) →
  merged_filename identifier ∉ batch.
Proof.
  revert fs names iteration. induction fuel as [|fuel IH]; intros fs names iteration Hfresh.
  - simpl. destruct (1 <? length names)%nat; [by intros ?%elem_of_nil|].
    destruct names; by intros ?%elem_of_nil.
  - destruct (decide (length names ≤ 1)%nat) as [Hsmall|Hbig].
    { rewrite merge_runs_loop_exit by done. destruct names; by intros ?%elem_of_nil. }
    rewrite merge_runs_loop_pass by lia.
    rewrite trace_bind. cbn [emit trace result].
    intros [?|Hin]%elem_of_cons; [done|].
    rewrite trace_bind in Hin. cbn [quiet trace result app] in Hin.
    destruct (py_range (length names) K) as [starts| |];
      [|by apply elem_of_nil in Hin..].
    rewrite trace_bind in Hin. apply elem_of_app in Hin as [Hin|Hin].
    + by apply (merge_batches_trace_fresh _ _ _ _ _ _ _ _ Hfresh Hin).
    + destruct (result (merge_batches _ _ _ _ _ _)) as [[fs1 new_runs]| |] eqn:Hb;
        [|by apply elem_of_nil in Hin..].
      rewrite trace_bind in Hin. cbn [quiet trace result app] in Hin.
      destruct (remove_runs fs1 names) as [fs2| |]; [|by apply elem_of_nil in Hin..].
      apply merge_batches_frame in Hb as [Hnew _].
      apply (IH fs2 new_runs (iteration + 1)); [|done].
      eapply Forall_impl; [exact Hnew|]. intros name [number ->].
      apply merged_name_fresh. lia.
Qed.

(** X12.  In every call of the merger that the sort makes, the file that
    the merger writes is none of the run files that it reads: the runs
    of the first phase are named [run<i>.txt], the merged runs
    [merged_run_<iteration>_<number>.txt], and a pass reads the merged
    runs of the pass before it. *)
Theorem merger_output_is_no_input (fuel : nat) (fs : gmap (list ascii) (list ascii))
    (lines : list (list ascii)) (memory_limit block_size : Z)
    (batch : list (list ascii)) (identifier : list ascii) :
  MergeCall batch identifier
    ∈ trace (external_merge_sort fuel fs lines memory_limit block_size) →
  merged_filename identifier ∉ batch.
Proof.
  unfold external_merge_sort. cbv zeta. rewrite trace_bind.
  cbn [quiet trace result app]. unfold generate_runs.
  destruct (read_numbers_and_divide lines (memory_limit / 3)) as [chunks| |];
    [|by intros ?%elem_of_nil..].
  rewrite bind_Done.
  destruct (generate_runs_from_spec fs chunks 1 []) as (fs1 & -> & _ & _).
  simpl app. unfold merge_runs.
  destruct (Z.eqb_spec block_size 0); [by intros ?%elem_of_nil|].
  apply merge_runs_loop_trace_fresh, run_names_fresh.
Qed.

Lemma merger_output_is_no_input_witness :
  MergeCall [run_filename 1; run_filename 2] (lit "1_1")
    ∈ trace (external_merge_sort 2 ∅ (write_line <$> [5; 3; 8]) 160 80)
  ∧ merged_filename (lit "1_1") ∉ [run_filename 1; run_filename 2].
Proof.
  assert (MergeCall [run_filename 1; run_filename 2] (lit "1_1")
            ∈ trace (external_merge_sort 2 ∅ (write_line <$> [5; 3; 8]) 160 80))
    as Hcall.
  { apply (list_elem_of_lookup_2 _ 1%nat). vm_compute. reflexivity. }
  split; [exact Hcall|].
  exact (merger_output_is_no_input 2 ∅ (write_line <$> [5; 3; 8]) 160 80
           [run_filename 1; run_filename 2] (lit "1_1") Hcall).
Defined.

End fresh_output.

(** ** Parameters that allow no merge *)

Section parameters.

Implicit Types (fs : gmap (list ascii) (list ascii)) (lines : list (list ascii)).
Implicit Types (zs : list Z).

Lemma traced_eta {A} (t : traced A) : t = Traced (trace t) (result t).
Proof. by destruct t. Qed.

(** X10.  A block size of zero stops the sort, after the runs are written,
    with [ZeroDivisionError]; a memory limit and a block size of opposite
    signs give an empty [range]: with more than one run, the first pass
    merges nothing, removes every run, and the [os.rename] after the
    loop then raises [IndexError]. *)
Theorem degenerate_parameters (fuel : nat) (fs : gmap (list ascii) (list ascii))
    (lines : list (list ascii)) (zs : list Z) (memory_limit block_size : Z) :
  input_records lines zs →
  (block_size = 0 →
   external_merge_sort fuel fs lines memory_limit block_size
   = Traced [] (Raise ZeroDivisionError))
  ∧ (memory_limit / block_size < 0 →
     run_capacity (memory_limit / 3) < Z.of_nat (length zs) →
     external_merge_sort (S fuel) fs lines memory_limit block_size
     = Traced [MergePass 1] (Raise IndexError)).
Proof.
  intros Hin.
  destruct (generate_runs_spec fs lines zs (memory_limit / 3) Hin)
    as (chunks & fs1 & Hchunks & Hcat & Hall & Hgen & Hfiles).
  unfold external_merge_sort. cbv zeta. rewrite Hgen, !quiet_bind. unfold merge_runs.
  split.
  - intros ->. done.
  - intros HK Hmany.
    pose proof (more_than_one_run _ _ _ _ Hin Hchunks Hmany) as Hn.
    destruct (Z.eqb_spec block_size 0) as [->|Hbs].
    { rewrite Z.div_0_r in HK. lia. }
    destruct (remove_runs_spec fs1 (run_names 1 (length chunks)))
      as (fs2 & Hrm & _); [apply run_names_NoDup| |].
    { intros name Hname. apply list_elem_of_lookup in Hname as [i Hi].
      destruct (Forall2_lookup_l _ _ _ _ _ Hfiles Hi) as (run & _ & ->). done. }
    assert (py_range (length (run_names 1 (length chunks))) (memory_limit / block_size)
            = Done []) as Hrange.
    { unfold py_range. destruct (Z.eqb_spec (memory_limit / block_size) 0); [lia|].
      by destruct (Z.ltb_spec (memory_limit / block_size) 0); [|lia]. }
    rewrite merge_runs_loop_pass by (by rewrite run_names_length).
    rewrite (traced_eta (_ ≫= _)). f_equal.
    + rewrite trace_bind. cbn [emit trace result]. rewrite trace_bind, Hrange.
      cbn [quiet trace result app]. rewrite trace_bind. cbn [merge_batches].
      unfold mret, traced_ret. cbn [trace result app]. rewrite trace_bind.
      cbn [quiet trace result app]. rewrite Hrm.
      by rewrite merge_runs_loop_exit by (simpl; lia).
    + rewrite !result_bind, result_emit, bind_Done. cbn [quiet result].
      rewrite Hrange, bind_Done, result_bind. cbn [merge_batches].
      unfold mret, traced_ret. cbn [result].
      rewrite bind_Done, result_bind. cbn [quiet result]. rewrite Hrm, bind_Done.
      by rewrite merge_runs_loop_exit by (simpl; lia).
Qed.

Lemma degenerate_parameters_witness :
  external_merge_sort 0 ∅ (write_line <$> [5; 3; 8]) 160 0
  = Traced [] (Raise ZeroDivisionError)
  ∧ external_merge_sort 1 ∅ (write_line <$> [5; 3; 8]) 160 (-80)
    = Traced [MergePass 1] (Raise IndexError).
Proof.
  destruct (degenerate_parameters 0 ∅ (write_line <$> [5; 3; 8]) [5; 3; 8] 160 0)
    as [Hzero _]; [vm_compute; reflexivity|].
  destruct (degenerate_parameters 0 ∅ (write_line <$> [5; 3; 8]) [5; 3; 8] 160 (-80))
    as [_ Hnegative]; [vm_compute; reflexivity|].
  split; [by apply Hzero|apply Hnegative; by vm_compute].
Defined.

End parameters.

(** ** [main] *)

Section main.

Implicit Types (fs : gmap (list ascii) (list ascii)) (lines argv : list (list ascii)).
Implicit Types (zs : list Z).

Lemma main_constants :
  run_capacity (MEMORY_LIMIT_BYTES / 3) = 873813
  ∧ MEMORY_LIMIT_BYTES / BLOCK_SIZE_BYTES = 204800.
Proof. by vm_compute. Qed.

(** X11.  The program as it is run, with 100 MiB of memory and blocks of 512
    bytes, on a non-empty file of integers: up to 873813 records are
    sorted in memory and only renamed; more records are sorted by
    merging 204800 runs at a time, within [fuel] passes for up to
    873813 * 204800 ^ fuel records, as long as every record has at most
    511 characters; with a longer record among more than 873813 the
    program raises [IndexError]. *)
Theorem main_sorts (fuel : nat) (fs : gmap (list ascii) (list ascii))
    (argv : list (list ascii)) (input_file : list ascii)
    (lines : list (list ascii)) (zs : list Z) :
  argv !! 1%nat = Some input_file →
  input_records lines zs →
  zs ≠ [] →
  (Z.of_nat (length zs) ≤ 873813 →
   ∃ fs',
     main fuel fs argv lines = Traced [] (Done fs')
     ∧ fs' !! output_path = Some (write_lines (py_sort zs)))
  ∧ (Forall (fits 512) zs →
     Z.of_nat (length zs) ≤ 873813 * 204800 ^ Z.of_nat fuel →
     ∃ fs',
       result (main fuel fs argv lines) = Done fs'
       ∧ fs' !! output_path = Some (write_lines (py_sort zs)))
  ∧ (Exists (λ number, ¬ fits 512 number) zs →
     873813 < Z.of_nat (length zs) →
     result (main (S fuel) fs argv lines) = Raise IndexError).
Proof.
  intros Hargv Hin Hne. unfold main. rewrite Hargv.
  destruct main_constants as [Hcap HK]. split_and!.
  - intros Hsmall.
    apply (external_merge_sort_in_memory fuel fs lines zs); [done|done|done|].
    by rewrite Hcap.
  - intros Hfit Hfuel.
    apply (external_merge_sort_within fuel fs lines zs); [done|done|done| |done|].
    + rewrite HK. lia.
    + rewrite Hcap, HK.
      assert (0 < 204800 ^ Z.of_nat fuel) by (apply Z.pow_pos_nonneg; lia).
      assert ((Z.of_nat (length zs) + 873813 - 1) / 873813 < 204800 ^ Z.of_nat fuel + 1);
        [|lia].
      apply Z.div_lt_upper_bound; lia.
  - intros Hex Hmany.
    apply (external_merge_sort_blocked fuel fs lines zs); [done|done| | |done].
    + rewrite HK. lia.
    + by rewrite Hcap.
Qed.

Lemma main_sorts_witness :
  ∃ fs',
    main 0 ∅ [lit "Rastocka_mergesort.py"; lit "numbers.txt"]
      (write_line <$> [5; 3; 8; 1; 9; 2; -7])
    = Traced [] (Done fs')
    ∧ fs' !! output_path = Some (write_lines (py_sort [5; 3; 8; 1; 9; 2; -7])).
Proof.
  destruct (main_sorts 0 ∅ [lit "Rastocka_mergesort.py"; lit "numbers.txt"]
              (lit "numbers.txt") (write_line <$> [5; 3; 8; 1; 9; 2; -7])
              [5; 3; 8; 1; 9; 2; -7]) as [Hsmall _].
  - reflexivity.
  - vm_compute. reflexivity.
  - done.
  - apply Hsmall. simpl. lia.
Defined.

End main.
